(** * DubsLeaderboard: the aggregation code of [dubsviewer.py]

    A shallow embedding of the pandas pipeline of [src/dubsviewer.py]:
    the CSV load, [get_gain_leaderboard], the top-20 progression
    pivot / ffill / melt, the rolling max-gain loop and the seasonal
    leaderboard.

    Conventions.
    - A data frame is the list of its rows, in row order.
    - A timestamp is a [Z] count of microseconds; a [timedelta] is a [Z]
      in the same unit.  The [timestamp] column of the file is read as
      text; a cell of it, or of [name], may be missing.  The
      aggregations are modelled on frames without missing cells.
    - [datetime.now()] reads a clock, at every call anew.
    - A score is a [Z] held in a 64-bit integer column (the
      [number_int] column): [int64] when every value of the column fits,
      [uint64] when some value does not and all lie in 0 .. 2^64 - 1.
      Differences of scores wrap around in that type.  A column with
      other values is not read as integers and is outside the model.
    - A missing value (NaN) of a derived table is [None]; a table that
      holds one holds its numbers as [float64], rounded to nearest.
    - Player names differ from the column labels [timestamp] and
      [Score] of the long form.
    - A pandas [Series] indexed by player name is the list of its
      (name, value) items, in index order, with its name. *)

From Stdlib Require Import ZArith List String Ascii Bool Lia DecimalString DecimalZ DecimalPos.
From Stdlib Require Import Sorting.Sorted Sorting.Permutation.
Import ListNotations.
Open Scope Z_scope.

(** * Part I: the model *)

(** ** Keys: sorted distinct values of a column

    [groupby], [pivot_table] and [value_counts] index their result by
    the distinct values of a column, in ascending order. *)

Section KeyDefs.
Variable K : Type.
Variable leb : K -> K -> bool.

Definition klt (a b : K) : Prop := leb b a = false.

Fixpoint insert_key (x : K) (l : list K) : list K :=
  match l with
  | [] => [x]
  | y :: l' =>
      if leb x y then (if leb y x then l else x :: l)
      else y :: insert_key x l'
  end.

Definition unique_sorted (l : list K) : list K := fold_right insert_key [] l.
End KeyDefs.

Arguments klt {K} leb a b.
Arguments insert_key {K} leb x l.
Arguments unique_sorted {K} leb l.

(** ** [sort_values]: a stable sort of rows on one column

    [le a b] reads: row [a] may stand before row [b].  Rows that
    compare equal keep their incoming order here; the order the library
    gives them is not fixed by the code, and no statement below fixes
    one. *)

Section SortDefs.
Variable A : Type.
Variable le : A -> A -> bool.

Fixpoint insert_by (x : A) (l : list A) : list A :=
  match l with
  | [] => [x]
  | y :: l' => if le x y then x :: l else y :: insert_by x l'
  end.

Definition sort_by (l : list A) : list A := fold_right insert_by [] l.
End SortDefs.

Arguments insert_by {A} le x l.
Arguments sort_by {A} le l.

(** ** Column aggregates: [max] and [min] of a column of scores;
    [None] on an empty column. *)

Definition smax (l : list Z) : option Z :=
  match l with
  | [] => None
  | x :: xs => Some (fold_left Z.max xs x)
  end.

Definition smin (l : list Z) : option Z :=
  match l with
  | [] => None
  | x :: xs => Some (fold_left Z.min xs x)
  end.

(** ** Observations: the rows of [df] after the load *)

Record Obs : Type := mkObs { name : string; timestamp : Z; score : Z }.

Definition frame : Type := list Obs.

Definition isin (names : list string) (n : string) : bool :=
  existsb (String.eqb n) names.

(** [df[df['name'] == n]]: the rows of one player, in row order. *)
Definition group_rows (n : string) (df : frame) : frame :=
  filter (fun o => String.eqb (name o) n) df.

(** The keys of [df.groupby('name')]: the distinct names, ascending. *)
Definition group_keys (df : frame) : list string :=
  unique_sorted String.leb (map name df).

(** [df.groupby("name")["score"].agg()]: one item per key that has a value. *)
Definition groupby_score (agg : list Z -> option Z) (df : frame) : list (string * Z) :=
  flat_map (fun n => match agg (map score (group_rows n df)) with
                     | Some v => [(n, v)]
                     | None => []
                     end) (group_keys df).

Definition by_value_desc (a b : string * Z) : bool := snd b <=? snd a.

Definition by_timestamp (a b : Obs) : bool := timestamp a <=? timestamp b.

(** ** The type of the score column

    Subtraction in a 64-bit column wraps around: signed for [int64],
    modulo 2^64 for [uint64]. *)

Inductive dtype : Type := Int64 | UInt64.

Definition wrap (dt : dtype) (z : Z) : Z :=
  match dt with
  | Int64 => (z + 2 ^ 63) mod 2 ^ 64 - 2 ^ 63
  | UInt64 => z mod 2 ^ 64
  end.

Definition in_int64 (z : Z) : bool := (- 2 ^ 63 <=? z) && (z <? 2 ^ 63).

(** The dtype [read_csv] gives the column: that of the whole frame, kept
    by every selection of its rows. *)
Definition score_dtype (df : frame) : dtype :=
  if forallb (fun o => in_int64 (score o)) df then Int64 else UInt64.

(** The value an integer has once its column is [float64]: itself up to
    2^53, beyond that the nearest multiple of the spacing, ties to the
    even one. *)
Definition round_abs (a : Z) : Z :=
  if a <? 2 ^ 53 then a
  else
    let u := 2 ^ (Z.log2 a - 52) in
    let q := a / u in
    let r := a mod u in
    let q' := if 2 * r <? u then q
              else if u <? 2 * r then q + 1
                   else if Z.even q then q else q + 1 in
    q' * u.

Definition to_float64 (z : Z) : Z := Z.sgn z * round_abs (Z.abs z).

(** ** The CSV load (lines 8-11)

    A row of the file is given by its fields.  [read_csv] reads a field
    of the [name] or of the [timestamp] column that is one of its NA
    markers (the empty field among them) as a missing cell.
    [pd.to_datetime(col, format=...)] turns a missing cell into NaT and
    a string into its instant; there is no [errors=] argument, so one
    string that does not match the format makes the call, and with it
    the script, raise. *)




Section Load.
(** The NA markers of [read_csv]. *)
Variable is_na : string -> bool.

(** The library's parser for the format of line 10; [None]: the string
    does not match. *)
Variable strptime : string -> option Z.





End Load.




(** A parser for ["%Y-%m-%d %H:%M:%S"], the one the examples run with:
    the regular expression the library's string matching makes of the
    format.  The year has four digits; month, day, hour, minute and
    second have one or two (the day may be a blank and a digit); the
    blank of the format stands for a run of white space; seconds go up
    to 61; nothing may follow.  The date has to exist.  The result
    counts microseconds from 1970-01-01 00:00:00. *)














(** [timedelta(hours=h)] and [timedelta(days=d)], in microseconds. *)
Definition timedelta_hours (h : Z) : Z := h * 3600000000.
Definition timedelta_days (d : Z) : Z := d * 86400000000.

(** ** [get_gain_leaderboard] (lines 22-42) *)

(** A column label is a string or, for an unnamed column, an integer. *)
Inductive label : Type :=
| Lstr (s : string)
| Lint (i : Z).

Definition label_eqb (a b : label) : bool :=
  match a, b with
  | Lstr s, Lstr t => String.eqb s t
  | Lint i, Lint j => i =? j
  | _, _ => false
  end.

Definition opt_label_eqb (a b : option label) : bool :=
  match a, b with
  | Some x, Some y => label_eqb x y
  | None, None => true
  | _, _ => false
  end.

Record Series : Type :=
  mkSeries { s_name : option label; s_index_name : option label; s_items : list (string * Z) }.

(** The two-column frame the function returns. *)
Record Table : Type := mkTable { columns : list label; rows : list (string * Z) }.

Definition groupby_series (agg : list Z -> option Z) (df : frame) : Series :=
  {| s_name := Some (Lstr "score");
     s_index_name := Some (Lstr "name");
     s_items := groupby_score agg df |}.

Fixpoint item_at (n : string) (items : list (string * Z)) : option Z :=
  match items with
  | [] => None
  | (k, v) :: rest => if String.eqb k n then Some v else item_at n rest
  end.

(** [a - b] on two series of dtype [dt] with the same index: values
    are subtracted key by key, in that dtype; the result keeps a name
    only when both operands have the same one. *)
Definition series_sub (dt : dtype) (a b : Series) : Series :=
  {| s_name := if opt_label_eqb (s_name a) (s_name b) then s_name a else None;
     s_index_name :=
       if opt_label_eqb (s_index_name a) (s_index_name b) then s_index_name a else None;
     s_items := flat_map (fun kv => match item_at (fst kv) (s_items b) with
                                    | Some w => [(fst kv, wrap dt (snd kv - w))]
                                    | None => []
                                    end) (s_items a) |}.

Definition sort_values_desc (s : Series) : Series :=
  {| s_name := s_name s;
     s_index_name := s_index_name s;
     s_items := sort_by by_value_desc (s_items s) |}.

(** [Series.reset_index()]: the index becomes a column under its name
    and the values a column under the series' name, or under [0] when
    the series has none. *)
Definition reset_index (s : Series) : Table :=
  {| columns := [ match s_index_name s with Some l => l | None => Lstr "index" end;
                  match s_name s with Some l => l | None => Lint 0 end ];
     rows := s_items s |}.

(** [rename(columns={old: new})]: labels other than [old] are kept. *)
Definition rename_columns (old new : label) (t : Table) : Table :=
  {| columns := map (fun c => if label_eqb c old then new else c) (columns t);
     rows := rows t |}.

(** Lines 23-27; [if time_window:] is false for [None] and for a zero
    [timedelta]. *)
Definition time_filter (now : Z) (time_window : option Z) (df : frame) : frame :=
  match time_window with
  | Some d =>
      if d =? 0 then df
      else let cutoff := now - d in
           filter (fun o => cutoff <=? timestamp o) df
  | None => df
  end.

(** Lines 29-30. *)
Definition name_filter (filtered_names : list string) (df : frame) : frame :=
  match filtered_names with
  | [] => df
  | _ :: _ => filter (fun o => isin filtered_names (name o)) df
  end.

(** Line 32: the number of rows per name, most frequent first. *)
Definition value_counts (df : frame) : list (string * Z) :=
  sort_by by_value_desc
          (map (fun n => (n, Z.of_nat (List.length (group_rows n df)))) (group_keys df)).

(** Line 33. *)
Definition valid_names (df : frame) : list string :=
  map fst (filter (fun c => 1 <? snd c) (value_counts df)).

(** Lines 23-30: the time test and the allow-list. *)
Definition window_rows (now : Z) (time_window : option Z) (filtered_names : list string)
           (df : frame) : frame :=
  name_filter filtered_names (time_filter now time_window df).

(** Lines 23-34: [df_filtered] as it reaches the [groupby]. *)
Definition df_filtered (now : Z) (time_window : option Z) (filtered_names : list string)
           (df : frame) : frame :=
  let w := window_rows now time_window filtered_names df in
  filter (fun o => isin (valid_names w) (name o)) w.

Definition empty_gain_table : Table :=
  {| columns := [Lstr "name"; Lstr "Gain"]; rows := [] |}.

Definition get_gain_leaderboard (now : Z) (time_window : option Z)
           (filtered_names : list string) (df : frame) : Table :=
  match df_filtered now time_window filtered_names df with
  | [] => empty_gain_table
  | (_ :: _) as dff =>
      let latest := groupby_series smax dff in
      let earliest := groupby_series smin dff in
      let gain := sort_values_desc (series_sub (score_dtype df) latest earliest) in
      rename_columns (Lint 0) (Lstr "Gain") (reset_index gain)
  end.

(** ** The top-20 progression (lines 120-152) *)

(** [df.groupby("name")["score"].max().sort_values(ascending=False)
    .head(k).index.tolist()]. *)
Definition top_names (k : nat) (df : frame) : list string :=
  map fst (firstn k (sort_by by_value_desc (groupby_score smax df))).

Definition df_top20 (df : frame) : frame :=
  filter (fun o => isin (top_names 20 df) (name o)) df.

(** A pivoted frame: the index (timestamps) and, per player, the column
    of cells aligned with the index; [None] is NaN. *)
Record Pivot : Type :=
  mkPivot { pv_index : list Z; pv_columns : list (string * list (option Z)) }.

Definition cell_rows (p : string) (t : Z) (d : frame) : frame :=
  filter (fun o => String.eqb (name o) p && (timestamp o =? t)) d.

(** Line 126: [aggfunc="max"] over the rows of one (timestamp, name);
    NaN where there is none. *)
Definition pivot_cell (d : frame) (p : string) (t : Z) : option Z :=
  smax (map score (cell_rows p t d)).

(** Some (timestamp, name) of the pivot has no row. *)
Definition pivot_has_nan (d : frame) : bool :=
  existsb (fun p => existsb (fun t => match pivot_cell d p t with
                                      | None => true
                                      | Some _ => false
                                      end)
                            (unique_sorted Z.leb (map timestamp d)))
          (group_keys d).

(** The cell as the pivot holds it: the pivot is [float64] as soon as
    one of its cells is NaN, else it keeps the integers. *)
Definition pivot_number (d : frame) (m : Z) : Z :=
  if pivot_has_nan d then to_float64 m else m.

Definition pivot_value (d : frame) (p : string) (t : Z) : option Z :=
  option_map (pivot_number d) (pivot_cell d p t).

Definition pivot_table (d : frame) : Pivot :=
  let idx := unique_sorted Z.leb (map timestamp d) in
  {| pv_index := idx;
     pv_columns := map (fun p => (p, map (pivot_value d p) idx)) (group_keys d) |}.

Definition by_key (a b : Z * option Z) : bool := fst a <=? fst b.

(** Line 129, [sort_index()]: the rows are reordered by index value. *)
Definition sort_index (pv : Pivot) : Pivot :=
  {| pv_index := sort_by Z.leb (pv_index pv);
     pv_columns :=
       map (fun pc => (fst pc, map snd (sort_by by_key (combine (pv_index pv) (snd pc)))))
           (pv_columns pv) |}.

Fixpoint ffill_from (last : option Z) (col : list (option Z)) : list (option Z) :=
  match col with
  | [] => []
  | c :: rest =>
      let v := match c with Some _ => c | None => last end in
      v :: ffill_from v rest
  end.

(** Line 129, [ffill()]: down each column. *)
Definition ffill (pv : Pivot) : Pivot :=
  {| pv_index := pv_index pv;
     pv_columns := map (fun pc => (fst pc, ffill_from None (snd pc))) (pv_columns pv) |}.

Definition clamp_cell (c : option Z) : option Z :=
  match c with
  | Some v => if v <? 0 then Some 0 else Some v
  | None => None
  end.

(** Line 132, [df_pivot[df_pivot < 0] = 0]; NaN compares false. *)
Definition clamp_negative (pv : Pivot) : Pivot :=
  {| pv_index := pv_index pv;
     pv_columns := map (fun pc => (fst pc, map clamp_cell (snd pc))) (pv_columns pv) |}.

Record long_row : Type := mkLong { lr_timestamp : Z; Player : string; Score : option Z }.

(** Line 135, [melt]: one row per (column, index value), column by
    column; cells that are NaN give rows whose [Score] is NaN. *)
Definition melt (pv : Pivot) : list long_row :=
  flat_map (fun pc => map (fun tv => mkLong (fst tv) (fst pc) (snd tv))
                          (combine (pv_index pv) (snd pc)))
           (pv_columns pv).

(** Lines 126-132 on the selected rows [d]. *)
Definition filled_pivot (d : frame) : Pivot :=
  clamp_negative (ffill (sort_index (pivot_table d))).

Definition progression_pivot (df : frame) : Pivot := filled_pivot (df_top20 df).

Definition df_long (df : frame) : list long_row := melt (progression_pivot df).

Definition by_lr_timestamp (a b : long_row) : bool := lr_timestamp a <=? lr_timestamp b.

(** [groupby('Player').tail(1)]: the last row of each player. *)
Fixpoint tail_1 (l : list long_row) : list long_row :=
  match l with
  | [] => []
  | r :: rest =>
      if existsb (fun r' => String.eqb (Player r') (Player r)) rest
      then tail_1 rest
      else r :: tail_1 rest
  end.

(** Line 152. *)
Definition latest_points_of (top5_names : list string) (long : list long_row)
  : list long_row :=
  tail_1 (sort_by by_lr_timestamp (filter (fun r => isin top5_names (Player r)) long)).

Definition latest_points (df : frame) : list long_row :=
  latest_points_of (top_names 5 df) (df_long df).

(** ** The rolling max-gain loop (lines 190-207) *)

(** Line 199. *)
Definition future_window (group : frame) (row : Obs) (window_end : Z) : frame :=
  filter (fun o => (timestamp row <? timestamp o) && (timestamp o <=? window_end)) group.

(** Lines 198-204: one iteration of the inner loop. *)
Definition rolling_step (dt : dtype) (rolling_hours : Z) (group : frame)
           (max_gain : Z) (row : Obs) : Z :=
  let window_end := timestamp row + timedelta_hours rolling_hours in
  match smax (map score (future_window group row window_end)) with
  | Some m =>
      let gain := wrap dt (m - score row) in
      if max_gain <? gain then gain else max_gain
  | None => max_gain
  end.

(** Lines 193-204 for one player. *)
Definition player_max_gain (rolling_hours : Z) (player : string) (df : frame) : Z :=
  let group := sort_by by_timestamp (group_rows player df) in
  fold_left (rolling_step (score_dtype df) rolling_hours group) group 0.

(** Lines 190-207. *)
Definition biggest_changes (rolling_hours : Z) (df : frame) : list (string * Z) :=
  flat_map (fun player =>
              let max_gain := player_max_gain rolling_hours player df in
              if 0 <? max_gain then [(player, max_gain)] else [])
           (group_keys df).

(** ** The seasonal leaderboard (lines 229-249) *)

(** [f"{x:,}"]: decimal digits in groups of three. *)
Fixpoint group_digits (rev_digits : list ascii) (k : nat) : list ascii :=
  match rev_digits with
  | [] => []
  | d :: rest =>
      if Nat.eqb k 3 then ","%char :: d :: group_digits rest 1
      else d :: group_digits rest (S k)
  end.

Definition format_thousands (x : Z) : string :=
  let digits := list_ascii_of_string (NilZero.string_of_uint (N.to_uint (Z.to_N (Z.abs x)))) in
  let body := string_of_list_ascii (rev (group_digits (rev digits) 0)) in
  if x <? 0 then String "-" body else body.

Record max_row : Type :=
  mkMax { mr_name : string; mr_score : Z; mr_score_formatted : string }.

Definition by_score_desc (a b : max_row) : bool := mr_score b <=? mr_score a.

(** Lines 229-242: [max_scores] after the sort.  On integer scores
    [to_numeric] and [dropna] change nothing; [astype("int64")] gives
    the value in [int64], wrapped around where a score of a [uint64]
    column does not fit. *)
Definition max_scores_sorted (selected_users : list string) (df : frame) : list max_row :=
  let df_selected := filter (fun o => isin selected_users (name o)) df in
  sort_by by_score_desc
          (map (fun kv => mkMax (fst kv) (wrap Int64 (snd kv))
                                (format_thousands (wrap Int64 (snd kv))))
               (groupby_score smax df_selected)).

(** Lines 242-243: the fresh index 0, 1, ... and [Rank = index + 1]. *)
Definition insert_rank (rows : list max_row) : list (Z * max_row) :=
  combine (map (fun i => Z.of_nat i + 1) (seq 0 (List.length rows))) rows.

Record ranked_row : Type :=
  mkRanked { Rank : Z; Player_Name : string; Highest_Score_Seen : string }.

(** Lines 244-249: the renamed columns, without [score]. *)
Definition seasonal_leaderboard (selected_users : list string) (df : frame)
  : list ranked_row :=
  map (fun rm => mkRanked (fst rm) (mr_name (snd rm)) (mr_score_formatted (snd rm)))
      (insert_rank (max_scores_sorted selected_users df)).

(** ** The objects of the script and its module-level names

    A name of the script is bound to an object; an object lives at an
    address of the heap.  An assignment [x = e] binds [x] to the object
    of [e]; [x[...] = v], [x.append(v)] and [x.insert(...)] write into
    the object [x] is bound to, which every other name bound to it
    sees.  [datetime.now()] reads the clock; successive readings are
    [clock 0], [clock 1], ...  A step that raises yields [None]. *)

Inductive object : Type :=
| OFrame (rows : frame)
| ONames (names : list string)
| OTable (t : Table)
| OPivot (pv : Pivot)
| OLong (rows : list long_row)
| ORecords (records : list (string * Z))
| OScores (rows : list (string * Z))
| OMaxScores (rows : list max_row)
| ORankedScores (rows : list (Z * max_row))
| ORanked (rows : list ranked_row).

Record world : Type :=
  mkWorld {
      heap : nat -> option object;
      next : nat;
      env : list (string * nat);
      clock : nat -> Z;
      reads : nat
    }.

Definition M (A : Type) : Type := world -> option (A * world).

Definition ret {A : Type} (a : A) : M A := fun w => Some (a, w).

Definition bind {A B : Type} (m : M A) (k : A -> M B) : M B :=
  fun w =>
    match m w with
    | Some (a, w') => k a w'
    | None => None
    end.

Definition raise {A : Type} : M A := fun _ => None.

Notation "x <- m ;; k" := (bind m (fun x => k))
  (at level 61, m at next level, right associativity).
Notation "m ;;; k" := (bind m (fun _ => k))
  (at level 61, right associativity).

(** A new object, at an address no name is bound to. *)
Definition alloc (o : object) : M nat :=
  fun w =>
    Some (next w,
          mkWorld (fun a => if Nat.eqb a (next w) then Some o else heap w a)
                  (S (next w)) (env w) (clock w) (reads w)).

Definition deref (a : nat) : M object :=
  fun w =>
    match heap w a with
    | Some o => Some (o, w)
    | None => None
    end.

(** A write into the object at [a]. *)
Definition update (a : nat) (o : object) : M unit :=
  fun w =>
    match heap w a with
    | Some _ =>
        Some (tt,
              mkWorld (fun b => if Nat.eqb b a then Some o else heap w b)
                      (next w) (env w) (clock w) (reads w))
    | None => None
    end.

Fixpoint lookup_env (x : string) (e : list (string * nat)) : option nat :=
  match e with
  | [] => None
  | (y, a) :: rest => if String.eqb x y then Some a else lookup_env x rest
  end.

Definition get_name (x : string) : M nat :=
  fun w =>
    match lookup_env x (env w) with
    | Some a => Some (a, w)
    | None => None
    end.

Definition set_name (x : string) (a : nat) : M unit :=
  fun w => Some (tt, mkWorld (heap w) (next w) ((x, a) :: env w) (clock w) (reads w)).

Definition datetime_now : M Z :=
  fun w =>
    Some (clock w (reads w),
          mkWorld (heap w) (next w) (env w) (clock w) (S (reads w))).

Definition as_frame (o : object) : M frame :=
  match o with OFrame df => ret df | _ => raise end.

Definition as_names (o : object) : M (list string) :=
  match o with ONames l => ret l | _ => raise end.

Definition as_table (o : object) : M Table :=
  match o with OTable t => ret t | _ => raise end.

Definition as_pivot (o : object) : M Pivot :=
  match o with OPivot pv => ret pv | _ => raise end.

Definition as_long (o : object) : M (list long_row) :=
  match o with OLong l => ret l | _ => raise end.

Definition as_records (o : object) : M (list (string * Z)) :=
  match o with ORecords l => ret l | _ => raise end.

Definition as_scores (o : object) : M (list (string * Z)) :=
  match o with OScores l => ret l | _ => raise end.

Definition as_max_scores (o : object) : M (list max_row) :=
  match o with OMaxScores l => ret l | _ => raise end.

Definition as_ranked_scores (o : object) : M (list (Z * max_row)) :=
  match o with ORankedScores l => ret l | _ => raise end.

Definition as_ranked (o : object) : M (list ranked_row) :=
  match o with ORanked l => ret l | _ => raise end.

(** The value of the object a name is bound to. *)
Definition value_of {A : Type} (x : string) (as_a : object -> M A) : M A :=
  a <- get_name x ;; o <- deref a ;; as_a o.

(** [x = e] for an expression that builds a new object. *)
Definition assign_new (x : string) (o : object) : M unit :=
  a <- alloc o ;; set_name x a.

Fixpoint for_each {A : Type} (l : list A) (body : A -> M unit) : M unit :=
  match l with
  | [] => ret tt
  | x :: rest => body x ;;; for_each rest body
  end.

(** [if time_window:] a [timedelta] is true unless it is zero. *)
Definition truthy (time_window : option Z) : bool :=
  match time_window with
  | Some d => negb (d =? 0)
  | None => false
  end.

(** A call of [get_gain_leaderboard] (lines 22-42): the clock is read
    when [time_window] is true; the returned table is a new object. *)
Definition call_get_gain_leaderboard (time_window : option Z) : M nat :=
  now <- (if truthy time_window then datetime_now else ret 0) ;;
  df <- value_of "df" as_frame ;;
  filtered_names <- value_of "filtered_names" as_names ;;
  alloc (OTable (get_gain_leaderboard now time_window filtered_names df)).

(** Lines 120-152.  Lines 123, 126, 129 and 135 bind a name to a new
    object; line 132 writes into the object [df_pivot] is bound to. *)
Definition progression_block : M unit :=
  df <- value_of "df" as_frame ;;
  assign_new "df_top20" (OFrame (df_top20 df)) ;;;
  d <- value_of "df_top20" as_frame ;;
  assign_new "df_pivot" (OPivot (pivot_table d)) ;;;
  pv <- value_of "df_pivot" as_pivot ;;
  assign_new "df_pivot" (OPivot (ffill (sort_index pv))) ;;;
  a <- get_name "df_pivot" ;;
  o <- deref a ;;
  pv <- as_pivot o ;;
  update a (OPivot (clamp_negative pv)) ;;;
  pv <- value_of "df_pivot" as_pivot ;;
  assign_new "df_long" (OLong (melt pv)) ;;;
  df <- value_of "df" as_frame ;;
  long <- value_of "df_long" as_long ;;
  assign_new "latest_points" (OLong (latest_points_of (top_names 5 df) long)).

(** Lines 190-207: the list is built by [append], in place. *)
Definition rolling_block (rolling_hours : Z) : M unit :=
  assign_new "biggest_changes" (ORecords []) ;;;
  df <- value_of "df" as_frame ;;
  for_each (group_keys df)
           (fun player =>
              let max_gain := player_max_gain rolling_hours player df in
              if 0 <? max_gain
              then a <- get_name "biggest_changes" ;;
                   o <- deref a ;;
                   acc <- as_records o ;;
                   update a (ORecords (acc ++ [(player, max_gain)]))
              else ret tt).

(** Lines 229-249.  Lines 233, 237, 238 and 243 write into the object
    [max_scores] is bound to; the other lines bind the name anew. *)
Definition seasonal_block (selected_users : list string) : M unit :=
  df <- value_of "df" as_frame ;;
  assign_new "df_selected" (OFrame (filter (fun o => isin selected_users (name o)) df)) ;;;
  d <- value_of "df_selected" as_frame ;;
  assign_new "max_scores" (OScores (groupby_score smax d)) ;;;
  a <- get_name "max_scores" ;;
  o <- deref a ;;
  s <- as_scores o ;;
  update a (OScores s) ;;;
  s <- value_of "max_scores" as_scores ;;
  assign_new "max_scores" (OScores s) ;;;
  a <- get_name "max_scores" ;;
  o <- deref a ;;
  s <- as_scores o ;;
  update a (OScores (map (fun kv => (fst kv, wrap Int64 (snd kv))) s)) ;;;
  o <- deref a ;;
  s <- as_scores o ;;
  update a (OMaxScores (map (fun kv => mkMax (fst kv) (snd kv) (format_thousands (snd kv))) s)) ;;;
  m <- value_of "max_scores" as_max_scores ;;
  assign_new "max_scores" (OMaxScores (sort_by by_score_desc m)) ;;;
  a <- get_name "max_scores" ;;
  o <- deref a ;;
  m <- as_max_scores o ;;
  update a (ORankedScores (insert_rank m)) ;;;
  r <- value_of "max_scores" as_ranked_scores ;;
  assign_new "max_scores" (ORankedScores r) ;;;
  r <- value_of "max_scores" as_ranked_scores ;;
  assign_new "max_scores"
             (ORanked (map (fun rm => mkRanked (fst rm) (mr_name (snd rm))
                                               (mr_score_formatted (snd rm))) r)).

Inductive engine_call : Type :=
| GainLeaderboard (time_window : option Z)
| Progression
| RollingMaxGain (rolling_hours : Z)
| SeasonalSnapshot (selected_users : list string).

Inductive engine_result : Type :=
| GainResult (t : Table)
| ProgressionResult (long latest : list long_row)
| RollingResult (records : list (string * Z))
| SeasonalResult (entries : list ranked_row).

Definition exec (c : engine_call) : M engine_result :=
  match c with
  | GainLeaderboard time_window =>
      a <- call_get_gain_leaderboard time_window ;;
      o <- deref a ;;
      t <- as_table o ;;
      ret (GainResult t)
  | Progression =>
      progression_block ;;;
      long <- value_of "df_long" as_long ;;
      latest <- value_of "latest_points" as_long ;;
      ret (ProgressionResult long latest)
  | RollingMaxGain rolling_hours =>
      rolling_block rolling_hours ;;;
      records <- value_of "biggest_changes" as_records ;;
      ret (RollingResult records)
  | SeasonalSnapshot selected_users =>
      seasonal_block selected_users ;;;
      entries <- value_of "max_scores" as_ranked ;;
      ret (SeasonalResult entries)
  end.

Fixpoint run (calls : list engine_call) : M (list engine_result) :=
  match calls with
  | [] => ret []
  | c :: rest => r <- exec c ;; rs <- run rest ;; ret (r :: rs)
  end.

(** Before line 8: no object, no name. *)
Definition empty_world (clock : nat -> Z) : world :=
  mkWorld (fun _ => None) 0 [] clock 0.

(** Lines 8-19 for a frame without missing cells: [df] and
    [filtered_names] are bound. *)
Definition script_start (df : frame) (filtered_names : list string) : M unit :=
  assign_new "df" (OFrame df) ;;;
  assign_new "filtered_names" (ONames filtered_names).

(** The state lines 8-19 leave. *)
Definition start_world (df : frame) (filtered_names : list string) (clock : nat -> Z) : world :=
  match script_start df filtered_names (empty_world clock) with
  | Some (_, w) => w
  | None => empty_world clock
  end.



(** What a call returns, as a function of the frame, the allow-list,
    the arguments and the clock reading. *)
Definition result_of (df : frame) (filtered_names : list string) (now : Z)
           (c : engine_call) : engine_result :=
  match c with
  | GainLeaderboard time_window =>
      GainResult (get_gain_leaderboard now time_window filtered_names df)
  | Progression => ProgressionResult (df_long df) (latest_points df)
  | RollingMaxGain rolling_hours => RollingResult (biggest_changes rolling_hours df)
  | SeasonalSnapshot selected_users =>
      SeasonalResult (seasonal_leaderboard selected_users df)
  end.

Definition reads_clock (c : engine_call) : bool :=
  match c with
  | GainLeaderboard time_window => truthy time_window
  | _ => false
  end.

(** The results of a sequence of calls, the first clock reading being
    the [k]-th. *)
Fixpoint results_from (df : frame) (filtered_names : list string) (clock : nat -> Z)
         (k : nat) (calls : list engine_call) : list engine_result :=
  match calls with
  | [] => []
  | c :: rest =>
      result_of df filtered_names (clock k) c
      :: results_from df filtered_names clock (if reads_clock c then S k else k) rest
  end.

(** [df] and [filtered_names] are bound to objects that hold the frame
    and the allow-list. *)
Definition script_world (df : frame) (filtered_names : list string) (w : world) : Prop :=
  exists a_df a_fn,
    lookup_env "df" (env w) = Some a_df
    /\ heap w a_df = Some (OFrame df)
    /\ (a_df < next w)%nat
    /\ lookup_env "filtered_names" (env w) = Some a_fn
    /\ heap w a_fn = Some (ONames filtered_names)
    /\ (a_fn < next w)%nat.

(** From [w] to [w'] no object of [w] has changed, and [df] and
    [filtered_names] are bound as they were. *)
Definition preserved (w w' : world) : Prop :=
  (forall a, (a < next w)%nat -> heap w' a = heap w a)
  /\ (next w <= next w')%nat
  /\ lookup_env "df" (env w') = lookup_env "df" (env w)
  /\ lookup_env "filtered_names" (env w') = lookup_env "filtered_names" (env w)
  /\ clock w' = clock w.

(** ** Vocabulary of the statements

    What the specification calls a maximum, a window, a candidate gain;
    these are relations, not code. *)

Definition is_max (m : Z) (l : list Z) : Prop := In m l /\ forall x, In x l -> x <= m.

Definition is_min (m : Z) (l : list Z) : Prop := In m l /\ forall x, In x l -> m <= x.

(** [o] lies in the window [(t_anchor, t_anchor + w]]. *)
Definition in_window (w : Z) (anchor o : Obs) : Prop :=
  timestamp anchor < timestamp o /\ timestamp o <= timestamp anchor + w.

(** [m] is the highest score in the window of [anchor]. *)
Definition window_max (series : frame) (w : Z) (anchor : Obs) (m : Z) : Prop :=
  (exists o, In o series /\ in_window w anchor o /\ score o = m)
  /\ forall o, In o series -> in_window w anchor o -> score o <= m.

(** [c] is the candidate gain of some anchor with a non-empty window. *)
Definition candidate (series : frame) (w : Z) (c : Z) : Prop :=
  exists anchor m, In anchor series /\ window_max series w anchor m /\ c = m - score anchor.

Definition max_candidate (series : frame) (w : Z) (v : Z) : Prop :=
  candidate series w v /\ forall c, candidate series w c -> c <= v.

(** The candidate gains as the loop computes them, in the column's type. *)
Definition wrapped_candidate (dt : dtype) (series : frame) (w : Z) (c : Z) : Prop :=
  exists anchor m, In anchor series /\ window_max series w anchor m
                   /\ c = wrap dt (m - score anchor).

Definition max_wrapped_candidate (dt : dtype) (series : frame) (w : Z) (v : Z) : Prop :=
  wrapped_candidate dt series w v /\ forall c, wrapped_candidate dt series w c -> c <= v.

(** Scores small enough for every difference of two of them to fit in
    [int64]. *)
Definition scores_fit (df : frame) : Prop :=
  forall o, In o df -> - 2 ^ 62 <= score o < 2 ^ 62.

(** Some cohort player has no observation at some instant of the time
    axis: the pivot of line 126 has a NaN cell. *)
Definition pivot_has_gap (df : frame) : Prop :=
  exists q t,
    In q (top_names 20 df)
    /\ (exists o, In o df /\ In (name o) (top_names 20 df) /\ timestamp o = t)
    /\ forall o, In o df -> name o = q -> timestamp o <> t.

(** The long-form rows read back as observations at the same instants;
    a row whose [Score] is NaN carries no observation. *)
Definition observations_of_long (long : list long_row) : frame :=
  flat_map (fun r => match Score r with
                     | Some v => [mkObs (Player r) (lr_timestamp r) v]
                     | None => []
                     end) long.

(** The observation series of one player: ascending by timestamp. *)
Definition observation_series (player : string) (df : frame) : frame :=
  sort_by by_timestamp (group_rows player df).

(** The column of one player after lines 126-132, as a function of the
    selected rows. *)
Definition filled_column (d : frame) (p : string) : list (option Z) :=
  map clamp_cell
      (ffill_from None (map (pivot_value d p) (unique_sorted Z.leb (map timestamp d)))).

(** ** Sample inputs *)




(** A clock that advances by 100 microseconds from one reading to the
    next. *)
Definition sample_clock (k : nat) : Z := 100 + 100 * Z.of_nat k.

Definition sample_recent : frame := [mkObs "A" 95 1; mkObs "A" 99 4].

(** A [uint64] column: the score of [A] is 2^63. *)
Definition sample_uint64 : frame := [mkObs "A" 0 9223372036854775808; mkObs "B" 0 5].

Definition sample_progression : frame := [mkObs "A" 1 (-5); mkObs "B" 2 7].

(** One player, from the least to the greatest [int64] within an hour. *)
Definition sample_extremes : frame :=
  [mkObs "A" 0 (-9223372036854775808); mkObs "A" 3600000000 9223372036854775807].

(** ** The filter text (lines 16-19) and the selected users (lines 221-226)

    A string is the sequence of its characters; [is_space] tells which
    characters [str.strip()] removes. *)

Section Text.
Variable is_space : ascii -> bool.

Fixpoint drop_space (l : list ascii) : list ascii :=
  match l with
  | [] => []
  | c :: l' => if is_space c then drop_space l' else l
  end.

(** The characters [strip] keeps: white space is dropped at both ends. *)
Definition core (l : list ascii) : list ascii :=
  rev (drop_space (rev (drop_space l))).

(** [s.strip()]. *)
Definition strip (s : string) : string :=
  string_of_list_ascii (core (list_ascii_of_string s)).

(** [s.replace(old, new)] for one-character [old] and [new]. *)
Fixpoint replace_char (old new : ascii) (s : string) : string :=
  match s with
  | EmptyString => EmptyString
  | String c s' => String (if Ascii.eqb c old then new else c) (replace_char old new s')
  end.

(** [s.split(sep)] for a one-character [sep]: never an empty list. *)
Fixpoint split_char (sep : ascii) (s : string) : list string :=
  match s with
  | EmptyString => [EmptyString]
  | String c s' =>
      if Ascii.eqb c sep then EmptyString :: split_char sep s'
      else match split_char sep s' with
           | piece :: pieces => String c piece :: pieces
           | [] => [String c EmptyString]
           end
  end.

Definition nonempty (s : string) : bool := negb (String.eqb s "").

Definition newline : ascii := "010"%char.

(** [name_filter.replace(",", "\n").split("\n")]. *)
Definition pieces (text : string) : list string :=
  split_char newline (replace_char "," newline text).

(** Lines 17-19; the set is a list without duplicates. *)
Definition parse_name_filter (name_filter : string) : list string :=
  if nonempty (strip name_filter)
  then nodup String.string_dec (filter nonempty (map strip (pieces name_filter)))
  else [].

(** Lines 221-226; [None] is the missing file. *)
Definition read_selected_users (file : option (list string)) : list string :=
  match file with
  | Some lines => filter nonempty (map strip lines)
  | None => []
  end.
End Text.

(** The characters below 128 that [str.strip()] removes. *)
Definition ascii_space (c : ascii) : bool :=
  let n := N_of_ascii c in
  ((9 <=? n) && (n <=? 13) || (28 <=? n) && (n <=? 32))%N.


(** ** The all-time chart (lines 74-100) *)

(** [df.empty]: some axis has length 0. *)
Definition table_empty (t : Table) : bool :=
  match rows t, columns t with
  | _ :: _, _ :: _ => false
  | _, _ => true
  end.

(** Line 74: the chart is drawn when this holds, else line 100 reports
    that there is no data. *)
Definition chart_guard (df_all : Table) : bool :=
  negb (table_empty df_all) && existsb (label_eqb (Lstr "Gain")) (columns df_all).


(** ** The table of rolling gains (lines 210-215): the records by
    descending [max_gain], or [None] for the warning of line 215. *)
Definition rolling_display (rolling_hours : Z) (df : frame) : option (list (string * Z)) :=
  match biggest_changes rolling_hours df with
  | [] => None
  | (_ :: _) as records => Some (sort_by by_value_desc records)
  end.


Definition is_digit (c : ascii) : Prop :=
  In c ["0"; "1"; "2"; "3"; "4"; "5"; "6"; "7"; "8"; "9"]%char.

(** Reading a formatted score back: the separators are dropped and the
    rest is read as a decimal numeral.  The script has no such reader;
    it says what the format of line 238 keeps. *)
Definition remove_separators (s : string) : string :=
  string_of_list_ascii
    (filter (fun c => negb (Ascii.eqb c ",")) (list_ascii_of_string s)).

Definition read_thousands (s : string) : option Z :=
  option_map Z.of_int (NilZero.int_of_string (remove_separators s)).


(** A score beyond 2^53 next to a NaN cell of the pivot. *)
Definition sample_fill : frame :=
  [mkObs "A" 1 9007199254740993; mkObs "B" 2 7].

(** * Part II: properties *)

(** ** Facts about keys *)

Section Keys.
Variable K : Type.
Variable leb : K -> K -> bool.
Hypothesis leb_total : forall a b, leb a b = true \/ leb b a = true.
Hypothesis leb_antisym : forall a b, leb a b = true -> leb b a = true -> a = b.
Hypothesis leb_trans : forall a b c, leb a b = true -> leb b c = true -> leb a c = true.

Lemma leb_refl a : leb a a = true.
Proof using leb_total. destruct (leb_total a a); assumption. Qed.

Lemma klt_trans a b c : klt leb a b -> klt leb b c -> klt leb a c.
Proof using leb_total leb_trans.
  unfold klt. intros Hab Hbc.
  destruct (leb c a) eqn:E; [| reflexivity].
  destruct (leb_total a b) as [H | H]; [| congruence].
  rewrite (leb_trans c a b E H) in Hbc. discriminate.
Qed.

Lemma klt_irrefl a : ~ klt leb a a.
Proof using leb_total. unfold klt. rewrite leb_refl. discriminate. Qed.

Lemma In_insert_key a x l : In a (insert_key leb x l) <-> a = x \/ In a l.
Proof using leb_total leb_antisym.
  induction l as [| y l IH]; simpl.
  - intuition.
  - destruct (leb x y) eqn:Exy; [destruct (leb y x) eqn:Eyx |]; simpl.
    + assert (x = y) by now apply leb_antisym. subst. intuition.
    + intuition.
    + rewrite IH. intuition.
Qed.

Lemma In_unique_sorted a l : In a (unique_sorted leb l) <-> In a l.
Proof using leb_total leb_antisym.
  induction l as [| x l IH]; simpl; [reflexivity |].
  rewrite In_insert_key, IH. intuition.
Qed.

Lemma insert_key_sorted x l :
  StronglySorted (klt leb) l -> StronglySorted (klt leb) (insert_key leb x l).
Proof using leb_total leb_antisym leb_trans.
  induction 1 as [| y l Hs IH Hall]; simpl.
  - constructor; constructor.
  - destruct (leb x y) eqn:Exy; [destruct (leb y x) eqn:Eyx |].
    + now constructor.
    + constructor; [now constructor |].
      constructor; [exact Eyx |].
      rewrite Forall_forall in *. intros z Hz.
      eapply klt_trans; [exact Eyx | now apply Hall].
    + constructor; [assumption |].
      rewrite Forall_forall in *. intros z Hz.
      apply In_insert_key in Hz. destruct Hz as [-> | Hz]; [exact Exy | now apply Hall].
Qed.

Lemma unique_sorted_sorted l : StronglySorted (klt leb) (unique_sorted leb l).
Proof using leb_total leb_antisym leb_trans.
  induction l; simpl; [constructor | now apply insert_key_sorted].
Qed.

Lemma sorted_NoDup l : StronglySorted (klt leb) l -> NoDup l.
Proof using leb_total.
  induction 1 as [| y l Hs IH Hall]; constructor; [| assumption].
  intros Hin. rewrite Forall_forall in Hall.
  exact (klt_irrefl _ (Hall _ Hin)).
Qed.

Lemma unique_sorted_NoDup l : NoDup (unique_sorted leb l).
Proof using leb_total leb_antisym leb_trans.
  apply sorted_NoDup, unique_sorted_sorted.
Qed.

(** Two strictly ascending lists with the same elements are equal. *)
Lemma sorted_ext l1 :
  forall l2, StronglySorted (klt leb) l1 -> StronglySorted (klt leb) l2 ->
             (forall a, In a l1 <-> In a l2) -> l1 = l2.
Proof using leb_total leb_antisym leb_trans.
  induction l1 as [| x l1 IH]; intros l2 H1 H2 Hext.
  - destruct l2 as [| y l2]; [reflexivity |].
    exfalso. apply (proj2 (Hext y)). now left.
  - destruct l2 as [| y l2].
    + exfalso. apply (proj1 (Hext x)). now left.
    + inversion H1 as [| ? ? Hs1 Ha1]; subst.
      inversion H2 as [| ? ? Hs2 Ha2]; subst.
      rewrite Forall_forall in Ha1, Ha2.
      assert (x = y) as ->.
      { destruct (proj1 (Hext x) (or_introl eq_refl)) as [E | Hx]; [now subst |].
        destruct (proj2 (Hext y) (or_introl eq_refl)) as [E | Hy]; [now subst |].
        exfalso. apply (klt_irrefl x).
        eapply klt_trans; [apply Ha1, Hy | apply Ha2, Hx]. }
      f_equal. apply IH; try assumption.
      intros a. split; intros Ha.
      * destruct (proj1 (Hext a) (or_intror Ha)) as [E | ?]; [| assumption].
        subst. exfalso. exact (klt_irrefl _ (Ha1 _ Ha)).
      * destruct (proj2 (Hext a) (or_intror Ha)) as [E | ?]; [| assumption].
        subst. exfalso. exact (klt_irrefl _ (Ha2 _ Ha)).
Qed.

End Keys.



(** ** The two key orders: names and timestamps *)

Lemma string_compare_refl s : String.compare s s = Eq.
Proof.
  induction s as [| a s IH]; simpl; [reflexivity |].
  unfold Ascii.compare. now rewrite N.compare_refl.
Qed.

Lemma string_compare_lt_trans a :
  forall b c, String.compare a b = Lt -> String.compare b c = Lt ->
              String.compare a c = Lt.
Proof.
  induction a as [| x a IH]; intros [| y b] [| z c]; simpl; try discriminate; auto.
  destruct (Ascii.compare x y) eqn:Exy; try discriminate;
    destruct (Ascii.compare y z) eqn:Eyz; try discriminate; intros Hab Hbc.
  - apply Ascii.compare_eq_iff in Exy, Eyz. subst.
    unfold Ascii.compare. rewrite N.compare_refl. eauto.
  - apply Ascii.compare_eq_iff in Exy. subst. now rewrite Eyz.
  - apply Ascii.compare_eq_iff in Eyz. subst. now rewrite Exy.
  - unfold Ascii.compare in *.
    rewrite N.compare_lt_iff in Exy, Eyz.
    assert (H : (N_of_ascii x < N_of_ascii z)%N) by lia.
    apply N.compare_lt_iff in H. now rewrite H.
Qed.

Lemma string_leb_trans a b c :
  String.leb a b = true -> String.leb b c = true -> String.leb a c = true.
Proof.
  unfold String.leb.
  destruct (String.compare a b) eqn:Eab; try discriminate;
    destruct (String.compare b c) eqn:Ebc; try discriminate; intros _ _.
  - apply String.compare_eq_iff in Eab, Ebc. subst. now rewrite string_compare_refl.
  - apply String.compare_eq_iff in Eab. subst. now rewrite Ebc.
  - apply String.compare_eq_iff in Ebc. subst. now rewrite Eab.
  - now rewrite (string_compare_lt_trans _ _ _ Eab Ebc).
Qed.

Lemma z_leb_total a b : (a <=? b) = true \/ (b <=? a) = true.
Proof. rewrite !Z.leb_le. lia. Qed.

Lemma z_leb_antisym a b : (a <=? b) = true -> (b <=? a) = true -> a = b.
Proof. rewrite !Z.leb_le. lia. Qed.

Lemma z_leb_trans a b c : (a <=? b) = true -> (b <=? c) = true -> (a <=? c) = true.
Proof. rewrite !Z.leb_le. lia. Qed.

Lemma In_group_keys n df : In n (group_keys df) <-> exists o, In o df /\ name o = n.
Proof.
  unfold group_keys.
  rewrite (In_unique_sorted _ _ String.leb_total String.leb_antisym), in_map_iff.
  split; intros (o & H1 & H2); exists o; tauto.
Qed.

Lemma group_keys_sorted df : StronglySorted (klt String.leb) (group_keys df).
Proof.
  apply (unique_sorted_sorted _ _ String.leb_total String.leb_antisym string_leb_trans).
Qed.

Lemma group_keys_NoDup df : NoDup (group_keys df).
Proof.
  apply (unique_sorted_NoDup _ _ String.leb_total String.leb_antisym string_leb_trans).
Qed.

Lemma In_group_rows o n df : In o (group_rows n df) <-> In o df /\ name o = n.
Proof.
  unfold group_rows. rewrite filter_In, String.eqb_eq. tauto.
Qed.

Lemma isin_In names n : isin names n = true <-> In n names.
Proof.
  unfold isin. rewrite existsb_exists. split.
  - intros (x & Hx & E). apply String.eqb_eq in E. now subst.
  - intros H. exists n. split; [assumption | apply String.eqb_refl].
Qed.

(** ** Facts about [sort_values] *)

Section SortFacts.
Variable A : Type.
Variable le : A -> A -> bool.

Lemma insert_by_perm x l : Permutation (x :: l) (insert_by le x l).
Proof.
  induction l as [| y l IH]; simpl; [apply Permutation_refl |].
  destruct (le x y); [apply Permutation_refl |].
  eapply perm_trans; [apply perm_swap | now apply perm_skip].
Qed.

Lemma sort_by_perm l : Permutation l (sort_by le l).
Proof.
  induction l as [| x l IH]; simpl; [constructor |].
  eapply perm_trans; [apply perm_skip, IH | apply insert_by_perm].
Qed.

Lemma In_sort_by a l : In a (sort_by le l) <-> In a l.
Proof.
  split; apply Permutation_in;
    [apply Permutation_sym |]; apply sort_by_perm.
Qed.

Lemma sort_by_length l : List.length (sort_by le l) = List.length l.
Proof. symmetry. apply Permutation_length, sort_by_perm. Qed.

Hypothesis le_total : forall a b, le a b = true \/ le b a = true.
Hypothesis le_trans : forall a b c, le a b = true -> le b c = true -> le a c = true.

Lemma insert_by_sorted x l :
  StronglySorted (fun a b => le a b = true) l ->
  StronglySorted (fun a b => le a b = true) (insert_by le x l).
Proof using le_total le_trans.
  induction 1 as [| y l Hs IH Hall]; simpl.
  - constructor; constructor.
  - destruct (le x y) eqn:Exy.
    + constructor; [now constructor |].
      constructor; [assumption |].
      rewrite Forall_forall in *. intros z Hz. eapply le_trans; eauto.
    + constructor; [assumption |].
      rewrite Forall_forall in *. intros z Hz.
      apply (Permutation_in _ (Permutation_sym (insert_by_perm x l))) in Hz.
      destruct Hz as [<- | Hz]; [| now apply Hall].
      destruct (le_total x y); congruence.
Qed.

Lemma sort_by_sorted l : StronglySorted (fun a b => le a b = true) (sort_by le l).
Proof using le_total le_trans.
  induction l; simpl; [constructor | now apply insert_by_sorted].
Qed.

(** An ordered frame is left as it is. *)
Lemma sort_by_fixed l :
  StronglySorted (fun a b => le a b = true) l -> sort_by le l = l.
Proof.
  induction 1 as [| y l Hs IH Hall]; simpl; [reflexivity |].
  rewrite IH. destruct l as [| z l]; simpl; [reflexivity |].
  inversion Hall as [| ? ? Hz _]; subst. now rewrite Hz.
Qed.
End SortFacts.

(** ** Facts about [max] and [min] *)

Lemma fold_max_spec xs :
  forall x, let m := fold_left Z.max xs x in
            (m = x \/ In m xs) /\ x <= m /\ (forall y, In y xs -> y <= m).
Proof.
  induction xs as [| a xs IH]; intros x; simpl.
  - repeat split; [now left | lia | tauto].
  - destruct (IH (Z.max x a)) as ([E | Hin] & Hle & Hall).
    + repeat split.
      * rewrite E. destruct (Z.max_spec x a) as [[_ ->] | [_ ->]]; auto.
      * lia.
      * intros y [<- | Hy]; [lia | auto].
    + repeat split; [auto | lia |].
      intros y [<- | Hy]; [lia | auto].
Qed.

Lemma fold_min_spec xs :
  forall x, let m := fold_left Z.min xs x in
            (m = x \/ In m xs) /\ m <= x /\ (forall y, In y xs -> m <= y).
Proof.
  induction xs as [| a xs IH]; intros x; simpl.
  - repeat split; [now left | lia | tauto].
  - destruct (IH (Z.min x a)) as ([E | Hin] & Hle & Hall).
    + repeat split.
      * rewrite E. destruct (Z.min_spec x a) as [[_ ->] | [_ ->]]; auto.
      * lia.
      * intros y [<- | Hy]; [lia | auto].
    + repeat split; [auto | lia |].
      intros y [<- | Hy]; [lia | auto].
Qed.

Lemma smax_spec l m : smax l = Some m <-> is_max m l.
Proof.
  unfold is_max. destruct l as [| x xs]; simpl.
  - split; [discriminate | tauto].
  - destruct (fold_max_spec xs x) as (Hin & Hle & Hall). split.
    + intros [= <-]. split; [destruct Hin; auto |].
      intros y [<- | Hy]; auto.
    + intros (Hm & Hub). f_equal.
      assert (fold_left Z.max xs x <= m) by (apply Hub; destruct Hin; auto).
      assert (m <= fold_left Z.max xs x) by (destruct Hm as [<- | Hm]; auto).
      lia.
Qed.

Lemma smin_spec l m : smin l = Some m <-> is_min m l.
Proof.
  unfold is_min. destruct l as [| x xs]; simpl.
  - split; [discriminate | tauto].
  - destruct (fold_min_spec xs x) as (Hin & Hle & Hall). split.
    + intros [= <-]. split; [destruct Hin; auto |].
      intros y [<- | Hy]; auto.
    + intros (Hm & Hub). f_equal.
      assert (m <= fold_left Z.min xs x) by (apply Hub; destruct Hin; auto).
      assert (fold_left Z.min xs x <= m) by (destruct Hm as [<- | Hm]; auto).
      lia.
Qed.

Lemma smax_None l : smax l = None <-> l = [].
Proof. destruct l; simpl; split; congruence. Qed.

Lemma smin_None l : smin l = None <-> l = [].
Proof. destruct l; simpl; split; congruence. Qed.

(** ** The 64-bit arithmetic *)

(** [wrap] is the value of the type that differs from [z] by a multiple
    of 2^64. *)
Lemma wrap_range dt z :
  match dt with
  | Int64 => - 2 ^ 63 <= wrap dt z < 2 ^ 63
  | UInt64 => 0 <= wrap dt z < 2 ^ 64
  end.
Proof.
  destruct dt; unfold wrap.
  - pose proof (Z.mod_pos_bound (z + 2 ^ 63) (2 ^ 64) ltac:(reflexivity)) as H.
    change (2 ^ 64) with (2 * 2 ^ 63) in *. lia.
  - apply Z.mod_pos_bound. reflexivity.
Qed.

Lemma wrap_congruent dt z : exists k, wrap dt z = z + k * 2 ^ 64.
Proof.
  destruct dt; unfold wrap.
  - exists (- ((z + 2 ^ 63) / 2 ^ 64)).
    pose proof (Z.div_mod (z + 2 ^ 63) (2 ^ 64) ltac:(discriminate)). lia.
  - exists (- (z / 2 ^ 64)).
    pose proof (Z.div_mod z (2 ^ 64) ltac:(discriminate)). lia.
Qed.

Lemma wrap_int64_small z : - 2 ^ 63 <= z < 2 ^ 63 -> wrap Int64 z = z.
Proof.
  intros H. unfold wrap. change (2 ^ 63) with 9223372036854775808 in *.
  change (2 ^ 64) with 18446744073709551616. rewrite Z.mod_small; lia.
Qed.

Lemma wrap_uint64_small z : 0 <= z < 2 ^ 64 -> wrap UInt64 z = z.
Proof. intros H. unfold wrap. now apply Z.mod_small. Qed.

Lemma wrap_zero dt : wrap dt 0 = 0.
Proof. destruct dt; reflexivity. Qed.

Lemma in_int64_iff z : in_int64 z = true <-> - 2 ^ 63 <= z < 2 ^ 63.
Proof. unfold in_int64. rewrite andb_true_iff, Z.leb_le, Z.ltb_lt. tauto. Qed.

Lemma score_dtype_int64 df :
  (forall o, In o df -> - 2 ^ 63 <= score o < 2 ^ 63) -> score_dtype df = Int64.
Proof.
  intros H. unfold score_dtype.
  assert (E : forallb (fun o => in_int64 (score o)) df = true).
  { apply forallb_forall. intros o Ho. now apply in_int64_iff, H. }
  now rewrite E.
Qed.

Lemma score_dtype_uint64 df :
  score_dtype df = UInt64 -> exists o, In o df /\ ~ (- 2 ^ 63 <= score o < 2 ^ 63).
Proof.
  unfold score_dtype.
  destruct (forallb (fun o => in_int64 (score o)) df) eqn:E; [discriminate |]. intros _.
  induction df as [| o df IH]; simpl in E; [discriminate |].
  apply andb_false_iff in E. destruct E as [E | E].
  - exists o. split; [now left |]. rewrite <- in_int64_iff. congruence.
  - destruct (IH E) as (o' & Ho' & Hn). exists o'. split; [now right | assumption].
Qed.

Lemma scores_fit_int64 df : scores_fit df -> score_dtype df = Int64.
Proof.
  intros H. apply score_dtype_int64. intros o Ho. specialize (H o Ho).
  change (2 ^ 62) with 4611686018427387904 in H.
  change (2 ^ 63) with 9223372036854775808. lia.
Qed.

(** With scores that fit, differences are exact. *)
Lemma wrap_fit df a b :
  scores_fit df -> In a df -> In b df ->
  wrap (score_dtype df) (score a - score b) = score a - score b.
Proof.
  intros H Ha Hb. rewrite (scores_fit_int64 df H). apply wrap_int64_small.
  pose proof (H a Ha). pose proof (H b Hb).
  change (2 ^ 62) with 4611686018427387904 in *.
  change (2 ^ 63) with 9223372036854775808. lia.
Qed.

(** ** The rolling max-gain loop *)

Lemma In_observation_series o player df :
  In o (observation_series player df) <-> In o df /\ name o = player.
Proof.
  unfold observation_series. now rewrite In_sort_by, In_group_rows.
Qed.

Lemma observation_series_sorted player df :
  StronglySorted (fun a b => timestamp a <= timestamp b) (observation_series player df).
Proof.
  unfold observation_series.
  assert (H : StronglySorted (fun a b => by_timestamp a b = true)
                             (sort_by by_timestamp (group_rows player df))).
  { apply sort_by_sorted; unfold by_timestamp; intros.
    - apply z_leb_total.
    - eapply z_leb_trans; eauto. }
  induction H as [| a l Hs IH Hall]; constructor; [assumption |].
  eapply Forall_impl; [| exact Hall].
  intros b Hb. now apply Z.leb_le.
Qed.

(** The guard of line 201 and the maximum of line 202, read as a relation. *)
Lemma future_window_max group w row m :
  smax (map score (future_window group row (timestamp row + w))) = Some m
  <-> window_max group w row m.
Proof.
  rewrite smax_spec. unfold is_max, window_max, in_window, future_window.
  split.
  - intros (Hin & Hub). split.
    + apply in_map_iff in Hin. destruct Hin as (o & Ho & Hf).
      apply filter_In in Hf. destruct Hf as (Hf & Hc).
      apply andb_true_iff in Hc. rewrite Z.ltb_lt, Z.leb_le in Hc.
      exists o. tauto.
    + intros o Ho Hw. apply Hub. apply in_map. apply filter_In. split; [assumption |].
      apply andb_true_iff. rewrite Z.ltb_lt, Z.leb_le. assumption.
  - intros ((o & Ho & Hw & Hs) & Hub). split.
    + apply in_map_iff. exists o. split; [assumption |].
      apply filter_In. split; [assumption |].
      apply andb_true_iff. rewrite Z.ltb_lt, Z.leb_le. assumption.
    + intros x Hx. apply in_map_iff in Hx. destruct Hx as (o' & <- & Hf).
      apply filter_In in Hf. destruct Hf as (Hf & Hc).
      apply andb_true_iff in Hc. rewrite Z.ltb_lt, Z.leb_le in Hc. now apply Hub.
Qed.

Lemma window_max_unique group w anchor m m' :
  window_max group w anchor m -> window_max group w anchor m' -> m = m'.
Proof.
  intros ((o & Ho & Hwo & <-) & Hm) ((o' & Ho' & Hwo' & <-) & Hm').
  apply Z.le_antisymm; auto.
Qed.

(** One iteration: [max_gain] does not decrease, changes only to the
    anchor's candidate gain, and bounds it. *)
Lemma rolling_step_spec dt h group acc a :
  let r := rolling_step dt h group acc a in
  acc <= r
  /\ (r = acc \/ exists m, window_max group (timedelta_hours h) a m
                           /\ r = wrap dt (m - score a))
  /\ (forall m, window_max group (timedelta_hours h) a m -> wrap dt (m - score a) <= r).
Proof.
  unfold rolling_step.
  destruct (smax (map score (future_window group a (timestamp a + timedelta_hours h))))
    as [m |] eqn:Em.
  - apply future_window_max in Em.
    destruct (acc <? wrap dt (m - score a)) eqn:Elt;
      [apply Z.ltb_lt in Elt | apply Z.ltb_ge in Elt]; simpl.
    + repeat split; [lia | right; eauto |].
      intros m' Hw. rewrite (window_max_unique _ _ _ _ _ Hw Em). lia.
    + repeat split; [lia | now left |].
      intros m' Hw. rewrite (window_max_unique _ _ _ _ _ Hw Em). lia.
  - simpl. repeat split; [lia | now left |].
    intros m' Hw. apply future_window_max in Hw. congruence.
Qed.

(** The invariant of the inner loop: [max_gain] is its start value or
    the candidate gain of an anchor seen so far, and it bounds both. *)
Lemma rolling_loop_invariant dt h group anchors :
  forall acc,
    let r := fold_left (rolling_step dt h group) anchors acc in
    acc <= r
    /\ (r = acc \/ exists anchor m, In anchor anchors
                                   /\ window_max group (timedelta_hours h) anchor m
                                   /\ r = wrap dt (m - score anchor))
    /\ (forall anchor m, In anchor anchors ->
                         window_max group (timedelta_hours h) anchor m ->
                         wrap dt (m - score anchor) <= r).
Proof.
  induction anchors as [| a anchors IH]; intros acc; simpl.
  - repeat split; [lia | now left | tauto].
  - destruct (rolling_step_spec dt h group acc a) as (Sle & Sor & Sub).
    destruct (IH (rolling_step dt h group acc a)) as (Hle & Hor & Hub).
    repeat split; [lia | |].
    + destruct Hor as [E | (anchor & m & Hin & Hw & E)].
      * destruct Sor as [E' | (m & Hw & E')].
        -- left. congruence.
        -- right. exists a, m.
           split; [now left |]. split; [exact Hw | congruence].
      * right. exists anchor, m. auto.
    + intros anchor m [<- | Hin] Hw; [| eauto].
      specialize (Sub m Hw). lia.
Qed.

Lemma player_max_gain_spec h player df :
  let series := observation_series player df in
  let dt := score_dtype df in
  let r := player_max_gain h player df in
  0 <= r
  /\ (0 < r -> max_wrapped_candidate dt series (timedelta_hours h) r)
  /\ (forall c, wrapped_candidate dt series (timedelta_hours h) c -> c <= r).
Proof.
  intros series dt r.
  destruct (rolling_loop_invariant dt h series series 0) as (Hle & Hor & Hub).
  fold series in Hle, Hor, Hub.
  change (fold_left (rolling_step dt h series) series 0) with r in *.
  assert (Hall : forall c, wrapped_candidate dt series (timedelta_hours h) c -> c <= r).
  { intros c (anchor & m & Hin & Hw & ->). eauto. }
  repeat split; try assumption.
  destruct Hor as [E | (anchor & m & Hin & Hw & E)]; [lia |].
  exists anchor, m. auto.
Qed.

(** With scores that fit, the candidates of the loop are the exact ones. *)
Lemma wrapped_candidate_fit df player w c :
  scores_fit df ->
  (wrapped_candidate (score_dtype df) (observation_series player df) w c
   <-> candidate (observation_series player df) w c).
Proof.
  intros Hfit.
  assert (Hw : forall anchor m,
             In anchor (observation_series player df) ->
             window_max (observation_series player df) w anchor m ->
             wrap (score_dtype df) (m - score anchor) = m - score anchor).
  { intros anchor m Ha ((o & Ho & _ & <-) & _).
    apply In_observation_series in Ha, Ho. apply wrap_fit; tauto. }
  split; intros (anchor & m & Ha & Hm & ->); exists anchor, m;
    (split; [assumption |]); (split; [assumption |]);
    [apply Hw | symmetry; apply Hw]; assumption.
Qed.

Lemma In_biggest_changes h df player v :
  In (player, v) (biggest_changes h df)
  <-> In player (group_keys df) /\ v = player_max_gain h player df /\ 0 < v.
Proof.
  unfold biggest_changes. rewrite in_flat_map. split.
  - intros (p & Hp & Hin).
    destruct (0 <? player_max_gain h p df) eqn:E; [| destruct Hin].
    destruct Hin as [[= <- <-] | []]. apply Z.ltb_lt in E. auto.
  - intros (Hp & -> & Hpos). exists player. split; [assumption |].
    apply Z.ltb_lt in Hpos. rewrite Hpos. now left.
Qed.

(** A record is the positive maximum of the loop's candidates. *)
Lemma In_biggest_changes_max h df player v :
  In (player, v) (biggest_changes h df)
  <-> max_wrapped_candidate (score_dtype df) (observation_series player df)
                            (timedelta_hours h) v
      /\ 0 < v.
Proof.
  destruct (player_max_gain_spec h player df) as (Hnn & Hmax & Hub).
  rewrite In_biggest_changes. split.
  - intros (_ & -> & Hpos). auto.
  - intros ((Hc & Hall) & Hpos).
    assert (Hle : v <= player_max_gain h player df) by auto.
    assert (Hge : player_max_gain h player df <= v).
    { apply Hall. apply Hmax. lia. }
    destruct Hc as (anchor & m & Hin & _).
    apply In_observation_series in Hin.
    repeat split; [| lia | assumption].
    apply In_group_keys. exists anchor. assumption.
Qed.

(** C1 (as the code has it). A player is reported by the rolling
    max-gain loop with value [v] exactly when [v] is the maximum, over
    the anchors of the player's series (ascending by timestamp), of the
    highest score in the window [(t_i, t_i + window]] minus the
    anchor's score, the difference taken in the 64-bit type of the
    score column, and that maximum is strictly positive.  A series of
    at most one observation gives no record.  When the scores fit
    (every difference of two scores is exact) the value is the exact
    maximum of the differences, and a series whose scores strictly
    decrease in time gives no record. *)
Theorem rolling_max_gain_detector h df player :
  let series := observation_series player df in
  let w := timedelta_hours h in
  StronglySorted (fun a b => timestamp a <= timestamp b) series
  /\ (forall v, In (player, v) (biggest_changes h df)
                <-> max_wrapped_candidate (score_dtype df) series w v /\ 0 < v)
  /\ ((List.length series <= 1)%nat ->
      forall v, ~ In (player, v) (biggest_changes h df))
  /\ (scores_fit df ->
      (forall v, In (player, v) (biggest_changes h df)
                 <-> max_candidate series w v /\ 0 < v)
      /\ ((forall a b, In a series -> In b series ->
                       timestamp a < timestamp b -> score b < score a) ->
          forall v, ~ In (player, v) (biggest_changes h df))).
Proof.
  intros series w.
  split; [apply observation_series_sorted |].
  split; [intros v; apply In_biggest_changes_max |]. split.
  - intros Hlen v Hv. apply In_biggest_changes_max in Hv.
    destruct Hv as (((anchor & m & Hin & ((o & Ho & (Hlt & _) & _) & _) & _) & _) & _).
    fold series in Hin, Ho.
    destruct series as [| x [| y rest]]; simpl in *; try lia.
    destruct Hin as [<- | []]. destruct Ho as [<- | []]. lia.
  - intros Hfit.
    assert (Hiff : forall v, In (player, v) (biggest_changes h df)
                             <-> max_candidate series w v /\ 0 < v).
    { intros v. rewrite In_biggest_changes_max.
      unfold max_wrapped_candidate, max_candidate.
      split; intros ((Hc & Hall) & Hpos).
      - split; [split |]; [| | assumption].
        + apply (proj1 (wrapped_candidate_fit df player w v Hfit)). exact Hc.
        + intros c Hcc. apply Hall.
          apply (proj2 (wrapped_candidate_fit df player w c Hfit)). exact Hcc.
      - split; [split |]; [| | assumption].
        + apply (proj2 (wrapped_candidate_fit df player w v Hfit)). exact Hc.
        + intros c Hcc. apply Hall.
          apply (proj1 (wrapped_candidate_fit df player w c Hfit)). exact Hcc. }
    split; [exact Hiff |].
    intros Hdec v Hv. apply Hiff in Hv.
    destruct Hv as (((anchor & m & Hin & ((o & Ho & (Hlt & _) & Hs) & _) & ->) & _) & Hpos).
    specialize (Hdec anchor o Hin Ho Hlt). lia.
Qed.

(** C1 as stated fails where the difference does not fit: from
    -2^63 to 2^63 - 1 within the window the exact gain is 2^64 - 1,
    the loop computes -1 and records nothing. *)
Lemma rolling_gain_wraps_around :
  let df := sample_extremes in
  let series := observation_series "A" df in
  ~ (forall v, In ("A"%string, v) (biggest_changes 2 df)
               <-> max_candidate series (timedelta_hours 2) v /\ 0 < v).
Proof.
  intros df series H.
  assert (Hmax : max_candidate series (timedelta_hours 2) 18446744073709551615).
  { assert (Hwm : window_max series (timedelta_hours 2)
                             (mkObs "A" 0 (-9223372036854775808)) 9223372036854775807).
    { split.
      - exists (mkObs "A" 3600000000 9223372036854775807).
        split; [simpl; auto |]. split; [| reflexivity].
        unfold in_window, timedelta_hours. simpl. lia.
      - intros o [<- | [<- | []]] _; simpl; lia. }
    split.
    - exists (mkObs "A" 0 (-9223372036854775808)), 9223372036854775807.
      split; [simpl; auto |]. split; [exact Hwm | reflexivity].
    - intros c (anchor & m & [<- | [<- | []]] & Hw & ->).
      + rewrite (window_max_unique _ _ _ _ _ Hw Hwm). simpl. lia.
      + destruct Hw as ((o & [<- | [<- | []]] & (Hlt & _) & _) & _); simpl in Hlt; lia. }
  assert (Hin : In ("A"%string, 18446744073709551615) (biggest_changes 2 df)).
  { apply H. split; [exact Hmax | lia]. }
  vm_compute in Hin. exact Hin.
Qed.

(** ** [groupby] aggregates *)

Lemma group_rows_nonempty n df : In n (group_keys df) -> group_rows n df <> [].
Proof.
  intros H. apply In_group_keys in H. destruct H as (o & Ho & Hn).
  intros E. assert (Hin : In o (group_rows n df)) by now apply In_group_rows.
  rewrite E in Hin. exact Hin.
Qed.

Lemma In_groupby_score agg df n v :
  In (n, v) (groupby_score agg df)
  <-> In n (group_keys df) /\ agg (map score (group_rows n df)) = Some v.
Proof.
  unfold groupby_score. rewrite in_flat_map. split.
  - intros (k & Hk & Hin).
    destruct (agg (map score (group_rows k df))) as [x |] eqn:E; [| destruct Hin].
    destruct Hin as [[= <- <-] | []]. auto.
  - intros (Hk & E). exists n. split; [assumption |]. rewrite E. now left.
Qed.

Lemma item_at_flat_map (f : string -> option Z) ks n :
  item_at n (flat_map (fun k => match f k with Some v => [(k, v)] | None => [] end) ks)
  = if isin ks n then f n else None.
Proof.
  induction ks as [| k ks IH]; simpl; [reflexivity |].
  rewrite (String.eqb_sym n k).
  destruct (f k) as [v |] eqn:Ek; simpl.
  - destruct (String.eqb k n) eqn:E; simpl; [| exact IH].
    apply String.eqb_eq in E. now subst.
  - rewrite IH. destruct (String.eqb k n) eqn:E; simpl; [| reflexivity].
    apply String.eqb_eq in E. subst. rewrite Ek. now destruct (isin ks n).
Qed.

Lemma item_at_groupby_score agg df n :
  In n (group_keys df) ->
  item_at n (groupby_score agg df) = agg (map score (group_rows n df)).
Proof.
  intros H. unfold groupby_score. rewrite item_at_flat_map.
  apply isin_In in H. now rewrite H.
Qed.

Lemma groupby_score_keys agg df :
  (forall l, agg l = None -> l = []) ->
  map fst (groupby_score agg df) = group_keys df.
Proof.
  intros Hagg. unfold groupby_score.
  assert (H : forall ks, (forall k, In k ks -> In k (group_keys df)) ->
                         map fst (flat_map (fun n => match agg (map score (group_rows n df)) with
                                                     | Some v => [(n, v)]
                                                     | None => []
                                                     end) ks) = ks).
  { induction ks as [| k ks IH]; intros Hks; simpl; [reflexivity |].
    destruct (agg (map score (group_rows k df))) as [v |] eqn:E; simpl.
    - f_equal. apply IH. intros; apply Hks; now right.
    - exfalso. apply Hagg in E. apply map_eq_nil in E.
      apply (group_rows_nonempty k df); [apply Hks; now left | assumption]. }
  apply H. auto.
Qed.

(** ** [get_gain_leaderboard] *)

Lemma In_time_filter now tw df o :
  In o (time_filter now tw df)
  <-> In o df /\ match tw with
                 | Some d => d = 0 \/ now - d <= timestamp o
                 | None => True
                 end.
Proof.
  unfold time_filter. destruct tw as [d |]; [| tauto].
  destruct (d =? 0) eqn:E; [apply Z.eqb_eq in E | apply Z.eqb_neq in E].
  - tauto.
  - rewrite filter_In, Z.leb_le. tauto.
Qed.

Lemma In_name_filter fn df o :
  In o (name_filter fn df) <-> In o df /\ (fn = [] \/ In (name o) fn).
Proof.
  unfold name_filter. destruct fn as [| n fn].
  - split; [auto | tauto].
  - rewrite filter_In, isin_In. split.
    + intros (H1 & H2). auto.
    + intros (H1 & [H2 | H2]); [discriminate | auto].
Qed.

Lemma In_value_counts df n c :
  In (n, c) (value_counts df)
  <-> In n (group_keys df) /\ c = Z.of_nat (List.length (group_rows n df)).
Proof.
  unfold value_counts. rewrite In_sort_by, in_map_iff. split.
  - intros (k & [= <- <-] & Hk). auto.
  - intros (Hk & ->). exists n. auto.
Qed.

(** Line 33 keeps the names that occur at least twice. *)
Lemma In_valid_names df n :
  In n (valid_names df) <-> (2 <= List.length (group_rows n df))%nat.
Proof.
  unfold valid_names. rewrite in_map_iff. split.
  - intros ((k, c) & <- & Hf). apply filter_In in Hf. destruct Hf as (Hin & Hc).
    apply In_value_counts in Hin. destruct Hin as (_ & ->).
    simpl in *. apply Z.ltb_lt in Hc. lia.
  - intros Hlen. exists (n, Z.of_nat (List.length (group_rows n df))).
    split; [reflexivity |]. apply filter_In. split.
    + apply In_value_counts. split; [| reflexivity].
      destruct (group_rows n df) as [| o rest] eqn:E; [simpl in Hlen; lia |].
      assert (Ho : In o (group_rows n df)) by (rewrite E; now left).
      apply In_group_rows in Ho. apply In_group_keys. exists o. exact Ho.
    + simpl. apply Z.ltb_lt. lia.
Qed.

Lemma In_df_filtered now tw fn df o :
  In o (df_filtered now tw fn df)
  <-> In o (window_rows now tw fn df)
      /\ (2 <= List.length (group_rows (name o) (window_rows now tw fn df)))%nat.
Proof.
  unfold df_filtered. now rewrite filter_In, isin_In, In_valid_names.
Qed.

Lemma filter_filter_same {A : Type} (f g : A -> bool) l :
  (forall x, In x l -> f x = true -> g x = true) ->
  filter f (filter g l) = filter f l.
Proof.
  induction l as [| x l IH]; intros H; simpl; [reflexivity |].
  destruct (g x) eqn:Eg; simpl.
  - rewrite IH; [reflexivity |]. intros; apply H; [now right | assumption].
  - destruct (f x) eqn:Ef.
    + rewrite H in Eg; [discriminate | now left | assumption].
    + apply IH. intros; apply H; [now right | assumption].
Qed.

(** A surviving player keeps all the rows the window left him. *)
Lemma group_rows_df_filtered now tw fn df p :
  (2 <= List.length (group_rows p (window_rows now tw fn df)))%nat ->
  group_rows p (df_filtered now tw fn df) = group_rows p (window_rows now tw fn df).
Proof.
  intros Hlen. unfold df_filtered, group_rows.
  apply filter_filter_same. intros o _ E.
  apply String.eqb_eq in E. subst. apply isin_In, In_valid_names. exact Hlen.
Qed.

Lemma gain_rows now tw fn df :
  rows (get_gain_leaderboard now tw fn df)
  = sort_by by_value_desc
            (s_items (series_sub (score_dtype df)
                                 (groupby_series smax (df_filtered now tw fn df))
                                 (groupby_series smin (df_filtered now tw fn df)))).
Proof.
  unfold get_gain_leaderboard.
  destruct (df_filtered now tw fn df); reflexivity.
Qed.

Lemma In_gain_items dt dff p g :
  In (p, g) (s_items (series_sub dt (groupby_series smax dff) (groupby_series smin dff)))
  <-> exists mx mn, is_max mx (map score (group_rows p dff))
                    /\ is_min mn (map score (group_rows p dff))
                    /\ g = wrap dt (mx - mn).
Proof.
  simpl. rewrite in_flat_map. split.
  - intros ((k, mx) & Hk & Hin). simpl in Hin.
    apply In_groupby_score in Hk. destruct Hk as (Hkey & Hmx).
    rewrite (item_at_groupby_score smin dff k Hkey) in Hin.
    destruct (smin (map score (group_rows k dff))) as [mn |] eqn:Emn; [| destruct Hin].
    destruct Hin as [[= <- <-] | []].
    exists mx, mn. rewrite <- smax_spec, <- smin_spec. auto.
  - intros (mx & mn & Hmx & Hmn & ->).
    apply smax_spec in Hmx. apply smin_spec in Hmn.
    assert (Hkey : In p (group_keys dff)).
    { destruct (group_rows p dff) as [| o rest] eqn:E; [discriminate |].
      assert (Ho : In o (group_rows p dff)) by (rewrite E; now left).
      apply In_group_rows in Ho. apply In_group_keys. eauto. }
    exists (p, mx). split; [now apply In_groupby_score |].
    simpl. rewrite (item_at_groupby_score smin dff p Hkey), Hmn. now left.
Qed.

Lemma gain_items_keys dt dff :
  map fst (s_items (series_sub dt (groupby_series smax dff) (groupby_series smin dff)))
  = group_keys dff.
Proof.
  simpl.
  assert (H : forall items,
             (forall kv, In kv items -> In (fst kv) (group_keys dff)) ->
             map fst (flat_map (fun kv => match item_at (fst kv) (groupby_score smin dff) with
                                          | Some w => [(fst kv, wrap dt (snd kv - w))]
                                          | None => []
                                          end) items) = map fst items).
  { induction items as [| kv items IH]; intros Hk; simpl; [reflexivity |].
    rewrite (item_at_groupby_score smin dff (fst kv)) by (apply Hk; now left).
    destruct (smin (map score (group_rows (fst kv) dff))) as [mn |] eqn:E; simpl.
    - f_equal. apply IH. intros; apply Hk; now right.
    - exfalso. apply smin_None, map_eq_nil in E.
      apply (group_rows_nonempty (fst kv) dff); [apply Hk; now left | assumption]. }
  rewrite H.
  - apply groupby_score_keys. intros l. apply smax_None.
  - intros (k, v) Hin. apply In_groupby_score in Hin. tauto.
Qed.

Lemma by_value_desc_total (a b : string * Z) :
  by_value_desc a b = true \/ by_value_desc b a = true.
Proof. unfold by_value_desc. rewrite !Z.leb_le. lia. Qed.

Lemma by_value_desc_trans (a b c : string * Z) :
  by_value_desc a b = true -> by_value_desc b c = true -> by_value_desc a c = true.
Proof. unfold by_value_desc. rewrite !Z.leb_le. lia. Qed.

Lemma sort_values_desc_sorted (items : list (string * Z)) :
  StronglySorted (fun a b => snd b <= snd a) (sort_by by_value_desc items).
Proof.
  assert (H := sort_by_sorted _ by_value_desc by_value_desc_total by_value_desc_trans items).
  induction H as [| a l Hs IH Hall]; constructor; [assumption |].
  eapply Forall_impl; [| exact Hall].
  intros b Hb. now apply Z.leb_le.
Qed.

Lemma is_max_min_le mx mn l : is_max mx l -> is_min mn l -> mn <= mx.
Proof. intros (Hin & _) (_ & Hlb). auto. Qed.

Lemma is_max_unique m m' l : is_max m l -> is_max m' l -> m = m'.
Proof. intros (H1 & H2) (H3 & H4). apply Z.le_antisymm; auto. Qed.

Lemma is_min_unique m m' l : is_min m l -> is_min m' l -> m = m'.
Proof. intros (H1 & H2) (H3 & H4). apply Z.le_antisymm; auto. Qed.

Lemma window_rows_incl now tw fn df o : In o (window_rows now tw fn df) -> In o df.
Proof.
  unfold window_rows. intros H. apply In_name_filter in H. destruct H as (H & _).
  apply In_time_filter in H. tauto.
Qed.

Lemma score_dtype_int64_range df o :
  score_dtype df = Int64 -> In o df -> - 2 ^ 63 <= score o < 2 ^ 63.
Proof.
  unfold score_dtype.
  destruct (forallb (fun o => in_int64 (score o)) df) eqn:E; [| discriminate].
  intros _ Ho. rewrite forallb_forall in E. now apply in_int64_iff, E.
Qed.

(** The rows of the returned table. *)
Lemma In_gain_rows now tw fn df p g :
  let w := window_rows now tw fn df in
  In (p, g) (rows (get_gain_leaderboard now tw fn df))
  <-> (2 <= List.length (group_rows p w))%nat
      /\ exists mx mn, is_max mx (map score (group_rows p w))
                       /\ is_min mn (map score (group_rows p w))
                       /\ g = wrap (score_dtype df) (mx - mn).
Proof.
  intros w. rewrite gain_rows, In_sort_by, In_gain_items. split.
  - intros (mx & mn & Hmx & Hmn & ->).
    assert (Hlen : (2 <= List.length (group_rows p w))%nat).
    { destruct Hmx as (Hin & _). apply in_map_iff in Hin.
      destruct Hin as (o & _ & Ho). apply In_group_rows in Ho.
      destruct Ho as (Ho & <-). apply In_df_filtered in Ho. tauto. }
    split; [assumption |].
    rewrite (group_rows_df_filtered now tw fn df p Hlen) in Hmx, Hmn.
    exists mx, mn. auto.
  - intros (Hlen & mx & mn & Hmx & Hmn & ->).
    rewrite (group_rows_df_filtered now tw fn df p Hlen).
    exists mx, mn. auto.
Qed.

(** When the difference fits the column's type the gain is exact. *)
Lemma gain_exact now tw fn df p mx mn :
  is_max mx (map score (group_rows p (window_rows now tw fn df))) ->
  is_min mn (map score (group_rows p (window_rows now tw fn df))) ->
  (score_dtype df = Int64 /\ mx - mn < 2 ^ 63)
  \/ (forall o, In o df -> 0 <= score o < 2 ^ 64) ->
  wrap (score_dtype df) (mx - mn) = mx - mn /\ 0 <= mx - mn.
Proof.
  intros Hmx Hmn Hcond. pose proof (is_max_min_le _ _ _ Hmx Hmn) as Hle.
  split; [| lia].
  assert (Hrow : forall x, In x (map score (group_rows p (window_rows now tw fn df))) ->
                           exists o, In o df /\ score o = x).
  { intros x Hx. apply in_map_iff in Hx. destruct Hx as (o & <- & Ho).
    apply In_group_rows in Ho. destruct Ho as (Ho & _).
    apply window_rows_incl in Ho. eauto. }
  destruct (Hrow mx (proj1 Hmx)) as (o1 & Ho1 & E1).
  destruct (Hrow mn (proj1 Hmn)) as (o2 & Ho2 & E2).
  destruct Hcond as [(Hdt & Hlt) | Hnn].
  - rewrite Hdt. apply wrap_int64_small.
    change (2 ^ 63) with 9223372036854775808 in *. lia.
  - pose proof (Hnn o1 Ho1). pose proof (Hnn o2 Ho2).
    destruct (score_dtype df) eqn:Hdt.
    + pose proof (score_dtype_int64_range df o1 Hdt Ho1).
      apply wrap_int64_small. change (2 ^ 63) with 9223372036854775808 in *. lia.
    + apply wrap_uint64_small. change (2 ^ 64) with 18446744073709551616 in *. lia.
Qed.

(** C2 (as the code has it). Every row of the table
    [get_gain_leaderboard] returns belongs to a player with at least
    two rows in the window, and its gain is the highest minus the
    lowest score among those rows, whatever their order in time, the
    difference taken in the 64-bit type of the score column; every
    such player has a row.  When the difference fits that type (it is
    below 2^63 in an [int64] column; always, when no score is
    negative) the gain is exactly the highest minus the lowest score
    and is not negative; a player whose score is constant has a row
    with gain 0; and the rows come in descending order of gain. *)
Theorem gain_ranker now tw fn df :
  let w := window_rows now tw fn df in
  let out := rows (get_gain_leaderboard now tw fn df) in
  (forall p g,
      In (p, g) out
      <-> (2 <= List.length (group_rows p w))%nat
          /\ exists mx mn, is_max mx (map score (group_rows p w))
                           /\ is_min mn (map score (group_rows p w))
                           /\ g = wrap (score_dtype df) (mx - mn))
  /\ (forall p g mx mn,
         In (p, g) out ->
         is_max mx (map score (group_rows p w)) ->
         is_min mn (map score (group_rows p w)) ->
         (score_dtype df = Int64 /\ mx - mn < 2 ^ 63)
         \/ (forall o, In o df -> 0 <= score o < 2 ^ 64) ->
         g = mx - mn /\ 0 <= g)
  /\ (forall p c, (2 <= List.length (group_rows p w))%nat ->
                  (forall o, In o (group_rows p w) -> score o = c) ->
                  In (p, 0) out)
  /\ NoDup (map fst out)
  /\ StronglySorted (fun a b => snd b <= snd a) out.
Proof.
  intros w out.
  assert (Hiff : forall p g,
             In (p, g) out
             <-> (2 <= List.length (group_rows p w))%nat
                 /\ exists mx mn, is_max mx (map score (group_rows p w))
                                  /\ is_min mn (map score (group_rows p w))
                                  /\ g = wrap (score_dtype df) (mx - mn)).
  { intros p g. apply In_gain_rows. }
  split; [exact Hiff |]. split; [| split; [| split]].
  - intros p g mx mn Hin Hmx Hmn Hcond. apply Hiff in Hin.
    destruct Hin as (_ & mx' & mn' & Hmx' & Hmn' & ->).
    rewrite (is_max_unique _ _ _ Hmx' Hmx), (is_min_unique _ _ _ Hmn' Hmn).
    destruct (gain_exact now tw fn df p mx mn Hmx Hmn Hcond) as (E & Hnn).
    rewrite E. auto.
  - intros p c Hlen Hconst. apply Hiff. split; [assumption |].
    exists c, c. split; [| split].
    + split.
      * destruct (group_rows p w) as [| o rest] eqn:E; [simpl in Hlen; lia |].
        simpl. left. apply Hconst. now left.
      * intros x Hx. apply in_map_iff in Hx. destruct Hx as (o & <- & Ho).
        rewrite (Hconst o Ho). lia.
    + split.
      * destruct (group_rows p w) as [| o rest] eqn:E; [simpl in Hlen; lia |].
        simpl. left. apply Hconst. now left.
      * intros x Hx. apply in_map_iff in Hx. destruct Hx as (o & <- & Ho).
        rewrite (Hconst o Ho). lia.
    + rewrite Z.sub_diag. symmetry. apply wrap_zero.
  - unfold out. rewrite gain_rows.
    eapply Permutation_NoDup.
    + apply Permutation_map. apply sort_by_perm.
    + rewrite gain_items_keys. apply group_keys_NoDup.
  - unfold out. rewrite gain_rows. apply sort_values_desc_sorted.
Qed.

(** C2 as stated fails where the difference does not fit: with the
    scores -2^63 and 2^63 - 1 the table gives the player the gain -1. *)
Lemma gain_wraps_around :
  let out := rows (get_gain_leaderboard 0 None [] sample_extremes) in
  let scores := map score (group_rows "A" (window_rows 0 None [] sample_extremes)) in
  ~ (forall p g, In (p, g) out ->
                 0 <= g
                 /\ exists mx mn, is_max mx scores /\ is_min mn scores /\ g = mx - mn).
Proof.
  intros out scores H.
  assert (Hin : In ("A"%string, -1) out) by (vm_compute; auto).
  apply H in Hin. lia.
Qed.

(** C6. A player with fewer than two rows left by the time test and the
    allow-list has no row in the frame that reaches the [groupby], and
    no row in the returned table. *)
Theorem window_filter_drops_single_observations now tw fn df p :
  (List.length (group_rows p (window_rows now tw fn df)) < 2)%nat ->
  (forall o, In o (df_filtered now tw fn df) -> name o <> p)
  /\ (forall g, ~ In (p, g) (rows (get_gain_leaderboard now tw fn df))).
Proof.
  intros Hlen. split.
  - intros o Ho E. apply In_df_filtered in Ho. subst. lia.
  - intros g Hin. apply In_gain_rows in Hin. lia.
Qed.

Lemma window_filter_drops_single_observations_witness :
  let df := [mkObs "A" 0 10; mkObs "A" 5 15; mkObs "B" 3 7] in
  (forall o, In o (df_filtered 10 (Some 20) [] df) -> name o <> "B"%string)
  /\ (forall g, ~ In ("B"%string, g) (rows (get_gain_leaderboard 10 (Some 20) [] df))).
Proof.
  intros df.
  apply (window_filter_drops_single_observations 10 (Some 20) [] df "B").
  vm_compute. lia.
Defined.

(** C10. With a duration other than zero the time test of line 25
    keeps exactly the rows whose timestamp is not before the reference
    instant less the duration: the lower bound is enforced and nothing
    else is tested.  So, with a positive duration, a row whose
    timestamp lies after the reference instant passes; if the
    allow-list admits its player it is a row of the window, and if
    that player has two rows there it reaches the [groupby] and lies
    between the minimum and the maximum that make the player's gain. *)
Theorem window_filter_lower_bound_only now d fn df :
  d <> 0 ->
  (forall o, In o (time_filter now (Some d) df) <-> In o df /\ now - d <= timestamp o)
  /\ (0 < d ->
      forall o, In o df -> now < timestamp o ->
        In o (time_filter now (Some d) df)
        /\ ((fn = [] \/ In (name o) fn) ->
            In o (window_rows now (Some d) fn df)
            /\ ((2 <= List.length (group_rows (name o) (window_rows now (Some d) fn df)))%nat ->
                In o (df_filtered now (Some d) fn df)
                /\ exists mx mn,
                    In (name o, wrap (score_dtype df) (mx - mn))
                       (rows (get_gain_leaderboard now (Some d) fn df))
                    /\ mn <= score o <= mx))).
Proof.
  intros Hd0.
  assert (Hiff : forall o, In o (time_filter now (Some d) df)
                           <-> In o df /\ now - d <= timestamp o).
  { intros o. rewrite In_time_filter. split.
    - intros (Ho & [E | Hle]); [contradiction | auto].
    - intros (Ho & Hle). auto. }
  split; [exact Hiff |].
  intros Hd o Ho Hlt.
  assert (Ht : In o (time_filter now (Some d) df)) by (apply Hiff; split; [assumption | lia]).
  split; [exact Ht |]. intros Hfn.
  assert (Hw : In o (window_rows now (Some d) fn df)).
  { unfold window_rows. apply In_name_filter. auto. }
  split; [exact Hw |]. intros Hlen.
  split; [apply In_df_filtered; auto |].
  destruct (smax (map score (group_rows (name o) (window_rows now (Some d) fn df))))
    as [mx |] eqn:Emx.
  2:{ apply smax_None, map_eq_nil in Emx. rewrite Emx in Hlen. simpl in Hlen. lia. }
  destruct (smin (map score (group_rows (name o) (window_rows now (Some d) fn df))))
    as [mn |] eqn:Emn.
  2:{ apply smin_None, map_eq_nil in Emn. rewrite Emn in Hlen. simpl in Hlen. lia. }
  apply smax_spec in Emx. apply smin_spec in Emn.
  exists mx, mn. split.
  - apply In_gain_rows. split; [assumption |].
    exists mx, mn. auto.
  - assert (Hs : In (score o) (map score (group_rows (name o) (window_rows now (Some d) fn df)))).
    { apply in_map. apply In_group_rows. auto. }
    split; [apply Emn | apply Emx]; exact Hs.
Qed.

Lemma window_filter_lower_bound_only_witness :
  let df := [mkObs "A" 80 3; mkObs "A" 95 10; mkObs "A" 250 40] in
  (forall o, In o (time_filter 100 (Some 10) df) <-> In o df /\ 100 - 10 <= timestamp o)
  /\ ~ In (mkObs "A" 80 3) (time_filter 100 (Some 10) df)
  /\ In (mkObs "A" 250 40) (time_filter 100 (Some 10) df).
Proof.
  intros df.
  destruct (window_filter_lower_bound_only 100 10 [] df ltac:(lia)) as (Hiff & Hlater).
  split; [exact Hiff |]. split.
  - intros H. apply Hiff in H. simpl in H. lia.
  - assert (H1 : In (mkObs "A" 250 40) df) by (simpl; auto).
    assert (H2 : 100 < timestamp (mkObs "A" 250 40)) by (simpl; lia).
    exact (proj1 (Hlater ltac:(lia) _ H1 H2)).
Defined.

(** The returned table names its value column [score] when a player
    qualifies, and [Gain] when none does: the difference of two series
    named [score] is named [score], so [reset_index] never produces a
    column [0] for line 42 to rename. *)
Lemma gain_table_columns now tw fn df :
  columns (get_gain_leaderboard now tw fn df)
  = match df_filtered now tw fn df with
    | [] => [Lstr "name"; Lstr "Gain"]
    | _ :: _ => [Lstr "name"; Lstr "score"]
    end.
Proof.
  unfold get_gain_leaderboard.
  destruct (df_filtered now tw fn df); reflexivity.
Qed.

(** C9. The value column of the non-empty result is not under the
    label of the empty one: with two rows of one player the columns are
    [name] and [score], with no row they are [name] and [Gain]. *)
Theorem gain_column_label_differs :
  columns (get_gain_leaderboard 0 None [] [mkObs "A" 0 10; mkObs "A" 1 15])
  = [Lstr "name"; Lstr "score"]
  /\ rows (get_gain_leaderboard 0 None [] [mkObs "A" 0 10; mkObs "A" 1 15])
     = [("A"%string, 5)]
  /\ columns (get_gain_leaderboard 0 None [] []) = [Lstr "name"; Lstr "Gain"].
Proof. repeat split. Qed.

(** ** The seasonal leaderboard *)

Lemma filter_strongly_sorted {A : Type} (R : A -> A -> Prop) (f : A -> bool) l :
  StronglySorted R l -> StronglySorted R (filter f l).
Proof.
  induction 1 as [| x l Hs IH Hall]; simpl; [constructor |].
  destruct (f x); [| assumption].
  constructor; [assumption |].
  rewrite Forall_forall in *. intros y Hy. apply filter_In in Hy. apply Hall, Hy.
Qed.

(** Selecting rows by name selects the groups. *)
Lemma group_keys_filter (f : string -> bool) df :
  group_keys (filter (fun o => f (name o)) df) = filter f (group_keys df).
Proof.
  apply (sorted_ext _ _ String.leb_total String.leb_antisym string_leb_trans).
  - apply group_keys_sorted.
  - apply filter_strongly_sorted, group_keys_sorted.
  - intros n. rewrite In_group_keys, filter_In, In_group_keys. split.
    + intros (o & Ho & <-). apply filter_In in Ho. destruct Ho as (Ho & Hf). eauto.
    + intros ((o & Ho & <-) & Hf). exists o. split; [| reflexivity].
      apply filter_In. auto.
Qed.

Lemma group_rows_filter (f : string -> bool) df p :
  f p = true -> group_rows p (filter (fun o => f (name o)) df) = group_rows p df.
Proof.
  intros Hf. unfold group_rows. apply filter_filter_same.
  intros o _ E. apply String.eqb_eq in E. now subst.
Qed.

Lemma insert_rank_ranks rs :
  map fst (insert_rank rs) = map Z.of_nat (seq 1 (List.length rs)).
Proof.
  unfold insert_rank.
  assert (H : forall (l : list max_row) (ks : list Z),
             List.length ks = List.length l -> map fst (combine ks l) = ks).
  { induction l as [| x l IH]; intros [| k ks] E; simpl in *; try discriminate; auto.
    f_equal. apply IH. congruence. }
  rewrite H by now rewrite length_map, length_seq.
  rewrite <- seq_shift, map_map. apply map_ext. intros i. lia.
Qed.

Lemma insert_rank_rows rs : map snd (insert_rank rs) = rs.
Proof.
  unfold insert_rank.
  assert (H : forall (l : list max_row) (ks : list Z),
             List.length ks = List.length l -> map snd (combine ks l) = l).
  { induction l as [| x l IH]; intros [| k ks] E; simpl in *; try discriminate; auto.
    f_equal. apply IH. congruence. }
  apply H. now rewrite length_map, length_seq.
Qed.

Lemma by_score_desc_total a b : by_score_desc a b = true \/ by_score_desc b a = true.
Proof. unfold by_score_desc. rewrite !Z.leb_le. lia. Qed.

Lemma by_score_desc_trans a b c :
  by_score_desc a b = true -> by_score_desc b c = true -> by_score_desc a c = true.
Proof. unfold by_score_desc. rewrite !Z.leb_le. lia. Qed.

Lemma max_scores_sorted_desc selected df :
  StronglySorted (fun a b => mr_score b <= mr_score a) (max_scores_sorted selected df).
Proof.
  unfold max_scores_sorted.
  match goal with |- StronglySorted _ (sort_by _ ?l) =>
    assert (H := sort_by_sorted _ by_score_desc by_score_desc_total by_score_desc_trans l)
  end.
  induction H as [| a l Hs IH Hall]; constructor; [assumption |].
  eapply Forall_impl; [| exact Hall].
  intros b Hb. now apply Z.leb_le.
Qed.

Lemma In_max_scores_sorted selected df m :
  In m (max_scores_sorted selected df)
  <-> In (mr_name m) selected
      /\ (exists mx, is_max mx (map score (group_rows (mr_name m) df))
                     /\ mr_score m = wrap Int64 mx)
      /\ mr_score_formatted m = format_thousands (mr_score m).
Proof.
  unfold max_scores_sorted. rewrite In_sort_by, in_map_iff. split.
  - intros ((k, v) & <- & Hin). simpl.
    apply In_groupby_score in Hin. destruct Hin as (Hk & Hv).
    rewrite group_keys_filter in Hk. apply filter_In in Hk. destruct Hk as (Hk & Hsel).
    rewrite (group_rows_filter (isin selected) df k Hsel) in Hv.
    apply smax_spec in Hv. apply isin_In in Hsel. eauto.
  - destruct m as [n v f]. simpl. intros (Hsel & (mx & Hmax & ->) & ->).
    exists (n, mx). split; [reflexivity |].
    apply isin_In in Hsel.
    apply In_groupby_score. rewrite group_keys_filter, filter_In.
    rewrite (group_rows_filter (isin selected) df n Hsel).
    split; [| now apply smax_spec]. split; [| assumption].
    destruct Hmax as (Hin & _). apply in_map_iff in Hin.
    destruct Hin as (o & _ & Ho). apply In_group_rows in Ho.
    apply In_group_keys. exists o. exact Ho.
Qed.

Lemma max_scores_sorted_names selected df :
  Permutation (map mr_name (max_scores_sorted selected df))
              (filter (isin selected) (group_keys df)).
Proof.
  unfold max_scores_sorted.
  eapply perm_trans; [apply Permutation_map, Permutation_sym, sort_by_perm |].
  rewrite map_map. simpl.
  change (fun x : string * Z => fst x) with (@fst string Z).
  rewrite groupby_score_keys by (intros l; apply smax_None).
  now rewrite group_keys_filter.
Qed.

(** C5 (as the code has it). The seasonal leaderboard has one entry
    for each selected name with at least one row of [df], and for no
    other name; the entry carries the player's highest score over all
    rows as line 237 casts it to [int64] (the highest score itself when
    the score column is [int64]; wrapped around when the column is
    [uint64] and the score does not fit); before the [score] column is
    dropped the entries stand in descending order of that value; and
    the ranks, read down the table, are 1, 2, ..., N with N the number
    of distinct selected names that occur in [df]. *)
Theorem seasonal_snapshot selected df :
  let ranked := insert_rank (max_scores_sorted selected df) in
  let out := seasonal_leaderboard selected df in
  let N := List.length (filter (isin selected) (group_keys df)) in
  map Rank out = map Z.of_nat (seq 1 N)
  /\ out = map (fun rm => mkRanked (fst rm) (mr_name (snd rm)) (mr_score_formatted (snd rm)))
               ranked
  /\ StronglySorted (fun a b => mr_score b <= mr_score a) (map snd ranked)
  /\ (forall r m, In (r, m) ranked ->
                  (exists mx, is_max mx (map score (group_rows (mr_name m) df))
                              /\ mr_score m = wrap Int64 mx)
                  /\ mr_score_formatted m = format_thousands (mr_score m))
  /\ (score_dtype df = Int64 ->
      forall r m, In (r, m) ranked ->
                  is_max (mr_score m) (map score (group_rows (mr_name m) df)))
  /\ NoDup (map Player_Name out)
  /\ (forall p, In p (map Player_Name out)
                <-> In p selected /\ exists o, In o df /\ name o = p).
Proof.
  intros ranked out N.
  assert (Hnames : map Player_Name out = map mr_name (max_scores_sorted selected df)).
  { unfold out, seasonal_leaderboard. rewrite map_map. simpl.
    rewrite <- (insert_rank_rows (max_scores_sorted selected df)) at 2.
    now rewrite map_map. }
  assert (Hperm := max_scores_sorted_names selected df).
  assert (Hrow : forall r m, In (r, m) ranked ->
                             (exists mx, is_max mx (map score (group_rows (mr_name m) df))
                                         /\ mr_score m = wrap Int64 mx)
                             /\ mr_score_formatted m = format_thousands (mr_score m)).
  { intros r m Hin.
    assert (Hm : In m (max_scores_sorted selected df)).
    { rewrite <- (insert_rank_rows (max_scores_sorted selected df)).
      apply in_map_iff. exists (r, m). auto. }
    apply In_max_scores_sorted in Hm. tauto. }
  split; [| split; [| split; [| split; [| split; [| split]]]]].
  - unfold out, seasonal_leaderboard. rewrite map_map. simpl.
    change (fun x : Z * max_row => fst x) with (@fst Z max_row).
    rewrite insert_rank_ranks. do 2 f_equal. unfold N.
    rewrite <- (Permutation_length Hperm). now rewrite length_map.
  - reflexivity.
  - unfold ranked. rewrite insert_rank_rows. apply max_scores_sorted_desc.
  - exact Hrow.
  - intros Hdt r m Hin. destruct (Hrow r m Hin) as ((mx & Hmax & E) & _).
    rewrite E, wrap_int64_small; [assumption |].
    destruct Hmax as (Hmx & _). apply in_map_iff in Hmx. destruct Hmx as (o & <- & Ho).
    apply In_group_rows in Ho. apply (score_dtype_int64_range df o Hdt). tauto.
  - rewrite Hnames. eapply Permutation_NoDup; [apply Permutation_sym, Hperm |].
    apply NoDup_filter, group_keys_NoDup.
  - intros p. rewrite Hnames. split.
    + intros Hin. apply (Permutation_in _ Hperm) in Hin.
      apply filter_In in Hin. now rewrite In_group_keys, isin_In in Hin.
    + intros (Hsel & Hobs). apply (Permutation_in _ (Permutation_sym Hperm)).
      apply filter_In. now rewrite In_group_keys, isin_In.
Qed.

(** C5 as stated fails for a [uint64] column: on [sample_uint64] the
    highest score of [A] is 2^63, line 237 makes it -2^63, and [A]
    stands below [B], whose highest score is 5. *)
Lemma seasonal_order_wraps :
  let df := sample_uint64 in
  let out := seasonal_leaderboard ["A"; "B"]%string df in
  ~ (forall p q mp mq,
        In p out -> In q out -> Rank p < Rank q ->
        is_max mp (map score (group_rows (Player_Name p) df)) ->
        is_max mq (map score (group_rows (Player_Name q) df)) ->
        mq <= mp).
Proof.
  intros df out H.
  specialize (H (mkRanked 1 "B" "5") (mkRanked 2 "A" "-9,223,372,036,854,775,808")
                5 9223372036854775808).
  assert (Hle : 9223372036854775808 <= 5).
  { apply H.
    - vm_compute. auto.
    - vm_compute. auto.
    - simpl. lia.
    - split; [simpl; auto |]. intros x Hx. simpl in Hx. destruct Hx as [<- | []]. lia.
    - split; [simpl; auto |]. intros x Hx. simpl in Hx. destruct Hx as [<- | []]. lia. }
  change (9223372036854775808 <= 5) in Hle. lia.
Qed.

(** ** The blocks and the objects they write *)

(** Without a time window the clock reading is of no effect. *)
Lemma gain_without_window now now' tw fn df :
  truthy tw = false ->
  get_gain_leaderboard now tw fn df = get_gain_leaderboard now' tw fn df.
Proof.
  intros H.
  assert (E : time_filter now tw df = time_filter now' tw df).
  { unfold time_filter. destruct tw as [d |]; [| reflexivity].
    simpl in H. destruct (d =? 0); [reflexivity | discriminate]. }
  unfold get_gain_leaderboard, df_filtered, window_rows. now rewrite E.
Qed.

Ltac heap_eqb :=
  repeat match goal with
         | |- context [Nat.eqb ?a ?a] => rewrite (Nat.eqb_refl a)
         | |- context [Nat.eqb ?a ?b] =>
             let E := fresh "E" in
             assert (E : Nat.eqb a b = false) by (apply Nat.eqb_neq; lia);
             rewrite E; clear E
         end.

Ltac eval_step :=
  unfold value_of, assign_new, bind, ret, raise, alloc, deref, update, get_name, set_name,
    datetime_now, as_frame, as_names, as_table, as_pivot, as_long, as_records, as_scores,
    as_max_scores, as_ranked_scores, as_ranked;
  cbn [lookup_env String.eqb Ascii.eqb Bool.eqb heap next env clock reads].

Lemma preserved_refl w : preserved w w.
Proof. unfold preserved. repeat split; auto. Qed.

Lemma preserved_trans w1 w2 w3 : preserved w1 w2 -> preserved w2 w3 -> preserved w1 w3.
Proof.
  intros (H1 & N1 & D1 & F1 & C1) (H2 & N2 & D2 & F2 & C2).
  unfold preserved. repeat split; try congruence; try lia.
  intros a Ha. rewrite H2 by lia. now apply H1.
Qed.

Lemma script_world_preserved df fn w w' :
  script_world df fn w -> preserved w w' -> script_world df fn w'.
Proof.
  intros (a_df & a_fn & H1 & H2 & H3 & H4 & H5 & H6) (Hh & Hn & Hd & Hf & _).
  exists a_df, a_fn. rewrite Hd, Hf, !Hh by assumption.
  repeat split; try assumption; lia.
Qed.

(** The loop of lines 192-207 appends to the list [biggest_changes] is
    bound to, in key order, and writes into no other object. *)
Lemma rolling_loop_appends h df ks :
  forall w a acc,
    lookup_env "biggest_changes" (env w) = Some a ->
    heap w a = Some (ORecords acc) ->
    exists w',
      for_each ks
               (fun player =>
                  let max_gain := player_max_gain h player df in
                  if 0 <? max_gain
                  then a <- get_name "biggest_changes" ;;
                       o <- deref a ;;
                       acc <- as_records o ;;
                       update a (ORecords (acc ++ [(player, max_gain)]))
                  else ret tt) w
      = Some (tt, w')
      /\ heap w' a
         = Some (ORecords
                   (acc ++ flat_map (fun player =>
                                       let max_gain := player_max_gain h player df in
                                       if 0 <? max_gain then [(player, max_gain)] else []) ks))
      /\ (forall b, b <> a -> heap w' b = heap w b)
      /\ next w' = next w /\ env w' = env w /\ clock w' = clock w /\ reads w' = reads w.
Proof.
  induction ks as [| k ks IH]; intros w a acc Hn Ha.
  - exists w. simpl. rewrite app_nil_r. repeat split; auto.
  - simpl for_each. unfold bind at 1. cbv zeta.
    destruct (0 <? player_max_gain h k df) eqn:E.
    + eval_step. rewrite Hn. eval_step. rewrite Ha. eval_step. rewrite Ha.
      match goal with
      | |- exists w', for_each _ _ ?w1 = _ /\ _ =>
          destruct (IH w1 a (acc ++ [(k, player_max_gain h k df)]))
            as (w' & Hrun & Hacc & Hother & Hnext & Henv & Hclock & Hreads)
      end.
      * exact Hn.
      * simpl. now rewrite Nat.eqb_refl.
      * exists w'. split; [exact Hrun |]. simpl. rewrite E. simpl.
        rewrite Hacc, <- app_assoc. split; [reflexivity |].
        split; [| repeat split; assumption].
        intros b Hb. rewrite (Hother b Hb). simpl.
        apply Nat.eqb_neq in Hb. now rewrite Hb.
    + eval_step.
      destruct (IH w a acc Hn Ha)
        as (w' & Hrun & Hacc & Hother & Hnext & Henv & Hclock & Hreads).
      exists w'. split; [exact Hrun |]. simpl. rewrite E. simpl.
      repeat split; assumption.
Qed.

Lemma progression_block_spec df fn w :
  script_world df fn w ->
  exists w',
    progression_block w = Some (tt, w')
    /\ preserved w w'
    /\ reads w' = reads w
    /\ value_of "df_pivot" as_pivot w' = Some (progression_pivot df, w')
    /\ value_of "df_long" as_long w' = Some (df_long df, w')
    /\ value_of "latest_points" as_long w' = Some (latest_points df, w').
Proof.
  intros (a_df & a_fn & H1 & H2 & H3 & H4 & H5 & H6).
  unfold progression_block.
  eexists. split.
  - repeat (eval_step; rewrite ?H1, ?H2; heap_eqb). reflexivity.
  - unfold preserved. eval_step. split; [| split; [| split; [| split]]].
    + split; [| split; [| split; [| split]]]; try reflexivity; try lia.
      intros a Ha. heap_eqb. reflexivity.
    + reflexivity.
    + heap_eqb. reflexivity.
    + heap_eqb. reflexivity.
    + heap_eqb. reflexivity.
Qed.
Lemma rolling_block_spec h df fn w :
  script_world df fn w ->
  exists w',
    rolling_block h w = Some (tt, w')
    /\ preserved w w'
    /\ reads w' = reads w
    /\ value_of "biggest_changes" as_records w' = Some (biggest_changes h df, w').
Proof.
  intros (a_df & a_fn & H1 & H2 & H3 & H4 & H5 & H6).
  unfold rolling_block.
  unfold assign_new at 1, bind at 1 2, alloc, set_name.
  unfold bind at 1. unfold value_of at 1.
  repeat (eval_step; rewrite ?H1, ?H2; heap_eqb).
  match goal with
  | |- exists w', for_each _ _ ?w1 = _ /\ _ =>
      destruct (rolling_loop_appends h df (group_keys df) w1 (next w) [])
        as (w' & Hrun & Hacc & Hother & Hnext & Henv & Hclock & Hreads)
  end.
  - reflexivity.
  - simpl. now rewrite Nat.eqb_refl.
  - exists w'. split; [exact Hrun |]. simpl in *.
    split; [| split; [assumption |]].
    + unfold preserved. rewrite Henv, Hnext, Hclock. simpl.
      split; [| split; [lia | repeat split]].
      intros a Ha. rewrite Hother by lia.
      assert (E : Nat.eqb a (next w) = false) by (apply Nat.eqb_neq; lia).
      now rewrite E.
    + unfold value_of, bind, get_name, deref, as_records, ret.
      rewrite Henv. simpl. rewrite Hacc. reflexivity.
Qed.

Lemma seasonal_block_spec sel df fn w :
  script_world df fn w ->
  exists w',
    seasonal_block sel w = Some (tt, w')
    /\ preserved w w'
    /\ reads w' = reads w
    /\ value_of "max_scores" as_ranked w' = Some (seasonal_leaderboard sel df, w').
Proof.
  intros (a_df & a_fn & H1 & H2 & H3 & H4 & H5 & H6).
  unfold seasonal_block.
  eexists. split.
  - repeat (eval_step; rewrite ?H1, ?H2; heap_eqb). reflexivity.
  - unfold preserved. eval_step. split; [| split].
    + split; [| split; [| split; [| split]]]; try reflexivity; try lia.
      intros a Ha. heap_eqb. reflexivity.
    + reflexivity.
    + heap_eqb. do 2 f_equal.
      unfold seasonal_leaderboard, max_scores_sorted. now rewrite map_map.
Qed.

Lemma call_get_gain_leaderboard_spec tw df fn w :
  script_world df fn w ->
  exists a w',
    call_get_gain_leaderboard tw w = Some (a, w')
    /\ preserved w w'
    /\ reads w' = (if truthy tw then S (reads w) else reads w)
    /\ heap w' a = Some (OTable (get_gain_leaderboard (clock w (reads w)) tw fn df))
    /\ (next w <= a)%nat.
Proof.
  intros (a_df & a_fn & H1 & H2 & H3 & H4 & H5 & H6).
  unfold call_get_gain_leaderboard.
  destruct (truthy tw) eqn:Et.
  - eexists. eexists. split.
    + repeat (eval_step; rewrite ?H1, ?H2, ?H4, ?H5; heap_eqb). reflexivity.
    + unfold preserved. eval_step. split; [| split; [| split]].
      * split; [| split; [| split; [| split]]]; try reflexivity; try lia.
        intros a Ha. heap_eqb. reflexivity.
      * reflexivity.
      * heap_eqb. reflexivity.
      * lia.
  - eexists. eexists. split.
    + repeat (eval_step; rewrite ?H1, ?H2, ?H4, ?H5; heap_eqb). reflexivity.
    + unfold preserved. eval_step. split; [| split; [| split]].
      * split; [| split; [| split; [| split]]]; try reflexivity; try lia.
        intros a Ha. heap_eqb. reflexivity.
      * reflexivity.
      * heap_eqb. f_equal. f_equal. now apply gain_without_window.
      * lia.
Qed.

(** What a call returns; it writes into no object that was there, reads
    the clock once when it is a windowed gain call and never otherwise. *)
Lemma exec_spec df fn c w :
  script_world df fn w ->
  exists w',
    exec c w = Some (result_of df fn (clock w (reads w)) c, w')
    /\ preserved w w'
    /\ reads w' = (if reads_clock c then S (reads w) else reads w).
Proof.
  intros Hw. destruct c as [tw | | h | sel]; simpl exec; unfold bind at 1.
  - destruct (call_get_gain_leaderboard_spec tw df fn w Hw)
      as (a & w' & -> & Hp & Hr & Ha & _).
    exists w'. unfold bind, deref, as_table, ret. rewrite Ha. simpl. auto.
  - destruct (progression_block_spec df fn w Hw) as (w' & -> & Hp & Hr & _ & Hl & Hf).
    exists w'. unfold bind at 1. rewrite Hl. unfold bind at 1. rewrite Hf. simpl. auto.
  - destruct (rolling_block_spec h df fn w Hw) as (w' & -> & Hp & Hr & Hv).
    exists w'. unfold bind at 1. rewrite Hv. simpl. auto.
  - destruct (seasonal_block_spec sel df fn w Hw) as (w' & -> & Hp & Hr & Hv).
    exists w'. unfold bind at 1. rewrite Hv. simpl. auto.
Qed.

Lemma run_spec df fn calls :
  forall w, script_world df fn w ->
            exists w',
              run calls w = Some (results_from df fn (clock w) (reads w) calls, w')
              /\ preserved w w'.
Proof.
  induction calls as [| c calls IH]; intros w Hw.
  - exists w. split; [reflexivity | apply preserved_refl].
  - destruct (exec_spec df fn c w Hw) as (w1 & He & Hp1 & Hr1).
    destruct (IH w1 (script_world_preserved _ _ _ _ Hw Hp1)) as (w2 & Hrun & Hp2).
    exists w2. split; [| eapply preserved_trans; eauto].
    simpl. unfold bind at 1. rewrite He. unfold bind at 1. rewrite Hrun.
    destruct Hp1 as (_ & _ & _ & _ & ->). rewrite Hr1. reflexivity.
Qed.

(** A call that does not read the clock, or reads the same instant,
    returns the same result. *)
Lemma result_of_clock df fn c now now' :
  reads_clock c = false \/ now = now' -> result_of df fn now c = result_of df fn now' c.
Proof.
  intros [H | ->]; [| reflexivity].
  destruct c as [tw | | h | sel]; try reflexivity.
  simpl in *. f_equal. now apply gain_without_window.
Qed.


(** C8 (as the code has it). In a state of the script where [df] and
    [filtered_names] are bound to the frame and the allow-list, any
    sequence of calls of the four operations runs without raising; it
    writes into no object that existed before, so [df] and the
    allow-list are bound to the same, unchanged objects afterwards; and
    each call returns the function [result_of] of the frame, the
    allow-list, its arguments and, for a gain call with a time window,
    the instant the clock shows at the call.  A repeated call returns
    the same result when it does not read the clock or reads the same
    instant. *)
Theorem aggregation_leaves_snapshot_unchanged df fn calls w :
  script_world df fn w ->
  (exists w',
      run calls w = Some (results_from df fn (clock w) (reads w) calls, w')
      /\ preserved w w'
      /\ script_world df fn w')
  /\ (forall c k k', reads_clock c = false \/ clock w k = clock w k' ->
                     result_of df fn (clock w k) c = result_of df fn (clock w k') c).
Proof.
  intros Hw. split.
  - destruct (run_spec df fn calls w Hw) as (w' & Hrun & Hp).
    exists w'. split; [assumption |]. split; [assumption |].
    eapply script_world_preserved; eauto.
  - intros c k k'. apply result_of_clock.
Qed.

Lemma aggregation_leaves_snapshot_unchanged_witness :
  let calls := [Progression; GainLeaderboard (Some 10); RollingMaxGain 2;
                SeasonalSnapshot ["A"%string]; GainLeaderboard None; Progression] in
  let w := start_world sample_recent [] sample_clock in
  (exists w',
      run calls w = Some (results_from sample_recent [] sample_clock 0 calls, w')
      /\ preserved w w'
      /\ script_world sample_recent [] w')
  /\ (forall c k k', reads_clock c = false \/ sample_clock k = sample_clock k' ->
                     result_of sample_recent [] (sample_clock k) c
                     = result_of sample_recent [] (sample_clock k') c).
Proof.
  intros calls w.
  apply (aggregation_leaves_snapshot_unchanged sample_recent [] calls w).
  exists 0%nat, 1%nat. simpl. repeat split; lia.
Defined.

(** C8 as stated fails for the gain call with a time window: on
    [sample_recent], with a clock that shows 100 and then 200, two
    calls with the window 10 return a table with [A] and the empty
    table, though [df] is bound to the same unchanged object. *)
Lemma repeated_windowed_call_differs :
  let w := start_world sample_recent [] sample_clock in
  exists r1 r2 w',
    run [GainLeaderboard (Some 10); GainLeaderboard (Some 10)] w = Some ([r1; r2], w')
    /\ r1 <> r2
    /\ lookup_env "df" (env w') = lookup_env "df" (env w)
    /\ heap w' 0%nat = Some (OFrame sample_recent)
    /\ heap w 0%nat = Some (OFrame sample_recent).
Proof.
  intros w.
  destruct (run_spec sample_recent []
                     [GainLeaderboard (Some 10); GainLeaderboard (Some 10)] w)
    as (w' & Hrun & Hh & _ & Hd & _).
  { exists 0%nat, 1%nat. simpl. repeat split; lia. }
  eexists. eexists. exists w'. split; [exact Hrun |].
  split; [vm_compute; discriminate |].
  split; [exact Hd |]. split; [| reflexivity].
  rewrite Hh; [reflexivity | simpl; lia].
Qed.

(** The blocks do write: line 132 writes into the object line 129 bound
    [df_pivot] to, and the rolling loop into the list of line 190. *)
Lemma blocks_update_their_objects df fn w :
  script_world df fn w ->
  (exists w', progression_block w = Some (tt, w')
              /\ value_of "df_pivot" as_pivot w' = Some (progression_pivot df, w')
              /\ progression_pivot df = clamp_negative (ffill (sort_index (pivot_table (df_top20 df)))))
  /\ forall h, exists w', rolling_block h w = Some (tt, w')
                          /\ value_of "biggest_changes" as_records w'
                             = Some (biggest_changes h df, w').
Proof.
  intros Hw. split.
  - destruct (progression_block_spec df fn w Hw) as (w' & Hrun & _ & _ & Hv & _).
    exists w'. repeat split; assumption.
  - intros h. destruct (rolling_block_spec h df fn w Hw) as (w' & Hrun & _ & _ & Hv).
    exists w'. split; assumption.
Qed.

(** ** The CSV load *)

Section LoadFacts.
Variable is_na : string -> bool.
Variable strptime : string -> option Z.









End LoadFacts.



(** ** The pivot, the forward fill and the melt *)

Lemma In_combine_exists {A B : Type} (l1 : list A) :
  forall (l2 : list B) a, List.length l1 = List.length l2 -> In a l1 ->
                          exists b, In (a, b) (combine l1 l2).
Proof.
  induction l1 as [| x l1 IH]; intros [| y l2] a Hlen Hin; simpl in *;
    try discriminate; try tauto.
  destruct Hin as [<- | Hin]; [eauto |].
  destruct (IH l2 a) as (b & Hb); auto.
  eauto.
Qed.

Lemma In_combine_unique {A B : Type} (l1 : list A) :
  forall (l2 : list B) a b b', NoDup l1 -> In (a, b) (combine l1 l2) ->
                               In (a, b') (combine l1 l2) -> b = b'.
Proof.
  induction l1 as [| x l1 IH]; intros [| y l2] a b b' Hnd H1 H2; simpl in *; try tauto.
  inversion Hnd as [| ? ? Hx Hnd']; subst.
  destruct H1 as [E1 | H1]; destruct H2 as [E2 | H2].
  - congruence.
  - injection E1 as -> ->. exfalso. apply Hx. eapply in_combine_l; eauto.
  - injection E2 as -> ->. exfalso. apply Hx. eapply in_combine_l; eauto.
  - eapply IH; eauto.
Qed.

Lemma map_eq_combine {A B : Type} (g : A -> B) (l1 : list A) :
  forall l2, List.length l1 = List.length l2 ->
             (forall a b, In (a, b) (combine l1 l2) -> g a = b) ->
             map g l1 = l2.
Proof.
  induction l1 as [| x l1 IH]; intros [| y l2] Hlen H; simpl in *;
    try discriminate; [reflexivity |].
  f_equal; [apply H; now left |].
  apply IH; [congruence |]. intros; apply H; now right.
Qed.

Lemma combine_map_r {A B C : Type} (g : B -> C) (l1 : list A) :
  forall l2, combine l1 (map g l2) = map (fun ab => (fst ab, g (snd ab))) (combine l1 l2).
Proof.
  induction l1 as [| x l1 IH]; intros [| y l2]; simpl; try reflexivity.
  now rewrite IH.
Qed.

Lemma map_snd_combine {A B : Type} (l1 : list A) :
  forall l2 : list B, List.length l1 = List.length l2 -> map snd (combine l1 l2) = l2.
Proof.
  induction l1 as [| x l1 IH]; intros [| y l2] E; simpl in *; try discriminate; auto.
  f_equal. apply IH. congruence.
Qed.

Lemma ffill_from_length last col : List.length (ffill_from last col) = List.length col.
Proof.
  revert last. induction col as [| c col IH]; intros last; simpl; [reflexivity |].
  now rewrite IH.
Qed.

(** The timestamps of a pivot: strictly ascending. *)
Lemma index_sorted d : StronglySorted Z.lt (unique_sorted Z.leb (map timestamp d)).
Proof.
  assert (H := unique_sorted_sorted _ _ z_leb_total z_leb_antisym z_leb_trans
                                    (map timestamp d)).
  induction H as [| a l Hs IH Hall]; constructor; [assumption |].
  eapply Forall_impl; [| exact Hall].
  intros b Hb. unfold klt in Hb. now apply Z.leb_gt in Hb.
Qed.

Lemma In_index d t :
  In t (unique_sorted Z.leb (map timestamp d)) <-> exists o, In o d /\ timestamp o = t.
Proof.
  rewrite (In_unique_sorted _ _ z_leb_total z_leb_antisym), in_map_iff.
  split; intros (o & H1 & H2); exists o; tauto.
Qed.

Lemma sorted_lt_NoDup l : StronglySorted Z.lt l -> NoDup l.
Proof.
  induction 1 as [| a l Hs IH Hall]; constructor; [| assumption].
  intros Hin. rewrite Forall_forall in Hall. specialize (Hall a Hin). lia.
Qed.

(** Line 129's [sort_index] finds the pivot in order already. *)
Lemma sort_index_pivot_table d : sort_index (pivot_table d) = pivot_table d.
Proof.
  unfold sort_index, pivot_table. simpl.
  set (idx := unique_sorted Z.leb (map timestamp d)).
  assert (Hs : StronglySorted Z.lt idx) by apply index_sorted.
  f_equal.
  - apply sort_by_fixed.
    clear - Hs. induction Hs as [| a l Hs IH Hall]; constructor; [assumption |].
    eapply Forall_impl; [| exact Hall]. intros b Hb. apply Z.leb_le. lia.
  - rewrite map_map. apply map_ext. intros p. simpl. f_equal.
    rewrite sort_by_fixed.
    + apply map_snd_combine. now rewrite length_map.
    + generalize (map (pivot_value d p) idx). clear - Hs.
      induction Hs as [| a l Hs IH Hall]; intros [| c col]; simpl; try constructor.
      * apply IH.
      * rewrite Forall_forall in *. intros (t, v) Hin.
        apply in_combine_l in Hin. unfold by_key. simpl.
        apply Z.leb_le. specialize (Hall t Hin). lia.
Qed.

Lemma filled_pivot_eq d :
  filled_pivot d
  = mkPivot (unique_sorted Z.leb (map timestamp d))
            (map (fun p => (p, filled_column d p)) (group_keys d)).
Proof.
  unfold filled_pivot. rewrite sort_index_pivot_table.
  unfold clamp_negative, ffill, pivot_table. simpl. f_equal.
  rewrite !map_map. reflexivity.
Qed.

Lemma filled_column_length d p :
  List.length (filled_column d p) = List.length (unique_sorted Z.leb (map timestamp d)).
Proof.
  unfold filled_column. now rewrite length_map, ffill_from_length, length_map.
Qed.

(** The rows of the long form: one per (column, index value). *)
Lemma In_melt_filled d r :
  In r (melt (filled_pivot d))
  <-> In (Player r) (group_keys d)
      /\ In (lr_timestamp r, Score r)
            (combine (unique_sorted Z.leb (map timestamp d)) (filled_column d (Player r))).
Proof.
  rewrite filled_pivot_eq. unfold melt. simpl. rewrite in_flat_map. split.
  - intros ((p, col) & Hp & Hin). apply in_map_iff in Hp.
    destruct Hp as (p' & [= <- <-] & Hp). simpl in Hin.
    apply in_map_iff in Hin. destruct Hin as ((t, v) & <- & Hin). simpl. auto.
  - intros (Hp & Hin). exists (Player r, filled_column d (Player r)). split.
    + apply in_map_iff. eauto.
    + simpl. apply in_map_iff. exists (lr_timestamp r, Score r). split; [| assumption].
      now destruct r.
Qed.

(** What [ffill] leaves in the row of [t]: the start value when no cell
    up to [t] holds a value, else the value of the last cell that does. *)
Lemma ffill_from_spec (f : Z -> option Z) ts :
  StronglySorted Z.lt ts ->
  forall last t v,
    In (t, v) (combine ts (ffill_from last (map f ts))) ->
    (v = last /\ forall t', In t' ts -> t' <= t -> f t' = None)
    \/ (exists t', In t' ts /\ t' <= t /\ f t' = v /\ v <> None
                   /\ forall t'', In t'' ts -> t' < t'' -> t'' <= t -> f t'' = None).
Proof.
  induction 1 as [| t0 ts Hs IH Hall]; intros last t v Hin; simpl in Hin; [destruct Hin |].
  rewrite Forall_forall in Hall.
  destruct Hin as [E | Hin].
  - injection E as <- <-.
    destruct (f t0) as [x |] eqn:E0.
    + right. exists t0.
      split; [now left |]. split; [lia |]. split; [assumption |].
      split; [discriminate |].
      intros t'' [<- | Hin] H1 H2; [lia |]. specialize (Hall _ Hin). lia.
    + left. split; [reflexivity |].
      intros t' [<- | Hin] Hle; [assumption |]. specialize (Hall _ Hin). lia.
  - assert (Ht : t0 < t) by (apply Hall; eapply in_combine_l; eauto).
    apply IH in Hin.
    destruct Hin as [(-> & Hnone) | (t' & Hin' & Hle & Hv & Hsome & Hbetween)].
    + destruct (f t0) as [x |] eqn:E0.
      * right. exists t0.
        split; [now left |]. split; [lia |]. split; [assumption |].
        split; [discriminate |].
        intros t'' [<- | Hin] H1 H2; [lia | auto].
      * left. split; [reflexivity |].
        intros t' [<- | Hin] Hle; [assumption | auto].
    + right. exists t'.
      split; [now right |]. split; [assumption |]. split; [assumption |].
      split; [assumption |].
      intros t'' [<- | Hin] H1 H2; [| auto].
      specialize (Hall _ Hin'). lia.
Qed.

(** ** Integers in a [float64] column *)

Lemma round_abs_small a : a < 2 ^ 53 -> round_abs a = a.
Proof.
  intros H. unfold round_abs. apply Z.ltb_lt in H. now rewrite H.
Qed.

(** A multiple of a power of two by a 53-bit number is a [float64]. *)
Lemma round_abs_fixed q k :
  0 <= k -> 2 ^ 52 <= q <= 2 ^ 53 -> round_abs (q * 2 ^ k) = q * 2 ^ k.
Proof.
  intros Hk Hq. unfold round_abs.
  destruct (q * 2 ^ k <? 2 ^ 53) eqn:E; [reflexivity |].
  assert (Hu : 0 < 2 ^ k) by (apply Z.pow_pos_nonneg; lia).
  destruct (Z.eq_dec q (2 ^ 53)) as [-> | Hne].
  - assert (Hl : Z.log2 (2 ^ 53 * 2 ^ k) = 53 + k).
    { rewrite <- Z.pow_add_r by lia. apply Z.log2_pow2. lia. }
    rewrite Hl. replace (53 + k - 52) with (k + 1) by lia.
    assert (Hu' : 0 < 2 ^ (k + 1)) by (apply Z.pow_pos_nonneg; lia).
    assert (Er : 2 ^ 53 * 2 ^ k = 2 ^ 52 * 2 ^ (k + 1)).
    { rewrite <- !Z.pow_add_r by lia. f_equal. lia. }
    rewrite Er. cbv zeta. rewrite Z.div_mul, Z.mod_mul by lia.
    assert (Ht : (2 * 0 <? 2 ^ (k + 1)) = true) by (apply Z.ltb_lt; lia).
    now rewrite Ht.
  - assert (Hl : Z.log2 (q * 2 ^ k) = 52 + k).
    { apply Z.log2_unique; [lia |].
      replace (Z.succ (52 + k)) with (53 + k) by lia.
      rewrite !Z.pow_add_r by lia. split.
      - apply Z.mul_le_mono_nonneg_r; lia.
      - apply Z.mul_lt_mono_pos_r; lia. }
    rewrite Hl. replace (52 + k - 52) with k by lia.
    cbv zeta. rewrite Z.div_mul, Z.mod_mul by lia.
    assert (Ht : (2 * 0 <? 2 ^ k) = true) by (apply Z.ltb_lt; lia).
    now rewrite Ht.
Qed.

(** Beyond 2^53 the rounded value is such a multiple. *)
Lemma round_abs_form a :
  2 ^ 53 <= a ->
  exists q k, 0 <= k /\ 2 ^ 52 <= q <= 2 ^ 53 /\ round_abs a = q * 2 ^ k.
Proof.
  intros Ha. unfold round_abs.
  assert (E : (a <? 2 ^ 53) = false) by (apply Z.ltb_ge; lia). rewrite E.
  assert (Hpos : 0 < a) by (change (2 ^ 53) with 9007199254740992 in Ha; lia).
  pose proof (Z.log2_spec a Hpos) as (Hlo & Hhi).
  assert (He : 53 <= Z.log2 a).
  { change 53 with (Z.log2 (2 ^ 53)). apply Z.log2_le_mono. lia. }
  set (k := Z.log2 a - 52) in *.
  assert (Hk : 1 <= k) by (unfold k; lia).
  assert (Hu : 0 < 2 ^ k) by (apply Z.pow_pos_nonneg; lia).
  assert (E1 : 2 ^ Z.log2 a = 2 ^ 52 * 2 ^ k).
  { rewrite <- Z.pow_add_r by lia. f_equal. unfold k. lia. }
  assert (E2 : 2 ^ Z.succ (Z.log2 a) = 2 ^ 53 * 2 ^ k).
  { rewrite <- Z.pow_add_r by lia. f_equal. unfold k. lia. }
  rewrite E1 in Hlo. rewrite E2 in Hhi.
  assert (Hq1 : 2 ^ 52 <= a / 2 ^ k) by (apply Z.div_le_lower_bound; lia).
  assert (Hq2 : a / 2 ^ k < 2 ^ 53) by (apply Z.div_lt_upper_bound; lia).
  cbv zeta.
  match goal with
  | |- exists q k0, _ /\ _ /\ ?q' * _ = _ => exists q', k
  end.
  split; [lia |]. split; [| reflexivity].
  assert (E3 : 2 ^ 53 = 2 * 2 ^ 52) by reflexivity.
  assert (E4 : 0 < 2 ^ 52) by reflexivity.
  generalize dependent (a / 2 ^ k). intros q Hq1 Hq2.
  clear - Hq1 Hq2 E3 E4.
  destruct (2 * (a mod 2 ^ k) <? 2 ^ k); [lia |].
  destruct (2 ^ k <? 2 * (a mod 2 ^ k)); [lia |].
  destruct (Z.even q); lia.
Qed.

(** Beyond 2^53 the rounded value is a multiple of the spacing, at most
    half a spacing away. *)
Lemma round_abs_nearest a :
  2 ^ 53 <= a ->
  let u := 2 ^ (Z.log2 a - 52) in
  (exists q, round_abs a = q * u) /\ 2 * Z.abs (round_abs a - a) <= u.
Proof.
  intros Ha u. unfold round_abs.
  assert (E : (a <? 2 ^ 53) = false) by (apply Z.ltb_ge; lia). rewrite E.
  fold u. cbv zeta.
  assert (He : 53 <= Z.log2 a).
  { change 53 with (Z.log2 (2 ^ 53)). apply Z.log2_le_mono. lia. }
  assert (Hu : 0 < u) by (apply Z.pow_pos_nonneg; lia).
  pose proof (Z.div_mod a u ltac:(lia)) as Hdm.
  pose proof (Z.mod_pos_bound a u Hu) as Hr.
  split; [eexists; reflexivity |].
  destruct (2 * (a mod u) <? u) eqn:E1; [apply Z.ltb_lt in E1 | apply Z.ltb_ge in E1].
  - nia.
  - destruct (u <? 2 * (a mod u)) eqn:E2; [apply Z.ltb_lt in E2 | apply Z.ltb_ge in E2].
    + nia.
    + destruct (Z.even (a / u)); nia.
Qed.

Lemma round_abs_idempotent a : round_abs (round_abs a) = round_abs a.
Proof.
  destruct (Z.lt_ge_cases a (2 ^ 53)) as [H | H].
  - rewrite (round_abs_small a H). now apply round_abs_small.
  - destruct (round_abs_form a H) as (q & k & Hk & Hq & ->).
    now apply round_abs_fixed.
Qed.

Lemma round_abs_pos a : 0 < a -> 0 < round_abs a.
Proof.
  intros Ha. destruct (Z.lt_ge_cases a (2 ^ 53)) as [H | H].
  - now rewrite round_abs_small.
  - destruct (round_abs_form a H) as (q & k & Hk & Hq & ->).
    assert (0 < 2 ^ k) by (apply Z.pow_pos_nonneg; lia).
    change (2 ^ 52) with 4503599627370496 in Hq. nia.
Qed.

Lemma to_float64_small z : - 2 ^ 53 < z < 2 ^ 53 -> to_float64 z = z.
Proof.
  intros H. unfold to_float64. rewrite round_abs_small by lia.
  destruct z; simpl; lia.
Qed.

Lemma to_float64_idempotent z : to_float64 (to_float64 z) = to_float64 z.
Proof.
  unfold to_float64. destruct (Z.sgn_spec z) as [(Hz & E) | [(Hz & E) | (Hz & E)]]; rewrite E.
  - pose proof (round_abs_pos (Z.abs z) ltac:(lia)) as Hp.
    rewrite Z.mul_1_l, Z.sgn_pos, Z.abs_eq, round_abs_idempotent by lia. lia.
  - subst. reflexivity.
  - pose proof (round_abs_pos (Z.abs z) ltac:(lia)) as Hp.
    replace (-1 * round_abs (Z.abs z)) with (- round_abs (Z.abs z)) by lia.
    rewrite Z.sgn_neg, Z.abs_neq, Z.opp_involutive, round_abs_idempotent by lia. lia.
Qed.

Example to_float64_values :
  to_float64 9007199254740993 = 9007199254740992
  /\ to_float64 9007199254740995 = 9007199254740996
  /\ to_float64 (-9007199254740993) = -9007199254740992
  /\ to_float64 9223372036854775807 = 9223372036854775808
  /\ to_float64 18446744073709551615 = 18446744073709551616.
Proof. repeat split. Qed.

Lemma to_float64_max0 z : to_float64 (Z.max 0 (to_float64 z)) = Z.max 0 (to_float64 z).
Proof.
  destruct (Z.max_spec 0 (to_float64 z)) as [(_ & ->) | (_ & ->)].
  - apply to_float64_idempotent.
  - reflexivity.
Qed.
Lemma pivot_number_exact d m :
  pivot_has_nan d = false \/ - 2 ^ 53 < m < 2 ^ 53 -> pivot_number d m = m.
Proof.
  unfold pivot_number. intros [-> | H]; [reflexivity |].
  destruct (pivot_has_nan d); [now apply to_float64_small | reflexivity].
Qed.

Lemma In_cell_rows o p t d :
  In o (cell_rows p t d) <-> In o d /\ name o = p /\ timestamp o = t.
Proof.
  unfold cell_rows. rewrite filter_In, andb_true_iff, String.eqb_eq, Z.eqb_eq. tauto.
Qed.

Lemma pivot_cell_None d p t :
  pivot_cell d p t = None <-> forall o, In o d -> name o = p -> timestamp o <> t.
Proof.
  unfold pivot_cell. rewrite smax_None. split.
  - intros E o Ho Hn Ht. apply map_eq_nil in E.
    assert (Hin : In o (cell_rows p t d)) by now apply In_cell_rows.
    rewrite E in Hin. exact Hin.
  - intros H. destruct (cell_rows p t d) as [| o rest] eqn:E; [reflexivity |].
    assert (Hin : In o (cell_rows p t d)) by (rewrite E; now left).
    apply In_cell_rows in Hin. destruct Hin as (Ho & Hn & Ht).
    exfalso. exact (H o Ho Hn Ht).
Qed.

Lemma pivot_cell_Some d p t m :
  pivot_cell d p t = Some m <-> is_max m (map score (cell_rows p t d)).
Proof. apply smax_spec. Qed.

Lemma pivot_value_None d p t : pivot_value d p t = None <-> pivot_cell d p t = None.
Proof.
  unfold pivot_value. destruct (pivot_cell d p t); simpl; split; congruence.
Qed.

Lemma pivot_value_Some d p t v :
  pivot_value d p t = Some v
  <-> exists m, pivot_cell d p t = Some m /\ v = pivot_number d m.
Proof.
  unfold pivot_value. destruct (pivot_cell d p t) as [m |]; simpl; split.
  - intros [= <-]. eauto.
  - intros (m' & [= <-] & ->). reflexivity.
  - discriminate.
  - intros (m' & E & _). discriminate.
Qed.

Lemma pivot_has_nan_true d :
  pivot_has_nan d = true
  <-> exists p t, In p (group_keys d) /\ In t (unique_sorted Z.leb (map timestamp d))
                  /\ pivot_cell d p t = None.
Proof.
  unfold pivot_has_nan. rewrite existsb_exists. split.
  - intros (p & Hp & H). apply existsb_exists in H. destruct H as (t & Ht & H).
    exists p, t. split; [assumption |]. split; [assumption |].
    destruct (pivot_cell d p t); [discriminate | reflexivity].
  - intros (p & t & Hp & Ht & H). exists p. split; [assumption |].
    apply existsb_exists. exists t. split; [assumption |]. now rewrite H.
Qed.

(** The value of the filled and clamped pivot in the row of [t]. *)
Lemma filled_column_spec d p t v :
  In (t, v) (combine (unique_sorted Z.leb (map timestamp d)) (filled_column d p)) ->
  (v = None /\ forall o, In o d -> name o = p -> t < timestamp o)
  \/ (exists o m, In o d /\ name o = p /\ timestamp o <= t
                  /\ (forall o', In o' d -> name o' = p -> timestamp o' <= t ->
                                 timestamp o' <= timestamp o)
                  /\ is_max m (map score (cell_rows p (timestamp o) d))
                  /\ v = Some (Z.max 0 (pivot_number d m))).
Proof.
  unfold filled_column. rewrite combine_map_r, in_map_iff.
  intros ((t1, v0) & [= <- <-] & Hin). simpl.
  assert (Hidx : In t1 (unique_sorted Z.leb (map timestamp d)))
    by (eapply in_combine_l; eauto).
  apply (ffill_from_spec _ _ (index_sorted d)) in Hin.
  destruct Hin as [(-> & Hnone) | (t' & Hin' & Hle & Hv & Hsome & Hbetween)].
  - left. split; [reflexivity |]. intros o Ho Hn.
    destruct (Z.lt_ge_cases t1 (timestamp o)) as [Hlt | Hge]; [assumption |].
    exfalso.
    assert (Hc : pivot_cell d p (timestamp o) = None).
    { apply pivot_value_None, Hnone; [apply In_index; eauto | assumption]. }
    rewrite pivot_cell_None in Hc. now apply (Hc o).
  - right. destruct v0 as [x |]; [| congruence].
    apply pivot_value_Some in Hv. destruct Hv as (m & Hv & ->).
    pose proof (proj1 (pivot_cell_Some d p t' m) Hv) as Hmax.
    destruct Hmax as (Hm & Hub). apply in_map_iff in Hm.
    destruct Hm as (o & Hs & Ho). apply In_cell_rows in Ho.
    destruct Ho as (Ho & Hn & Ht). subst t'.
    exists o, m. repeat split; try assumption.
    + intros o' Ho' Hn' Hle'.
      destruct (Z.lt_ge_cases (timestamp o) (timestamp o')) as [Hlt | Hge]; [| lia].
      exfalso.
      assert (Hc : pivot_cell d p (timestamp o') = None).
      { apply pivot_value_None, Hbetween; [apply In_index; eauto | assumption | assumption]. }
      rewrite pivot_cell_None in Hc. now apply (Hc o').
    + apply in_map_iff. exists o. split; [assumption |]. now apply In_cell_rows.
    + simpl. destruct (pivot_number d m <? 0) eqn:E;
        [apply Z.ltb_lt in E | apply Z.ltb_ge in E]; f_equal; lia.
Qed.

Lemma In_firstn {A : Type} (n : nat) (l : list A) a : In a (firstn n l) -> In a l.
Proof.
  intros H. rewrite <- (firstn_skipn n l). apply in_or_app. now left.
Qed.

Lemma In_top_names k df p : In p (top_names k df) -> In p (group_keys df).
Proof.
  unfold top_names. intros H. apply in_map_iff in H.
  destruct H as ((n, v) & <- & Hin). apply In_firstn, In_sort_by in Hin.
  apply In_groupby_score in Hin. tauto.
Qed.

Lemma In_df_top20 df o : In o (df_top20 df) <-> In o df /\ In (name o) (top_names 20 df).
Proof. unfold df_top20. now rewrite filter_In, isin_In. Qed.

Lemma cohort_keys df p : In p (group_keys (df_top20 df)) <-> In p (top_names 20 df).
Proof.
  rewrite In_group_keys. split.
  - intros (o & Ho & <-). apply In_df_top20 in Ho. tauto.
  - intros Hp. pose proof (In_top_names _ _ _ Hp) as Hk.
    apply In_group_keys in Hk. destruct Hk as (o & Ho & <-).
    exists o. split; [| reflexivity]. now apply In_df_top20.
Qed.

Lemma cell_rows_cohort df p t :
  In p (top_names 20 df) -> cell_rows p t (df_top20 df) = cell_rows p t df.
Proof.
  intros Hp. unfold cell_rows, df_top20. apply filter_filter_same.
  intros o _ E. apply andb_true_iff in E. destruct E as (E & _).
  apply String.eqb_eq in E. subst. now apply isin_In.
Qed.

Lemma In_df_long df r :
  In r (df_long df)
  <-> In (Player r) (top_names 20 df)
      /\ In (lr_timestamp r, Score r)
            (combine (unique_sorted Z.leb (map timestamp (df_top20 df)))
                     (filled_column (df_top20 df) (Player r))).
Proof.
  unfold df_long, progression_pivot. now rewrite In_melt_filled, cohort_keys.
Qed.

Lemma pivot_has_gap_nan df : pivot_has_nan (df_top20 df) = true <-> pivot_has_gap df.
Proof.
  rewrite pivot_has_nan_true. unfold pivot_has_gap. split.
  - intros (q & t & Hq & Ht & Hc). exists q, t.
    apply cohort_keys in Hq. apply In_index in Ht. destruct Ht as (o & Ho & Ht).
    apply In_df_top20 in Ho. split; [assumption |]. split; [exists o; tauto |].
    rewrite pivot_cell_None in Hc. intros o' Ho' Hn'. apply Hc; [| assumption].
    apply In_df_top20. subst. auto.
  - intros (q & t & Hq & (o & Ho & Hn & Ht) & Hgap). exists q, t.
    split; [now apply cohort_keys |]. split.
    + apply In_index. exists o. split; [now apply In_df_top20 | assumption].
    + apply pivot_cell_None. intros o' Ho' Hn'. apply In_df_top20 in Ho'.
      apply Hgap; tauto.
Qed.

(** C3 (as the code has it). For a player of the top-20 cohort and a
    timestamp of the time axis the long form has one row.  When the
    player has an observation at or before the timestamp, its [Score]
    is the highest score the player has at the latest such instant,
    with a negative value replaced by 0; when some cohort player has no
    observation at some instant of the axis the pivot is [float64] and
    the score is rounded to the nearest [float64], which leaves a score
    below 2^53 in absolute value as it is.  When all the player's
    observations are later, the row is there and its [Score] is NaN:
    it is neither left out nor filled with 0. *)
Theorem progression_forward_fill df p t :
  In p (top_names 20 df) ->
  (exists o, In o df /\ In (name o) (top_names 20 df) /\ timestamp o = t) ->
  (exists v, forall v', In (mkLong t p v') (df_long df) <-> v' = v)
  /\ ((forall o, In o df -> name o = p -> t < timestamp o) ->
      In (mkLong t p None) (df_long df))
  /\ (forall o, In o df -> name o = p -> timestamp o <= t ->
                (forall o', In o' df -> name o' = p -> timestamp o' <= t ->
                            timestamp o' <= timestamp o) ->
                exists m, is_max m (map score (cell_rows p (timestamp o) df))
                          /\ (pivot_has_gap df ->
                              In (mkLong t p (Some (Z.max 0 (to_float64 m)))) (df_long df))
                          /\ (~ pivot_has_gap df \/ - 2 ^ 53 < m < 2 ^ 53 ->
                              In (mkLong t p (Some (Z.max 0 m))) (df_long df))).
Proof.
  intros Hp (o0 & Ho0 & Hn0 & Ht0).
  set (d := df_top20 df).
  set (idx := unique_sorted Z.leb (map timestamp d)).
  assert (Hidx : In t idx).
  { apply In_index. exists o0. split; [now apply In_df_top20 | assumption]. }
  destruct (In_combine_exists idx (filled_column d p) t) as (v & Hv);
    [symmetry; apply filled_column_length | assumption |].
  assert (Huniq : forall v', In (mkLong t p v') (df_long df) <-> v' = v).
  { intros v'. rewrite In_df_long. simpl. split.
    - intros (_ & Hv').
      eapply In_combine_unique; [apply sorted_lt_NoDup, index_sorted | exact Hv' | exact Hv].
    - intros ->. auto. }
  split; [exists v; exact Huniq |].
  pose proof (filled_column_spec d p t v Hv) as Hspec. split.
  - intros Hbefore. apply Huniq.
    destruct Hspec as [(-> & _) | (o & m & Ho & Hn & Hle & _)]; [reflexivity |].
    apply In_df_top20 in Ho. specialize (Hbefore o (proj1 Ho) Hn). lia.
  - intros o Ho Hn Hle Hlatest.
    assert (Hod : In o d) by (apply In_df_top20; subst; auto).
    destruct Hspec as [(_ & Hall) | (o1 & m & Ho1 & Hn1 & Hle1 & Hlatest1 & Hmax & ->)].
    + specialize (Hall o Hod Hn). lia.
    + assert (E : timestamp o1 = timestamp o).
      { apply Z.le_antisymm.
        - apply Hlatest; [apply In_df_top20 in Ho1; tauto | assumption | assumption].
        - apply Hlatest1; assumption. }
      exists m. rewrite <- E. unfold d in Hmax. rewrite cell_rows_cohort in Hmax by assumption.
      split; [assumption |]. split.
      * intros Hgap. apply Huniq. apply pivot_has_gap_nan in Hgap. fold d in Hgap.
        unfold pivot_number. now rewrite Hgap.
      * intros Hex. apply Huniq. rewrite (pivot_number_exact d m); [reflexivity |].
        destruct Hex as [Hno | Hsmall]; [left | now right].
        destruct (pivot_has_nan d) eqn:En; [| reflexivity].
        exfalso. apply Hno. now apply pivot_has_gap_nan.
Qed.

(** On [sample_fill] the row of [A] at timestamp 2 repeats the score
    [A] has at timestamp 1, rounded as the [float64] pivot holds it,
    and the row of [B] at timestamp 1 is NaN. *)
Lemma progression_forward_fill_witness :
  In (mkLong 2 "A" (Some 9007199254740992)) (df_long sample_fill)
  /\ In (mkLong 1 "B" None) (df_long sample_fill).
Proof.
  assert (HA : In "A"%string (top_names 20 sample_fill)) by (vm_compute; auto).
  assert (HB : In "B"%string (top_names 20 sample_fill)) by (vm_compute; auto).
  assert (Hlater : forall o, In o sample_fill -> name o = "B"%string -> 1 < timestamp o).
  { intros o [<- | [<- | []]]; simpl; intros; try discriminate; lia. }
  split.
  - destruct (progression_forward_fill sample_fill "A" 2 HA) as (_ & _ & Hfill).
    { exists (mkObs "B" 2 7). split; [simpl; auto |]. split; [exact HB | reflexivity]. }
    destruct (Hfill (mkObs "A" 1 9007199254740993)) as (m & (Hm & _) & Hrow & _).
    + simpl. auto.
    + reflexivity.
    + simpl. lia.
    + intros o' [<- | [<- | []]]; simpl; intros; try discriminate; lia.
    + destruct Hm as [<- | []]. apply Hrow.
      exists "B"%string, 1. split; [exact HB |]. split.
      * exists (mkObs "A" 1 9007199254740993).
        split; [simpl; auto |]. split; [exact HA | reflexivity].
      * intros o Ho Hn. specialize (Hlater o Ho Hn). lia.
  - destruct (progression_forward_fill sample_fill "B" 1 HB) as (_ & Hnan & _).
    { exists (mkObs "A" 1 9007199254740993).
      split; [simpl; auto |]. split; [exact HA | reflexivity]. }
    apply Hnan. exact Hlater.
Defined.

(** C3 as stated fails on [sample_progression]: at timestamp 1 the
    latest observation of [A] has score -5 and the row of [A] carries
    0; [B] is first observed at 2 and the long form has a row for
    [B] at 1. *)
Lemma forward_fill_as_stated_fails :
  let df := sample_progression in
  let cohort p := In p (top_names 20 df) in
  let axis t := exists o, In o df /\ In (name o) (top_names 20 df) /\ timestamp o = t in
  ~ (forall p t o, cohort p -> axis t ->
                   In o df -> name o = p -> timestamp o <= t ->
                   (forall o', In o' df -> name o' = p -> timestamp o' <= t ->
                               timestamp o' <= timestamp o) ->
                   In (mkLong t p (Some (score o))) (df_long df))
  /\ ~ (forall p t, cohort p -> axis t ->
                    (forall o, In o df -> name o = p -> t < timestamp o) ->
                    forall v, ~ In (mkLong t p v) (df_long df)).
Proof.
  intros df cohort axis.
  assert (Haxis : axis 1).
  { exists (mkObs "A" 1 (-5)). split; [simpl; auto |]. split; [vm_compute; auto | reflexivity]. }
  split.
  - intros H.
    specialize (H "A"%string 1 (mkObs "A" 1 (-5))).
    assert (Hin : In (mkLong 1 "A" (Some (-5))) (df_long df)).
    { apply H; try assumption.
      - vm_compute. auto.
      - simpl. auto.
      - reflexivity.
      - simpl. lia.
      - intros o' [<- | [<- | []]]; simpl; intros; try discriminate; lia. }
    vm_compute in Hin.
    repeat (destruct Hin as [Hin | Hin]; [discriminate |]). exact Hin.
  - intros H.
    apply (H "B"%string 1) with (v := None); try assumption.
    + vm_compute. auto.
    + intros o [<- | [<- | []]]; simpl; intros; try discriminate; lia.
    + vm_compute. auto.
Qed.

(** ** Running the progression on its own long form *)

Lemma In_observations_of_long long o :
  In o (observations_of_long long)
  <-> In (mkLong (timestamp o) (name o) (Some (score o))) long.
Proof.
  unfold observations_of_long. rewrite in_flat_map. split.
  - intros ([t p [v |]] & Hr & Hin); simpl in Hin; [| destruct Hin].
    destruct Hin as [<- | []]. exact Hr.
  - intros H. eexists. split; [exact H |]. simpl. left. now destruct o.
Qed.

Lemma ffill_from_idempotent col :
  forall last, ffill_from last (ffill_from last col) = ffill_from last col.
Proof.
  induction col as [| c col IH]; intros last; simpl; [reflexivity |].
  destruct c as [x |]; simpl.
  - now rewrite IH.
  - destruct last as [y |]; simpl; now rewrite IH.
Qed.

Lemma ffill_from_clamp col :
  forall last, ffill_from (clamp_cell last) (map clamp_cell col)
               = map clamp_cell (ffill_from last col).
Proof.
  induction col as [| c col IH]; intros last; simpl; [reflexivity |].
  destruct c as [x |]; simpl.
  - rewrite <- (IH (Some x)). simpl. destruct (x <? 0); reflexivity.
  - rewrite <- IH. reflexivity.
Qed.

Lemma clamp_cell_idempotent c : clamp_cell (clamp_cell c) = clamp_cell c.
Proof.
  destruct c as [x |]; simpl; [| reflexivity].
  destruct (x <? 0) eqn:E; simpl; [reflexivity |]. now rewrite E.
Qed.

(** Filling and clamping a filled and clamped column changes nothing. *)
Lemma fill_clamp_idempotent col :
  map clamp_cell (ffill_from None (map clamp_cell (ffill_from None col)))
  = map clamp_cell (ffill_from None col).
Proof.
  rewrite (ffill_from_clamp (ffill_from None col) None : ffill_from None _ = _).
  rewrite ffill_from_idempotent, map_map.
  apply map_ext. intros c. apply clamp_cell_idempotent.
Qed.

Section Refill.
Variable d : frame.
Let idx := unique_sorted Z.leb (map timestamp d).
Let long := melt (filled_pivot d).
Let refed := observations_of_long long.

Lemma In_refed o :
  In o refed
  <-> In (name o) (group_keys d)
      /\ In (timestamp o, Some (score o)) (combine idx (filled_column d (name o))).
Proof.
  unfold refed, long. rewrite In_observations_of_long, In_melt_filled. reflexivity.
Qed.

(** Every instant at which a player was observed holds a value. *)
Lemma observed_cell_filled o :
  In o d -> exists x, In (mkObs (name o) (timestamp o) x) refed.
Proof.
  intros Ho.
  assert (Hk : In (name o) (group_keys d)) by (apply In_group_keys; eauto).
  assert (Ht : In (timestamp o) idx) by (apply In_index; eauto).
  destruct (In_combine_exists idx (filled_column d (name o)) (timestamp o))
    as (v & Hv); [symmetry; apply filled_column_length | assumption |].
  destruct (filled_column_spec d _ _ _ Hv) as [(_ & Hall) | (o1 & m & _ & _ & _ & _ & _ & E)].
  - specialize (Hall o Ho eq_refl). lia.
  - subst v. exists (Z.max 0 (pivot_number d m)). apply In_refed. simpl. auto.
Qed.

Lemma refed_keys : group_keys refed = group_keys d.
Proof.
  apply (sorted_ext _ _ String.leb_total String.leb_antisym string_leb_trans);
    try apply group_keys_sorted.
  intros n. rewrite !In_group_keys. split.
  - intros (o & Ho & <-). apply In_refed in Ho. destruct Ho as (Hk & _).
    now apply In_group_keys in Hk.
  - intros (o & Ho & <-). destruct (observed_cell_filled o Ho) as (x & Hx). eauto.
Qed.

Lemma refed_index : unique_sorted Z.leb (map timestamp refed) = idx.
Proof.
  apply (sorted_ext _ _ z_leb_total z_leb_antisym z_leb_trans);
    try apply (unique_sorted_sorted _ _ z_leb_total z_leb_antisym z_leb_trans).
  intros t. unfold idx. rewrite !In_index. split.
  - intros (o & Ho & <-). apply In_refed in Ho. destruct Ho as (_ & Hc).
    apply in_combine_l in Hc. now apply In_index in Hc.
  - intros (o & Ho & <-). destruct (observed_cell_filled o Ho) as (x & Hx). eauto.
Qed.

(** The pivot of the fed-back rows has, cell for cell, the values of
    the filled pivot they came from. *)
Lemma refed_cell p t v :
  In p (group_keys d) -> In (t, v) (combine idx (filled_column d p)) ->
  pivot_cell refed p t = v.
Proof.
  intros Hp Hv.
  assert (Huniq : forall v', In (t, v') (combine idx (filled_column d p)) -> v' = v).
  { intros v' Hv'.
    eapply In_combine_unique; [apply sorted_lt_NoDup, index_sorted | exact Hv' | exact Hv]. }
  destruct v as [x |].
  - apply pivot_cell_Some. split.
    + apply in_map_iff. exists (mkObs p t x). split; [reflexivity |].
      apply In_cell_rows. split; [| auto]. apply In_refed. simpl. auto.
    + intros s Hs. apply in_map_iff in Hs. destruct Hs as (o & <- & Ho).
      apply In_cell_rows in Ho. destruct Ho as (Ho & <- & <-).
      apply In_refed in Ho. destruct Ho as (_ & Hc).
      apply Huniq in Hc. injection Hc as ->. lia.
  - apply pivot_cell_None. intros o Ho <- <-.
    apply In_refed in Ho. destruct Ho as (_ & Hc).
    apply Huniq in Hc. discriminate.
Qed.

(** A NaN cell in the pivot of the fed-back rows was one of the pivot
    they came from. *)
Lemma refed_nan : pivot_has_nan refed = true -> pivot_has_nan d = true.
Proof.
  rewrite !pivot_has_nan_true. rewrite refed_keys, refed_index.
  intros (p & t & Hp & Ht & Hc). exists p, t. split; [assumption |]. split; [assumption |].
  destruct (In_combine_exists idx (filled_column d p) t) as (v & Hv);
    [symmetry; apply filled_column_length | assumption |].
  rewrite (refed_cell p t v Hp Hv) in Hc. subst v.
  destruct (filled_column_spec d _ _ _ Hv) as [(_ & Hall) | (o1 & m & _ & _ & _ & _ & _ & E)];
    [| discriminate].
  apply pivot_cell_None. intros o Ho Hn Ht'. specialize (Hall o Ho Hn). lia.
Qed.

(** The values are held as they are: they are [float64] already when
    the pivot of the fed-back rows is. *)
Lemma refed_value p t v :
  In p (group_keys d) -> In (t, v) (combine idx (filled_column d p)) ->
  pivot_value refed p t = v.
Proof.
  intros Hp Hv. unfold pivot_value. rewrite (refed_cell p t v Hp Hv).
  destruct v as [x |]; [| reflexivity]. simpl. f_equal.
  unfold pivot_number at 1. destruct (pivot_has_nan refed) eqn:E; [| reflexivity].
  apply refed_nan in E.
  destruct (filled_column_spec d _ _ _ Hv) as [(Hn & _) | (o1 & m & _ & _ & _ & _ & _ & Hx)];
    [discriminate |].
  injection Hx as ->. unfold pivot_number. rewrite E. apply to_float64_max0.
Qed.

Lemma refed_column p :
  In p (group_keys d) -> filled_column refed p = filled_column d p.
Proof.
  intros Hp. unfold filled_column at 1. rewrite refed_index.
  rewrite (map_eq_combine (pivot_value refed p) idx (filled_column d p)).
  - unfold filled_column. apply fill_clamp_idempotent.
  - symmetry. apply filled_column_length.
  - intros t v. now apply refed_value.
Qed.

Lemma filled_pivot_refed : filled_pivot refed = filled_pivot d.
Proof.
  rewrite !filled_pivot_eq, refed_index, refed_keys. f_equal.
  apply map_ext_in. intros p Hp. f_equal. now apply refed_column.
Qed.
End Refill.

Lemma filter_all {A : Type} (f : A -> bool) l :
  (forall x, In x l -> f x = true) -> filter f l = l.
Proof.
  induction l as [| x l IH]; intros H; simpl; [reflexivity |].
  rewrite H by now left. f_equal. apply IH. intros; apply H; now right.
Qed.

Lemma top_names_length k df : (List.length (top_names k df) <= k)%nat.
Proof. unfold top_names. rewrite length_map. apply firstn_le_length. Qed.

(** When there are no more than [k] players, [head(k)] keeps them all. *)
Lemma top_names_all k df n :
  (List.length (group_keys df) <= k)%nat -> In n (group_keys df) -> In n (top_names k df).
Proof.
  intros Hlen Hn. unfold top_names.
  assert (Hk : map fst (groupby_score smax df) = group_keys df)
    by (apply groupby_score_keys; intros l; apply smax_None).
  rewrite firstn_all2.
  - apply (Permutation_in n (Permutation_map fst (sort_by_perm _ by_value_desc _))).
    now rewrite Hk.
  - rewrite sort_by_length, <- (length_map fst), Hk. exact Hlen.
Qed.

Lemma cohort_size df : (List.length (group_keys (df_top20 df)) <= 20)%nat.
Proof.
  etransitivity; [| apply (top_names_length 20 df)].
  apply NoDup_incl_length; [apply group_keys_NoDup |].
  intros p Hp. now apply cohort_keys.
Qed.

(** The fed-back rows are all of cohort players: line 123 keeps them. *)
Lemma df_top20_refed df :
  df_top20 (observations_of_long (df_long df)) = observations_of_long (df_long df).
Proof.
  unfold df_top20 at 1. apply filter_all. intros o Ho. apply isin_In.
  apply top_names_all.
  - unfold df_long, progression_pivot. rewrite refed_keys. apply cohort_size.
  - apply In_group_keys. eauto.
Qed.

(** C7. The long form of the progression, read back as observations at
    the same instants and put through lines 120-135 again, gives the
    same pivot and the same long form. *)
Theorem resampler_idempotent df :
  progression_pivot (observations_of_long (df_long df)) = progression_pivot df
  /\ df_long (observations_of_long (df_long df)) = df_long df.
Proof.
  assert (H : progression_pivot (observations_of_long (df_long df)) = progression_pivot df).
  { unfold progression_pivot at 1. rewrite df_top20_refed.
    unfold df_long, progression_pivot. apply filled_pivot_refed. }
  split; [exact H |]. unfold df_long at 1 3. now rewrite H.
Qed.

(** ** The scenarios of the specification *)

Example scenario_gain_ranker :
  rows (get_gain_leaderboard 0 None []
          [mkObs "A" 0 10; mkObs "A" 1 15; mkObs "A" 2 12; mkObs "B" 0 5; mkObs "B" 1 5])
  = [("A"%string, 5); ("B"%string, 0)].
Proof. reflexivity. Qed.

Example scenario_rolling_window :
  biggest_changes 2 [mkObs "A" 0 10;
                     mkObs "A" (timedelta_hours 1) 30;
                     mkObs "A" (timedelta_hours 3) 20]
  = [("A"%string, 20)].
Proof. reflexivity. Qed.

Example scenario_seasonal :
  seasonal_leaderboard ["X"; "Y"]%string [mkObs "X" 0 42; mkObs "X" 1 17]
  = [mkRanked 1 "X" "42"].
Proof. reflexivity. Qed.

Example scenario_empty_window :
  get_gain_leaderboard 0 (Some (timedelta_days 1)) [] [] = empty_gain_table.
Proof. reflexivity. Qed.

(** ** Runs at the limits of the 64-bit types *)

(** A [uint64] column: the fall from 2^63 to 7 wraps to a gain. *)
Example rolling_uint64_fall_is_reported :
  biggest_changes 2 [mkObs "A" 0 9223372036854775808; mkObs "A" (timedelta_hours 1) 7]
  = [("A"%string, 9223372036854775815)].
Proof. reflexivity. Qed.

(** An [int64] column: with the longer window both candidates of [A]
    wrap to negative values. *)
Example rolling_longer_window_reports_less :
  let df := [mkObs "A" 0 (-10); mkObs "A" (timedelta_hours 1) (-5);
             mkObs "A" (timedelta_hours 3) 9223372036854775807] in
  biggest_changes 2 df = [("A"%string, 5)] /\ biggest_changes 4 df = [].
Proof. split; reflexivity. Qed.

Example all_time_gain_below_rolling_gain :
  let df := [mkObs "A" 0 (-9223372036854775808); mkObs "A" (timedelta_hours 1) 0;
             mkObs "A" (timedelta_hours 2) 5] in
  biggest_changes 1 df = [("A"%string, 5)]
  /\ rows (get_gain_leaderboard 0 None [] df) = [("A"%string, -9223372036854775803)].
Proof. split; reflexivity. Qed.

Example wider_window_gain_wraps :
  let df := [mkObs "A" 50 (-9223372036854775808); mkObs "A" 95 0; mkObs "A" 99 10] in
  rows (get_gain_leaderboard 100 (Some 10) [] df) = [("A"%string, 10)]
  /\ rows (get_gain_leaderboard 100 (Some 100) [] df) = [("A"%string, -9223372036854775798)].
Proof. split; reflexivity. Qed.

(** ** The filter text and the selected users *)

Lemma forallb_rev {A : Type} (f : A -> bool) l : forallb f (rev l) = forallb f l.
Proof.
  induction l as [| x l IH]; simpl; [reflexivity |].
  rewrite forallb_app, IH. simpl. rewrite andb_true_r. apply andb_comm.
Qed.


Lemma nonempty_iff s : nonempty s = true <-> s <> EmptyString.
Proof.
  unfold nonempty. rewrite negb_true_iff. split.
  - intros H E. subst. discriminate.
  - intros H. apply String.eqb_neq. exact H.
Qed.


(** The characters of the pieces are characters of the text other than
    the separator. *)
Lemma split_char_chars sep s piece c :
  In piece (split_char sep s) -> In c (list_ascii_of_string piece) ->
  In c (list_ascii_of_string s) /\ c <> sep.
Proof.
  revert piece. induction s as [| x s IH]; intros piece; simpl.
  - intros [<- | []] [].
  - destruct (Ascii.eqb x sep) eqn:Ex.
    + intros [<- | Hin] Hc; [destruct Hc |].
      destruct (IH piece Hin Hc). auto.
    + apply Ascii.eqb_neq in Ex.
      destruct (split_char sep s) as [| p ps] eqn:Esp.
      * intros [<- | []] [<- | []]. auto.
      * intros [<- | Hin] Hc.
        -- destruct Hc as [<- | Hc]; [auto |].
           destruct (IH p (or_introl eq_refl) Hc). auto.
        -- destruct (IH piece (or_intror Hin) Hc). auto.
Qed.


Lemma replace_char_chars old new s c :
  In c (list_ascii_of_string (replace_char old new s)) ->
  c = new \/ (In c (list_ascii_of_string s) /\ c <> old).
Proof.
  induction s as [| x s IH]; simpl; [tauto |].
  intros [<- | Hin].
  - destruct (Ascii.eqb x old) eqn:Ex; [now left |].
    apply Ascii.eqb_neq in Ex. right. auto.
  - destruct (IH Hin) as [-> | (H1 & H2)]; auto.
Qed.


Lemma pieces_chars text piece c :
  In piece (pieces text) -> In c (list_ascii_of_string piece) ->
  In c (list_ascii_of_string text) /\ c <> ","%char /\ c <> newline.
Proof.
  intros Hp Hc. destruct (split_char_chars _ _ _ _ Hp Hc) as (H1 & H2).
  apply replace_char_chars in H1. destruct H1 as [-> | (H1 & H3)]; [congruence | auto].
Qed.

Section TextFacts.
Variable is_space : ascii -> bool.

Lemma drop_space_split l :
  exists pre, l = pre ++ drop_space is_space l /\ forallb is_space pre = true.
Proof.
  induction l as [| c l (pre & E & Hpre)]; simpl.
  - exists []. auto.
  - destruct (is_space c) eqn:Ec.
    + exists (c :: pre). simpl. rewrite Ec, Hpre. split; [now f_equal | reflexivity].
    + exists []. auto.
Qed.

Lemma drop_space_head l c r : drop_space is_space l = c :: r -> is_space c = false.
Proof.
  induction l as [| x l IH]; simpl; [discriminate |].
  destruct (is_space x) eqn:Ex; [assumption |]. now intros [= <- <-].
Qed.

Lemma drop_space_all l : forallb is_space l = true -> drop_space is_space l = [].
Proof.
  induction l as [| c l IH]; simpl; [reflexivity |].
  destruct (is_space c); [assumption | discriminate].
Qed.

Lemma drop_space_nil l : drop_space is_space l = [] -> forallb is_space l = true.
Proof.
  destruct (drop_space_split l) as (pre & E & Hpre). intros H.
  rewrite H, app_nil_r in E. now subst.
Qed.

Lemma core_head l c r : core is_space l = c :: r -> is_space c = false.
Proof.
  unfold core. intros H.
  destruct (drop_space_split (rev (drop_space is_space l))) as (pre & E & _).
  apply (f_equal (@rev ascii)) in E. rewrite rev_involutive, rev_app_distr, H in E.
  simpl in E. eapply drop_space_head. exact E.
Qed.

Lemma core_last l r c : core is_space l = r ++ [c] -> is_space c = false.
Proof.
  unfold core. intros H.
  apply (f_equal (@rev ascii)) in H. rewrite rev_involutive, rev_app_distr in H.
  simpl in H. eapply drop_space_head. exact H.
Qed.

Lemma core_nil l : core is_space l = [] <-> forallb is_space l = true.
Proof.
  unfold core. split.
  - intros H. apply (f_equal (@rev ascii)) in H. rewrite rev_involutive in H. simpl in H.
    apply drop_space_nil in H. rewrite forallb_rev in H.
    destruct (drop_space is_space l) as [| c r] eqn:E; [now apply drop_space_nil |].
    apply drop_space_head in E. simpl in H. rewrite E in H. discriminate.
  - intros H. now rewrite (drop_space_all l H).
Qed.

Lemma core_incl l c : In c (core is_space l) -> In c l.
Proof.
  unfold core. rewrite <- in_rev. intros H.
  destruct (drop_space_split (rev (drop_space is_space l))) as (pre & E & _).
  assert (H1 : In c (rev (drop_space is_space l))) by (rewrite E; apply in_or_app; now right).
  apply in_rev in H1.
  destruct (drop_space_split l) as (pre' & E' & _).
  rewrite E'. apply in_or_app. now right.
Qed.

Lemma core_fixed l :
  (forall c r, l = c :: r -> is_space c = false) ->
  (forall r c, l = r ++ [c] -> is_space c = false) ->
  core is_space l = l.
Proof.
  intros Hh Hl. unfold core.
  assert (E1 : drop_space is_space l = l).
  { destruct l as [| c r]; [reflexivity |]. simpl. now rewrite (Hh c r eq_refl). }
  rewrite E1.
  assert (E2 : drop_space is_space (rev l) = rev l).
  { destruct (rev l) as [| c r] eqn:E; [reflexivity |]. simpl.
    apply (f_equal (@rev ascii)) in E. rewrite rev_involutive in E. simpl in E.
    now rewrite (Hl _ _ E). }
  rewrite E2. apply rev_involutive.
Qed.

Lemma core_idempotent l : core is_space (core is_space l) = core is_space l.
Proof.
  apply core_fixed; intros; [eapply core_head | eapply core_last]; eauto.
Qed.

Lemma strip_chars s : list_ascii_of_string (strip is_space s) = core is_space (list_ascii_of_string s).
Proof. unfold strip. apply list_ascii_of_string_of_list_ascii. Qed.

Lemma strip_idempotent s : strip is_space (strip is_space s) = strip is_space s.
Proof.
  unfold strip at 1. rewrite strip_chars.
  fold (core is_space (core is_space (list_ascii_of_string s))). rewrite core_idempotent. reflexivity.
Qed.

(** A string strips to a name only if it has a character that is not
    white space, and the name consists of its characters. *)
Lemma strip_nonempty_char s :
  strip is_space s <> EmptyString ->
  exists c, In c (list_ascii_of_string s) /\ is_space c = false.
Proof.
  intros H.
  destruct (core is_space (list_ascii_of_string s)) as [| c r] eqn:E.
  - exfalso. apply H. rewrite <- (string_of_list_ascii_of_string (strip is_space s)).
    now rewrite strip_chars, E.
  - exists c. split; [| eapply core_head; eauto].
    apply core_incl. rewrite E. now left.
Qed.

Lemma strip_all_space s :
  forallb is_space (list_ascii_of_string s) = true -> strip is_space s = EmptyString.
Proof.
  intros H. rewrite <- (string_of_list_ascii_of_string (strip is_space s)).
  rewrite strip_chars. apply core_nil in H. now rewrite H.
Qed.

Lemma In_parse_name_filter text n :
  In n (parse_name_filter is_space text)
  <-> n <> EmptyString /\ exists piece, In piece (pieces text) /\ strip is_space piece = n.
Proof.
  unfold parse_name_filter.
  destruct (nonempty (strip is_space text)) eqn:Eg.
  - rewrite nodup_In, filter_In, in_map_iff, nonempty_iff. split.
    + intros ((piece & E & Hp) & Hn). eauto.
    + intros (Hn & piece & Hp & E). eauto.
  - split; [intros [] |]. intros (Hn & piece & Hp & <-). exfalso.
    apply strip_nonempty_char in Hn. destruct Hn as (c & Hc & Hsp).
    destruct (pieces_chars _ _ _ Hp Hc) as (Hct & _).
    assert (Hne : strip is_space text <> EmptyString).
    { intros E.
      assert (Hall : forallb is_space (list_ascii_of_string text) = true).
      { apply core_nil. rewrite <- strip_chars, E. reflexivity. }
      rewrite forallb_forall in Hall. rewrite (Hall c Hct) in Hsp. discriminate. }
    apply nonempty_iff in Hne. congruence.
Qed.
End TextFacts.

(** X1. The names taken from the filter text are the pieces between
    commas and line ends, stripped, without the empty ones and without
    repetition; each is free of white space at both ends. *)
Theorem name_filter_names is_space text :
  NoDup (parse_name_filter is_space text)
  /\ (forall n, In n (parse_name_filter is_space text)
                <-> n <> EmptyString
                    /\ exists piece, In piece (pieces text) /\ strip is_space piece = n)
  /\ (forall n, In n (parse_name_filter is_space text) ->
                strip is_space n = n
                /\ (forall c r, list_ascii_of_string n = c :: r -> is_space c = false)
                /\ (forall r c, list_ascii_of_string n = r ++ [c] -> is_space c = false)).
Proof.
  split; [| split].
  - unfold parse_name_filter. destruct (nonempty _); [apply NoDup_nodup | constructor].
  - intros n. apply In_parse_name_filter.
  - intros n Hn. apply In_parse_name_filter in Hn.
    destruct Hn as (_ & piece & _ & <-). split; [apply strip_idempotent |].
    rewrite strip_chars. split; intros; [eapply core_head | eapply core_last]; eauto.
Qed.

(** X2. A filter text made of white space, commas and line ends only
    gives no name, and the leaderboard is then the unfiltered one. *)
Theorem blank_filter_text_selects_nothing is_space text :
  (forall c, In c (list_ascii_of_string text) ->
             is_space c = true \/ c = ","%char \/ c = newline) ->
  parse_name_filter is_space text = []
  /\ forall now tw df,
      get_gain_leaderboard now tw (parse_name_filter is_space text) df
      = get_gain_leaderboard now tw [] df.
Proof.
  intros Hblank.
  assert (E : parse_name_filter is_space text = []).
  { destruct (parse_name_filter is_space text) as [| n l] eqn:E; [reflexivity |].
    exfalso.
    assert (Hn : In n (parse_name_filter is_space text)) by (rewrite E; now left).
    apply In_parse_name_filter in Hn. destruct Hn as (Hne & piece & Hp & <-).
    apply strip_nonempty_char in Hne. destruct Hne as (c & Hc & Hsp).
    destruct (pieces_chars _ _ _ Hp Hc) as (Hct & Hcomma & Hnl).
    destruct (Hblank c Hct) as [H | [H | H]]; congruence. }
  split; [exact E |]. intros. now rewrite E.
Qed.

Lemma blank_filter_text_selects_nothing_witness :
  parse_name_filter ascii_space " , ,, " = []
  /\ forall now tw df,
      get_gain_leaderboard now tw (parse_name_filter ascii_space " , ,, ") df
      = get_gain_leaderboard now tw [] df.
Proof.
  apply (blank_filter_text_selects_nothing ascii_space " , ,, ").
  simpl. intros c H.
  repeat (destruct H as [<- | H]; [first [left; reflexivity | right; left; reflexivity] |]).
  destruct H.
Defined.

Lemma filter_none {A : Type} (f : A -> bool) l :
  (forall x, In x l -> f x = false) -> filter f l = [].
Proof.
  induction l as [| x l IH]; intros H; simpl; [reflexivity |].
  rewrite H by now left. apply IH. intros; apply H; now right.
Qed.

(** X3. The selected users are the lines of the file, stripped, without
    the blank ones; when the file is missing there is none and the
    seasonal leaderboard is empty. *)
Theorem selected_users_from_file is_space :
  (forall lines n,
      In n (read_selected_users is_space (Some lines))
      <-> n <> EmptyString /\ exists line, In line lines /\ strip is_space line = n)
  /\ (forall lines n, In n (read_selected_users is_space (Some lines)) ->
                      strip is_space n = n)
  /\ (forall df, seasonal_leaderboard (read_selected_users is_space None) df = []).
Proof.
  split; [| split].
  - intros lines n. simpl. rewrite filter_In, in_map_iff, nonempty_iff. split.
    + intros ((line & E & Hl) & Hn). eauto.
    + intros (Hn & line & Hl & E). eauto.
  - intros lines n Hn. simpl in Hn. apply filter_In in Hn. destruct Hn as (Hn & _).
    apply in_map_iff in Hn. destruct Hn as (line & <- & _). apply strip_idempotent.
  - intros df. unfold seasonal_leaderboard, max_scores_sorted, read_selected_users.
    rewrite (filter_none (fun o => isin [] (name o)) df) by reflexivity.
    reflexivity.
Qed.

(** ** More on [get_gain_leaderboard] *)

Lemma filter_length_mono {A : Type} (f g h : A -> bool) l :
  (forall x, In x l -> g x = true -> h x = true) ->
  (List.length (filter f (filter g l)) <= List.length (filter f (filter h l)))%nat.
Proof.
  induction l as [| x l IH]; intros H; simpl; [lia |].
  assert (IH' := IH (fun y Hy => H y (or_intror Hy))).
  destruct (g x) eqn:Eg; simpl.
  - rewrite (H x (or_introl eq_refl) Eg). simpl. destruct (f x); simpl; lia.
  - destruct (h x); simpl; [destruct (f x); simpl; lia | lia].
Qed.

(** Lines 23-30 as one row test. *)
Lemma window_rows_filter now tw fn df :
  exists test : Obs -> bool,
    window_rows now tw fn df = filter test df
    /\ forall o, test o = true
                 <-> match tw with
                     | Some d => d = 0 \/ now - d <= timestamp o
                     | None => True
                     end
                     /\ (fn = [] \/ In (name o) fn).
Proof.
  assert (Ht : exists t1 : Obs -> bool,
             time_filter now tw df = filter t1 df
             /\ forall o, t1 o = true <-> match tw with
                                          | Some d => d = 0 \/ now - d <= timestamp o
                                          | None => True
                                          end).
  { unfold time_filter. destruct tw as [d |].
    - destruct (d =? 0) eqn:E; [apply Z.eqb_eq in E | apply Z.eqb_neq in E].
      + exists (fun _ => true). split; [symmetry; now apply filter_all | tauto].
      + exists (fun o => now - d <=? timestamp o). split; [reflexivity |].
        intros o. rewrite Z.leb_le. tauto.
    - exists (fun _ => true). split; [symmetry; now apply filter_all | tauto]. }
  destruct Ht as (t1 & E1 & H1). unfold window_rows. rewrite E1.
  destruct fn as [| n fn]; simpl.
  - exists t1. split; [reflexivity |]. intros o. rewrite H1. tauto.
  - exists (fun o => t1 o && isin (n :: fn) (name o)). split.
    + clear. induction df as [| o df IH]; simpl; [reflexivity |].
      destruct (t1 o); simpl; [| exact IH].
      destruct (String.eqb (name o) n || existsb (String.eqb (name o)) fn); simpl;
        now rewrite IH.
    + intros o. rewrite andb_true_iff, H1, isin_In. split.
      * intros (Ha & Hb). auto.
      * intros (Ha & [Hb | Hb]); [discriminate | auto].
Qed.

Lemma max_exists (l : list Z) : l <> [] -> exists m, is_max m l.
Proof.
  intros H. destruct (smax l) as [m |] eqn:E.
  - exists m. now apply smax_spec.
  - apply smax_None in E. contradiction.
Qed.

Lemma min_exists (l : list Z) : l <> [] -> exists m, is_min m l.
Proof.
  intros H. destruct (smin l) as [m |] eqn:E.
  - exists m. now apply smin_spec.
  - apply smin_None in E. contradiction.
Qed.

(** With scores that fit, the gain of a window is the plain difference. *)
Lemma gain_fit now tw fn df p mx mn :
  scores_fit df ->
  is_max mx (map score (group_rows p (window_rows now tw fn df))) ->
  is_min mn (map score (group_rows p (window_rows now tw fn df))) ->
  wrap (score_dtype df) (mx - mn) = mx - mn.
Proof.
  intros Hfit (Hmx & _) (Hmn & _).
  apply in_map_iff in Hmx. destruct Hmx as (a & <- & Ha).
  apply in_map_iff in Hmn. destruct Hmn as (b & <- & Hb).
  apply In_group_rows in Ha, Hb.
  destruct Ha as (Ha & _), Hb as (Hb & _).
  apply wrap_fit; [assumption | |]; eapply window_rows_incl; eassumption.
Qed.

(** When every row of one window is a row of another and the scores
    fit, a player listed for the first is listed for the second with at
    least the same gain. *)
Lemma wider_window_gain now1 tw1 fn1 now2 tw2 fn2 df :
  scores_fit df ->
  (forall o, In o df ->
             (match tw1 with Some d => d = 0 \/ now1 - d <= timestamp o | None => True end
              /\ (fn1 = [] \/ In (name o) fn1)) ->
             (match tw2 with Some d => d = 0 \/ now2 - d <= timestamp o | None => True end
              /\ (fn2 = [] \/ In (name o) fn2))) ->
  forall p g1, In (p, g1) (rows (get_gain_leaderboard now1 tw1 fn1 df)) ->
               exists g2, In (p, g2) (rows (get_gain_leaderboard now2 tw2 fn2 df)) /\ g1 <= g2.
Proof.
  intros Hfit Hsub p g1 Hin.
  destruct (window_rows_filter now1 tw1 fn1 df) as (t1 & E1 & H1).
  destruct (window_rows_filter now2 tw2 fn2 df) as (t2 & E2 & H2).
  apply In_gain_rows in Hin. destruct Hin as (Hlen & mx & mn & Hmx & Hmn & ->).
  assert (Himp : forall o, In o df -> t1 o = true -> t2 o = true).
  { intros o Ho Ht. apply H2. apply Hsub; [assumption | now apply H1]. }
  assert (Hlen2 : (2 <= List.length (group_rows p (window_rows now2 tw2 fn2 df)))%nat).
  { rewrite E1 in Hlen. rewrite E2. unfold group_rows in *.
    pose proof (filter_length_mono (fun o => String.eqb (name o) p) t1 t2 df Himp). lia. }
  assert (Hincl : forall o, In o (group_rows p (window_rows now1 tw1 fn1 df)) ->
                            In o (group_rows p (window_rows now2 tw2 fn2 df))).
  { intros o. rewrite !In_group_rows, E1, E2, !filter_In. intros ((Ho & Ht) & Hn). auto. }
  destruct (max_exists (map score (group_rows p (window_rows now2 tw2 fn2 df)))) as (mx2 & Hmx2).
  { intros E. apply map_eq_nil in E. rewrite E in Hlen2. simpl in Hlen2. lia. }
  destruct (min_exists (map score (group_rows p (window_rows now2 tw2 fn2 df)))) as (mn2 & Hmn2).
  { intros E. apply map_eq_nil in E. rewrite E in Hlen2. simpl in Hlen2. lia. }
  exists (mx2 - mn2). split.
  - apply In_gain_rows. split; [assumption |]. exists mx2, mn2.
    split; [assumption |]. split; [assumption |].
    symmetry. exact (gain_fit _ _ _ _ _ _ _ Hfit Hmx2 Hmn2).
  - rewrite (gain_fit _ _ _ _ _ _ _ Hfit Hmx Hmn).
    assert (mx <= mx2).
    { destruct Hmx as (Hm & _). apply in_map_iff in Hm. destruct Hm as (o & <- & Ho).
      apply Hmx2. apply in_map. auto. }
    assert (mn2 <= mn).
    { destruct Hmn as (Hm & _). apply in_map_iff in Hm. destruct Hm as (o & <- & Ho).
      apply Hmn2. apply in_map. auto. }
    lia.
Qed.

(** X4. When the scores fit (no difference of two of them leaves the
    64-bit range), with the same allow-list, a window that reaches at
    least as far back as another (its cutoff is not later), and the
    all-time table, list every player the shorter window lists, with a
    gain that is not smaller. *)
Theorem longer_window_dominates now1 d1 now2 d2 fn df p g1 :
  scores_fit df ->
  d1 <> 0 -> now2 - d2 <= now1 - d1 ->
  In (p, g1) (rows (get_gain_leaderboard now1 (Some d1) fn df)) ->
  (exists g2, In (p, g2) (rows (get_gain_leaderboard now2 (Some d2) fn df)) /\ g1 <= g2)
  /\ (exists g, In (p, g) (rows (get_gain_leaderboard now2 None fn df)) /\ g1 <= g).
Proof.
  intros Hfit Hd Hcut Hin. split.
  - apply (wider_window_gain now1 (Some d1) fn now2 (Some d2) fn df);
      [assumption | | assumption].
    intros o _ ([H | H] & Hfn); [contradiction |]. split; [right; lia | assumption].
  - apply (wider_window_gain now1 (Some d1) fn now2 None fn df);
      [assumption | | assumption].
    intros o _ (_ & Hfn). auto.
Qed.

Lemma longer_window_dominates_witness :
  let df := [mkObs "A" 10 5; mkObs "A" 95 7; mkObs "A" 99 12] in
  (exists g2, In ("A"%string, g2) (rows (get_gain_leaderboard 101 (Some 100) [] df)) /\ 5 <= g2)
  /\ (exists g, In ("A"%string, g) (rows (get_gain_leaderboard 101 None [] df)) /\ 5 <= g).
Proof.
  intros df.
  apply (longer_window_dominates 100 10 101 100 [] df "A" 5).
  - intros o [<- | [<- | [<- | []]]]; simpl; split; reflexivity || discriminate.
  - discriminate.
  - lia.
  - vm_compute. auto.
Defined.

(** X5. A non-empty allow-list only selects: the table lists the
    allowed players of the unfiltered table, each with the gain it has
    there. *)
Theorem allow_list_only_selects now tw fn df p g :
  fn <> [] ->
  (In (p, g) (rows (get_gain_leaderboard now tw fn df))
   <-> In p fn /\ In (p, g) (rows (get_gain_leaderboard now tw [] df))).
Proof.
  intros Hfn.
  assert (Hrows : In p fn ->
                  group_rows p (window_rows now tw fn df)
                  = group_rows p (window_rows now tw [] df)).
  { intros Hp. unfold window_rows. simpl. destruct fn as [| n fn]; [contradiction |].
    unfold name_filter, group_rows. apply filter_filter_same.
    intros o _ E. apply String.eqb_eq in E. subst. now apply isin_In. }
  rewrite !In_gain_rows. split.
  - intros (Hlen & Hrest).
    assert (Hp : In p fn).
    { destruct (group_rows p (window_rows now tw fn df)) as [| o r] eqn:E;
        [simpl in Hlen; lia |].
      assert (Ho : In o (group_rows p (window_rows now tw fn df))) by (rewrite E; now left).
      apply In_group_rows in Ho. destruct Ho as (Ho & <-).
      unfold window_rows in Ho. apply In_name_filter in Ho.
      destruct Ho as (_ & [H | H]); [contradiction | assumption]. }
    rewrite <- (Hrows Hp). auto.
  - intros (Hp & H). now rewrite (Hrows Hp).
Qed.

Lemma allow_list_only_selects_witness :
  let df := [mkObs "A" 1 5; mkObs "A" 2 9; mkObs "B" 1 1; mkObs "B" 3 2] in
  In ("A"%string, 4) (rows (get_gain_leaderboard 0 None ["A"%string] df))
  <-> In "A"%string ["A"%string]
      /\ In ("A"%string, 4) (rows (get_gain_leaderboard 0 None [] df)).
Proof.
  intros df.
  apply (allow_list_only_selects 0 None ["A"%string] df "A" 4). discriminate.
Defined.

(** X6. The table is the empty one, with columns [name] and [Gain],
    exactly when no player has two rows in the window, and that is
    when [.empty] holds of it (the test of line 109); otherwise it has
    one row for each player that has two. *)
Theorem empty_table_iff_no_player_qualifies now tw fn df :
  let w := window_rows now tw fn df in
  (get_gain_leaderboard now tw fn df = empty_gain_table
   <-> forall p, (List.length (group_rows p w) < 2)%nat)
  /\ (table_empty (get_gain_leaderboard now tw fn df) = true
      <-> forall p, (List.length (group_rows p w) < 2)%nat)
  /\ (forall p, In p (map fst (rows (get_gain_leaderboard now tw fn df)))
                <-> (2 <= List.length (group_rows p w))%nat).
Proof.
  intros w.
  assert (Hte : table_empty (get_gain_leaderboard now tw fn df) = true
                <-> rows (get_gain_leaderboard now tw fn df) = []).
  { unfold table_empty. rewrite gain_table_columns.
    destruct (rows (get_gain_leaderboard now tw fn df));
      destruct (df_filtered now tw fn df); split; congruence. }
  rewrite Hte.
  assert (Hnames : forall p, In p (map fst (rows (get_gain_leaderboard now tw fn df)))
                             <-> (2 <= List.length (group_rows p w))%nat).
  { intros p. rewrite in_map_iff. split.
    - intros ((q, g) & <- & Hin). apply In_gain_rows in Hin. tauto.
    - intros Hlen.
      destruct (max_exists (map score (group_rows p w))) as (mx & Hmx).
      { intros E. apply map_eq_nil in E. rewrite E in Hlen. simpl in Hlen. lia. }
      destruct (min_exists (map score (group_rows p w))) as (mn & Hmn).
      { intros E. apply map_eq_nil in E. rewrite E in Hlen. simpl in Hlen. lia. }
      exists (p, wrap (score_dtype df) (mx - mn)). split; [reflexivity |].
      apply In_gain_rows. split; [assumption |]. exists mx, mn. auto. }
  assert (Hrows : rows (get_gain_leaderboard now tw fn df) = []
                  <-> forall p, (List.length (group_rows p w) < 2)%nat).
  { split.
    - intros E p. destruct (Nat.lt_ge_cases (List.length (group_rows p w)) 2) as [H | H];
        [assumption |].
      apply Hnames in H. rewrite E in H. destruct H.
    - intros H. destruct (rows (get_gain_leaderboard now tw fn df)) as [| (p, g) r] eqn:E;
        [reflexivity |].
      exfalso. specialize (H p).
      assert (Hp : In p (map fst ((p, g) :: r))) by now left.
      apply Hnames in Hp. lia. }
  split; [| split; assumption].
  rewrite <- Hrows. split.
  - intros ->. reflexivity.
  - intros E. unfold get_gain_leaderboard in *.
    destruct (df_filtered now tw fn df) as [| o r] eqn:Ed; [reflexivity |].
    exfalso. simpl in E.
    assert (Hk : map fst (sort_by by_value_desc
                   (s_items (series_sub (score_dtype df)
                                        (groupby_series smax (o :: r))
                                        (groupby_series smin (o :: r))))) = [])
      by (simpl; simpl in E; now rewrite E).
    assert (Hin : In (name o) (group_keys (o :: r))) by (apply In_group_keys; exists o; simpl; auto).
    rewrite <- (gain_items_keys (score_dtype df)) in Hin.
    apply (Permutation_in _ (Permutation_map fst (sort_by_perm _ by_value_desc _))) in Hin.
    rewrite Hk in Hin. destruct Hin.
Qed.

(** X7. Line 74 never holds for a table [get_gain_leaderboard] returns:
    the empty table is empty, and the other one has no column [Gain]. *)
Theorem all_time_chart_never_drawn now tw fn df :
  chart_guard (get_gain_leaderboard now tw fn df) = false.
Proof.
  unfold chart_guard. rewrite gain_table_columns.
  destruct (df_filtered now tw fn df) eqn:E.
  - unfold get_gain_leaderboard. rewrite E. reflexivity.
  - simpl. apply andb_false_r.
Qed.

(** ** More on the progression *)

Lemma sorted_app_le {A : Type} (R : A -> A -> Prop) l1 :
  forall l2, StronglySorted R (l1 ++ l2) ->
             forall a b, In a l1 -> In b l2 -> R a b.
Proof.
  induction l1 as [| x l1 IH]; intros l2 Hs a b Ha Hb; [destruct Ha |].
  simpl in Hs. inversion Hs as [| ? ? Hs' Hall]; subst.
  destruct Ha as [<- | Ha].
  - rewrite Forall_forall in Hall. apply Hall. apply in_or_app. now right.
  - eapply IH; eauto.
Qed.

Lemma NoDup_firstn {A : Type} (n : nat) (l : list A) : NoDup l -> NoDup (firstn n l).
Proof.
  intros H. rewrite <- (firstn_skipn n l) in H. eapply NoDup_app_remove_r. exact H.
Qed.

Lemma top_names_firstn k df :
  top_names k df = firstn k (map fst (sort_by by_value_desc (groupby_score smax df))).
Proof. unfold top_names. symmetry. apply firstn_map. Qed.

Lemma sorted_maxima_keys df :
  Permutation (map fst (sort_by by_value_desc (groupby_score smax df))) (group_keys df).
Proof.
  eapply perm_trans; [apply Permutation_map, Permutation_sym, sort_by_perm |].
  rewrite groupby_score_keys by (intros l; apply smax_None). apply Permutation_refl.
Qed.

(** X8. [head(k)] of the players sorted by highest score: [k] distinct
    players, or all of them when there are fewer, and no player left
    out has a higher best score than a player taken.  The five
    labelled players are the first five of the twenty drawn. *)
Theorem top_names_are_the_highest k df :
  NoDup (top_names k df)
  /\ List.length (top_names k df) = Nat.min k (List.length (group_keys df))
  /\ (forall p, In p (top_names k df) -> In p (group_keys df))
  /\ (forall p q mp mq,
         In p (top_names k df) -> In q (group_keys df) -> ~ In q (top_names k df) ->
         is_max mp (map score (group_rows p df)) ->
         is_max mq (map score (group_rows q df)) ->
         mq <= mp)
  /\ top_names 5 df = firstn 5 (top_names 20 df).
Proof.
  set (sorted := sort_by by_value_desc (groupby_score smax df)).
  assert (Hperm : Permutation (map fst sorted) (group_keys df)) by apply sorted_maxima_keys.
  split; [| split; [| split; [| split]]].
  - rewrite top_names_firstn. apply NoDup_firstn.
    eapply Permutation_NoDup; [apply Permutation_sym, Hperm | apply group_keys_NoDup].
  - rewrite top_names_firstn, length_firstn. fold sorted.
    now rewrite (Permutation_length Hperm).
  - apply In_top_names.
  - intros p q mp mq Hp Hq Hnq Hmp Hmq.
    unfold top_names in Hp, Hnq. fold sorted in Hp, Hnq.
    apply in_map_iff in Hp. destruct Hp as ((p', vp) & E & Hp). simpl in E. subst p'.
    assert (Hq' : In (q, mq) sorted).
    { apply In_sort_by, In_groupby_score. split; [assumption | now apply smax_spec]. }
    rewrite <- (firstn_skipn k sorted) in Hq'. apply in_app_or in Hq'.
    destruct Hq' as [Hq' | Hq'].
    { exfalso. apply Hnq. apply in_map_iff. exists (q, mq). auto. }
    assert (Hvp : vp = mp).
    { apply In_firstn, In_sort_by, In_groupby_score in Hp. destruct Hp as (_ & Hp).
      apply smax_spec in Hp. eapply is_max_unique; eauto. }
    subst vp.
    assert (Hs : StronglySorted (fun a b : string * Z => snd b <= snd a)
                                (firstn k sorted ++ skipn k sorted)).
    { rewrite firstn_skipn. apply sort_values_desc_sorted. }
    apply (sorted_app_le _ _ _ Hs _ _ Hp Hq').
  - rewrite !top_names_firstn, firstn_firstn. reflexivity.
Qed.

Lemma length_flat_map_const {A B : Type} (f : A -> list B) (n : nat) l :
  (forall a, In a l -> List.length (f a) = n) ->
  List.length (flat_map f l) = (List.length l * n)%nat.
Proof.
  induction l as [| a l IH]; intros H; simpl; [reflexivity |].
  rewrite length_app, IH by (intros; apply H; now right).
  rewrite (H a) by now left. reflexivity.
Qed.

Lemma cohort_row_exists df p t :
  In p (top_names 20 df) ->
  In t (unique_sorted Z.leb (map timestamp (df_top20 df))) ->
  exists v, In (mkLong t p v) (df_long df).
Proof.
  intros Hp Ht.
  destruct (In_combine_exists (unique_sorted Z.leb (map timestamp (df_top20 df)))
                              (filled_column (df_top20 df) p) t) as (v & Hv);
    [symmetry; apply filled_column_length | assumption |].
  exists v. apply In_df_long. simpl. auto.
Qed.

(** X9. The long form has one row for each pair of a cohort player and
    an axis timestamp, its rows are of cohort players at instants some
    cohort player was observed, and no [Score] in it is negative. *)
Theorem long_form_shape df :
  List.length (df_long df)
  = (List.length (group_keys (df_top20 df))
     * List.length (unique_sorted Z.leb (map timestamp (df_top20 df))))%nat
  /\ (forall r, In r (df_long df) ->
                In (Player r) (top_names 20 df)
                /\ exists o, In o df /\ In (name o) (top_names 20 df)
                             /\ timestamp o = lr_timestamp r)
  /\ (forall r v, In r (df_long df) -> Score r = Some v -> 0 <= v).
Proof.
  split; [| split].
  - unfold df_long, progression_pivot. rewrite filled_pivot_eq. unfold melt. simpl.
    rewrite flat_map_concat_map, map_map, <- flat_map_concat_map.
    apply length_flat_map_const. intros p _. simpl.
    rewrite length_map, length_combine, filled_column_length. apply Nat.min_id.
  - intros r Hr. apply In_df_long in Hr. destruct Hr as (Hp & Hc).
    split; [assumption |].
    apply in_combine_l, In_index in Hc. destruct Hc as (o & Ho & Ht).
    apply In_df_top20 in Ho. exists o. tauto.
  - intros r v Hr Hv. apply In_df_long in Hr. destruct Hr as (_ & Hc).
    rewrite Hv in Hc. apply filled_column_spec in Hc.
    destruct Hc as [(E & _) | (o & m & _ & _ & _ & _ & _ & E)]; [discriminate |].
    injection E as ->. lia.
Qed.

(** X10. Once a player's column holds a value it holds one at every
    later axis timestamp: after the first observation no [Score] is
    NaN. *)
Theorem line_never_breaks df p t v t' u :
  In (mkLong t p (Some v)) (df_long df) ->
  In (mkLong t' p u) (df_long df) ->
  t <= t' ->
  u <> None.
Proof.
  intros H1 H2 Hle. apply In_df_long in H1. apply In_df_long in H2. simpl in *.
  destruct H1 as (_ & H1). destruct H2 as (_ & H2).
  apply filled_column_spec in H1. apply filled_column_spec in H2.
  destruct H1 as [(E & _) | (o & m & Ho & Hn & Hto & _)]; [discriminate |].
  destruct H2 as [(_ & Hall) | (o' & m' & _ & _ & _ & _ & _ & ->)]; [| discriminate].
  specialize (Hall o Ho Hn). lia.
Qed.

Lemma line_never_breaks_witness :
  Some 7 <> @None Z.
Proof.
  apply (line_never_breaks [mkObs "A" 1 3; mkObs "B" 2 7; mkObs "A" 5 4] "B" 2 7 5 (Some 7)).
  - vm_compute. auto 10.
  - vm_compute. auto 10.
  - lia.
Defined.

(** [groupby('Player').tail(1)] *)

Lemma tail_1_incl l r : In r (tail_1 l) -> In r l.
Proof.
  induction l as [| x l IH]; simpl; [tauto |].
  destruct (existsb _ l); simpl; intuition.
Qed.

Lemma tail_1_players l :
  NoDup (map Player (tail_1 l))
  /\ forall p, In p (map Player (tail_1 l)) <-> In p (map Player l).
Proof.
  induction l as [| x l (IHn & IHp)]; simpl; [split; [constructor | tauto] |].
  destruct (existsb (fun r' => String.eqb (Player r') (Player x)) l) eqn:E.
  - split; [assumption |]. intros p. rewrite IHp. split; [auto |].
    intros [<- | H]; [| assumption].
    apply existsb_exists in E. destruct E as (r' & Hr' & Eq).
    apply String.eqb_eq in Eq. rewrite <- Eq. now apply in_map.
  - simpl. split.
    + constructor; [| assumption]. rewrite IHp. intros Hin.
      apply in_map_iff in Hin. destruct Hin as (r' & Eq & Hr').
      assert (Ht : existsb (fun r' => String.eqb (Player r') (Player x)) l = true).
      { apply existsb_exists. exists r'. split; [assumption | now apply String.eqb_eq]. }
      congruence.
    + intros p. rewrite IHp. tauto.
Qed.

(** In a frame ordered by timestamp the row kept for a player is not
    earlier than any of the player's rows. *)
Lemma tail_1_latest l :
  StronglySorted (fun a b => lr_timestamp a <= lr_timestamp b) l ->
  forall r r', In r (tail_1 l) -> In r' l -> Player r' = Player r ->
               lr_timestamp r' <= lr_timestamp r.
Proof.
  induction 1 as [| x l Hs IH Hall]; intros r r' Hr Hr' Hp; [destruct Hr |].
  rewrite Forall_forall in Hall. simpl in Hr.
  destruct (existsb (fun r0 => String.eqb (Player r0) (Player x)) l) eqn:E.
  - destruct Hr' as [<- | Hr']; [apply Hall; now apply tail_1_incl | eauto].
  - destruct Hr as [<- | Hr].
    + destruct Hr' as [<- | Hr']; [lia |].
      assert (Ht : existsb (fun r0 => String.eqb (Player r0) (Player x)) l = true).
      { apply existsb_exists. exists r'. split; [assumption | now apply String.eqb_eq]. }
      congruence.
    + destruct Hr' as [<- | Hr']; [apply Hall; now apply tail_1_incl | eauto].
Qed.

Lemma by_lr_timestamp_sorted l :
  StronglySorted (fun a b => lr_timestamp a <= lr_timestamp b) (sort_by by_lr_timestamp l).
Proof.
  assert (H : StronglySorted (fun a b => by_lr_timestamp a b = true)
                             (sort_by by_lr_timestamp l)).
  { apply sort_by_sorted; unfold by_lr_timestamp; intros.
    - apply z_leb_total.
    - eapply z_leb_trans; eauto. }
  induction H as [| a l' Hs IH Hall]; constructor; [assumption |].
  eapply Forall_impl; [| exact Hall]. intros b Hb. now apply Z.leb_le.
Qed.

Lemma top5_in_top20 df p : In p (top_names 5 df) -> In p (top_names 20 df).
Proof.
  rewrite !top_names_firstn.
  replace 5%nat with (Nat.min 5 20) by reflexivity.
  rewrite <- firstn_firstn. apply In_firstn.
Qed.

(** X11. The label points: one row of the long form for each of the
    five top players and for no one else; it stands at the last
    timestamp of the axis and carries a value. *)
Theorem latest_points_are_line_ends df :
  NoDup (map Player (latest_points df))
  /\ (forall p, In p (map Player (latest_points df)) <-> In p (top_names 5 df))
  /\ (forall r, In r (latest_points df) ->
                In r (df_long df)
                /\ Score r <> None
                /\ forall r', In r' (df_long df) -> lr_timestamp r' <= lr_timestamp r).
Proof.
  unfold latest_points, latest_points_of.
  set (l := sort_by by_lr_timestamp
                    (filter (fun r => isin (top_names 5 df) (Player r)) (df_long df))).
  assert (Hl : forall r, In r l <-> In r (df_long df) /\ In (Player r) (top_names 5 df)).
  { intros r. unfold l. now rewrite In_sort_by, filter_In, isin_In. }
  destruct (tail_1_players l) as (Hnd & Hpl).
  split; [exact Hnd |]. split.
  - intros p. rewrite Hpl, in_map_iff. split.
    + intros (r & <- & Hr). apply Hl in Hr. tauto.
    + intros Hp. pose proof (top5_in_top20 _ _ Hp) as Hp20.
      pose proof (In_top_names _ _ _ Hp) as Hk. apply In_group_keys in Hk.
      destruct Hk as (o & Ho & Hn).
      destruct (cohort_row_exists df p (timestamp o)) as (v & Hv); [assumption | |].
      { apply In_index. exists o. split; [| reflexivity].
        apply In_df_top20. subst. auto. }
      exists (mkLong (timestamp o) p v). split; [reflexivity |]. apply Hl. auto.
  - intros r Hr. pose proof (tail_1_incl _ _ Hr) as Hrl. apply Hl in Hrl.
    destruct Hrl as (Hlong & Hp5). pose proof (top5_in_top20 _ _ Hp5) as Hp20.
    assert (Hlast : forall r', In r' (df_long df) -> lr_timestamp r' <= lr_timestamp r).
    { intros r' Hr'. apply In_df_long in Hr'. destruct Hr' as (_ & Hc).
      apply in_combine_l in Hc.
      destruct (cohort_row_exists df (Player r) (lr_timestamp r') Hp20 Hc) as (v & Hv).
      apply (tail_1_latest l (by_lr_timestamp_sorted _) r (mkLong (lr_timestamp r') (Player r) v));
        [assumption | apply Hl; auto | reflexivity]. }
    split; [assumption |]. split; [| assumption].
    pose proof (In_top_names _ _ _ Hp20) as Hk. apply In_group_keys in Hk.
    destruct Hk as (o & Ho & Hn).
    destruct (cohort_row_exists df (Player r) (timestamp o)) as (v & Hv); [assumption | |].
    { apply In_index. exists o. split; [| reflexivity].
      apply In_df_top20. rewrite Hn. auto. }
    specialize (Hlast _ Hv). simpl in Hlast.
    apply In_df_long in Hlong. destruct Hlong as (_ & Hc).
    apply filled_column_spec in Hc.
    destruct Hc as [(_ & Hall) | (o' & m & _ & _ & _ & _ & _ & ->)]; [| discriminate].
    assert (Hod : In o (df_top20 df)) by (apply In_df_top20; rewrite Hn; auto).
    specialize (Hall o Hod Hn). lia.
Qed.

(** ** More on the rolling max-gain loop *)

Lemma window_max_exists series w anchor o :
  In o series -> in_window w anchor o -> exists m, window_max series w anchor m.
Proof.
  intros Ho Hw.
  destruct (smax (map score (future_window series anchor (timestamp anchor + w))))
    as [m |] eqn:E.
  - exists m. now apply future_window_max.
  - exfalso. apply smax_None, map_eq_nil in E.
    assert (Hin : In o (future_window series anchor (timestamp anchor + w))).
    { unfold future_window. apply filter_In. split; [assumption |].
      destruct Hw as (H1 & H2). apply andb_true_iff. now rewrite Z.ltb_lt, Z.leb_le. }
    rewrite E in Hin. exact Hin.
Qed.

Lemma player_max_gain_mono h1 h2 player df :
  scores_fit df ->
  h1 <= h2 -> player_max_gain h1 player df <= player_max_gain h2 player df.
Proof.
  intros Hfit Hh.
  destruct (player_max_gain_spec h1 player df) as (_ & Hmax1 & _).
  destruct (player_max_gain_spec h2 player df) as (Hnn2 & _ & Hub2).
  destruct (Z.le_gt_cases (player_max_gain h1 player df) 0) as [H0 | Hpos]; [lia |].
  destruct (Hmax1 ltac:(lia)) as (Hc & _).
  apply (wrapped_candidate_fit df player _ _ Hfit) in Hc.
  destruct Hc as (anchor & m & Ha & ((o & Ho & (Hw1 & Hw2) & Hs) & Hm) & E).
  assert (Hw : in_window (timedelta_hours h2) anchor o).
  { unfold in_window, timedelta_hours in *. lia. }
  destruct (window_max_exists _ _ _ _ Ho Hw) as (m2 & Hm2).
  assert (Hle : m - score anchor <= player_max_gain h2 player df).
  { transitivity (m2 - score anchor).
    - destruct Hm2 as (_ & Hub). specialize (Hub o Ho Hw). lia.
    - apply Hub2. apply (wrapped_candidate_fit df player _ _ Hfit).
      exists anchor, m2. auto. }
  lia.
Qed.

(** X12. When the scores fit (no difference of two of them leaves the
    64-bit range), a longer rolling window never lowers a player's
    biggest gain, and reports every player a shorter one reports. *)
Theorem longer_rolling_window_reports_more h1 h2 df player v1 :
  scores_fit df ->
  h1 <= h2 ->
  In (player, v1) (biggest_changes h1 df) ->
  exists v2, In (player, v2) (biggest_changes h2 df) /\ v1 <= v2.
Proof.
  intros Hfit Hh Hin. apply In_biggest_changes in Hin. destruct Hin as (Hk & -> & Hpos).
  pose proof (player_max_gain_mono h1 h2 player df Hfit Hh) as Hle.
  exists (player_max_gain h2 player df). split; [| assumption].
  apply In_biggest_changes. repeat split; [assumption | lia].
Qed.

Lemma longer_rolling_window_reports_more_witness :
  exists v2,
    In ("A"%string, v2)
       (biggest_changes 4 [mkObs "A" 0 10; mkObs "A" (timedelta_hours 1) 30;
                           mkObs "A" (timedelta_hours 3) 45])
    /\ 20 <= v2.
Proof.
  apply (longer_rolling_window_reports_more 2 4).
  - intros o [<- | [<- | [<- | []]]]; simpl; split; reflexivity || discriminate.
  - lia.
  - vm_compute. auto.
Defined.

Lemma two_distinct_rows {A : Type} (l : list A) a b :
  In a l -> In b l -> a <> b -> (2 <= List.length l)%nat.
Proof.
  destruct l as [| x [| y l]]; simpl; intros Ha Hb Hab; try lia.
  destruct Ha as [<- | []]. destruct Hb as [<- | []]. contradiction.
Qed.

(** X13. When the scores fit (no difference of two of them leaves the
    64-bit range), a player reported by the rolling loop is on the
    all-time leaderboard taken without allow-list, with a gain that is
    not smaller than the rolling gain. *)
Theorem rolling_gain_below_all_time_gain h now df player v :
  scores_fit df ->
  In (player, v) (biggest_changes h df) ->
  exists g, In (player, g) (rows (get_gain_leaderboard now None [] df)) /\ v <= g.
Proof.
  intros Hfit Hin. apply In_biggest_changes in Hin. destruct Hin as (_ & -> & Hpos).
  destruct (player_max_gain_spec h player df) as (_ & Hmax & _).
  destruct (Hmax Hpos) as (Hc & _).
  apply (wrapped_candidate_fit df player _ _ Hfit) in Hc.
  destruct Hc as (anchor & m & Ha & ((o & Ho & (Hw1 & Hw2) & Hs) & Hm) & E).
  apply In_observation_series in Ha, Ho.
  assert (Hga : In anchor (group_rows player df)) by now apply In_group_rows.
  assert (Hgo : In o (group_rows player df)) by now apply In_group_rows.
  assert (Hlen : (2 <= List.length (group_rows player df))%nat).
  { apply (two_distinct_rows _ anchor o); try assumption.
    intros ->. lia. }
  destruct (max_exists (map score (group_rows player df))) as (mx & Hmx).
  { intros E0. apply map_eq_nil in E0. rewrite E0 in Hga. exact Hga. }
  destruct (min_exists (map score (group_rows player df))) as (mn & Hmn).
  { intros E0. apply map_eq_nil in E0. rewrite E0 in Hga. exact Hga. }
  exists (mx - mn). split.
  - apply (proj2 (In_gain_rows now None [] df player (mx - mn))).
    split; [assumption |]. exists mx, mn.
    split; [assumption |]. split; [assumption |].
    symmetry. exact (gain_fit now None [] df player mx mn Hfit Hmx Hmn).
  - assert (score o <= mx) by (apply Hmx; now apply in_map).
    assert (mn <= score anchor) by (apply Hmn; now apply in_map).
    lia.
Qed.

Lemma rolling_gain_below_all_time_gain_witness :
  let df := [mkObs "A" 0 10; mkObs "A" (timedelta_hours 1) 30;
             mkObs "A" (timedelta_hours 9) 5] in
  exists g, In ("A"%string, g) (rows (get_gain_leaderboard 0 None [] df)) /\ 20 <= g.
Proof.
  intros df.
  apply (rolling_gain_below_all_time_gain 2 0 df "A" 20).
  - intros o [<- | [<- | [<- | []]]]; simpl; split; reflexivity || discriminate.
  - vm_compute. auto.
Defined.

Lemma flat_map_keys_sorted (f : string -> list (string * Z)) ks :
  StronglySorted (klt String.leb) ks ->
  (forall k kv, In kv (f k) -> f k = [kv] /\ fst kv = k) ->
  StronglySorted (klt String.leb) (map fst (flat_map f ks)).
Proof.
  intros Hs Hf. induction Hs as [| k ks Hs IH Hall]; simpl; [constructor |].
  destruct (f k) as [| kv rest] eqn:E; simpl; [assumption |].
  destruct (Hf k kv) as (E1 & E2); [rewrite E; now left |].
  rewrite E in E1. injection E1 as ->. simpl.
  constructor; [assumption |].
  rewrite Forall_forall in *. intros n Hn.
  apply in_map_iff in Hn. destruct Hn as (kv' & <- & Hkv').
  apply in_flat_map in Hkv'. destruct Hkv' as (k' & Hk' & Hin).
  destruct (Hf k' kv' Hin) as (_ & ->). rewrite E2. now apply Hall.
Qed.

(** X14. The rolling loop records a player at most once, in ascending
    order of name, with a positive gain; line 212 shows the same
    records in descending order of gain, and the warning of line 215
    replaces the table exactly when there is no record. *)
Theorem rolling_records_and_display h df :
  StronglySorted (klt String.leb) (map fst (biggest_changes h df))
  /\ NoDup (map fst (biggest_changes h df))
  /\ (forall player v, In (player, v) (biggest_changes h df) ->
                       0 < v /\ exists o, In o df /\ name o = player)
  /\ (rolling_display h df = None <-> biggest_changes h df = [])
  /\ (forall shown, rolling_display h df = Some shown ->
                    Permutation (biggest_changes h df) shown
                    /\ StronglySorted (fun a b => snd b <= snd a) shown).
Proof.
  assert (Hs : StronglySorted (klt String.leb) (map fst (biggest_changes h df))).
  { unfold biggest_changes. apply flat_map_keys_sorted; [apply group_keys_sorted |].
    intros k kv. simpl. destruct (0 <? player_max_gain h k df); [| intros []].
    intros [<- | []]. auto. }
  split; [exact Hs |]. split; [| split; [| split]].
  - eapply sorted_NoDup; [apply String.leb_total | exact Hs].
  - intros player v Hin. apply In_biggest_changes in Hin.
    destruct Hin as (Hk & _ & Hpos). split; [assumption | now apply In_group_keys].
  - unfold rolling_display. destruct (biggest_changes h df); split; congruence.
  - intros shown. unfold rolling_display.
    destruct (biggest_changes h df) as [| r l] eqn:E; [discriminate |].
    intros [= <-].
    split; [apply (sort_by_perm _ by_value_desc (r :: l))
           | apply (sort_values_desc_sorted (r :: l))].
Qed.

(** ** The thousands format of line 238 *)

Lemma digits_of_uint d :
  Forall is_digit (list_ascii_of_string (NilEmpty.string_of_uint d)).
Proof.
  induction d; simpl; constructor; try assumption; unfold is_digit; simpl; tauto.
Qed.

Lemma digits_of_N n :
  Forall is_digit (list_ascii_of_string (NilZero.string_of_uint (N.to_uint n))).
Proof.
  destruct (N.to_uint n);
    try (match goal with
         | |- Forall _ (list_ascii_of_string (NilZero.string_of_uint ?u)) =>
             change (NilZero.string_of_uint u) with (NilEmpty.string_of_uint u);
             apply digits_of_uint
         end).
  simpl. constructor; [unfold is_digit; simpl; tauto | constructor].
Qed.

Lemma digit_not_comma c : is_digit c -> Ascii.eqb c "," = false.
Proof.
  unfold is_digit. simpl. intros H.
  repeat (destruct H as [<- | H]; [reflexivity |]). destruct H.
Qed.

(** Dropping the separators undoes the grouping. *)
Lemma group_digits_ungroup l :
  Forall is_digit l ->
  forall k, filter (fun c => negb (Ascii.eqb c ",")) (group_digits l k) = l.
Proof.
  induction 1 as [| d l Hd Hl IH]; intros k; simpl; [reflexivity |].
  destruct (Nat.eqb k 3); simpl; rewrite (digit_not_comma d Hd); simpl; now rewrite IH.
Qed.

Lemma mod4_shift n : ((n + 4) mod 4 = n mod 4)%nat.
Proof.
  replace (n + 4)%nat with (n + 1 * 4)%nat by lia. apply Nat.Div0.mod_add.
Qed.

(** A separator stands before every fourth place counted from the
    right, and nowhere else. *)
Lemma group_digits_places l :
  Forall is_digit l ->
  forall k i c, (k <= 3)%nat -> nth_error (group_digits l k) i = Some c ->
                (c = ","%char <-> (i + k) mod 4 = 3)%nat.
Proof.
  induction 1 as [| d l Hd Hl IH]; intros k i c Hk Hn; simpl in Hn.
  - destruct i; discriminate.
  - assert (Hdc : d <> ","%char).
    { intros ->. apply digit_not_comma in Hd. discriminate. }
    destruct (Nat.eqb k 3) eqn:E; [apply Nat.eqb_eq in E | apply Nat.eqb_neq in E].
    + subst k. destruct i as [| [| i]]; simpl in Hn.
      * injection Hn as <-. split; [reflexivity | tauto].
      * injection Hn as <-. split; [contradiction | intros H; simpl in H; discriminate].
      * rewrite (IH 1%nat i c ltac:(lia) Hn).
        replace (S (S i) + 3)%nat with (i + 1 + 4)%nat by lia.
        now rewrite mod4_shift.
    + destruct i as [| i]; simpl in Hn.
      * injection Hn as <-. split; [contradiction |].
        intros H. rewrite Nat.add_0_l, Nat.mod_small in H by lia. lia.
      * rewrite (IH (S k) i c ltac:(lia) Hn).
        now replace (S i + k)%nat with (i + S k)%nat by lia.
Qed.

Lemma filter_rev {A : Type} (f : A -> bool) l : filter f (rev l) = rev (filter f l).
Proof.
  induction l as [| x l IH]; simpl; [reflexivity |].
  rewrite filter_app, IH. simpl. destruct (f x); simpl; [reflexivity | apply app_nil_r].
Qed.

Lemma grouped_body_ungroup digits :
  Forall is_digit digits ->
  filter (fun c => negb (Ascii.eqb c ",")) (rev (group_digits (rev digits) 0)) = digits.
Proof.
  intros Hd. rewrite filter_rev, group_digits_ungroup, rev_involutive; [reflexivity |].
  apply Forall_rev. exact Hd.
Qed.

Lemma remove_separators_format x :
  remove_separators (format_thousands x) = NilZero.string_of_int (Z.to_int x).
Proof.
  unfold remove_separators, format_thousands.
  pose proof (digits_of_N (Z.to_N (Z.abs x))) as Hd.
  destruct (x <? 0) eqn:Ex.
  - simpl list_ascii_of_string. rewrite list_ascii_of_string_of_list_ascii.
    simpl filter. rewrite (grouped_body_ungroup _ Hd).
    simpl string_of_list_ascii. rewrite string_of_list_ascii_of_string.
    destruct x as [| p | p]; try discriminate Ex. reflexivity.
  - rewrite list_ascii_of_string_of_list_ascii, (grouped_body_ungroup _ Hd).
    rewrite string_of_list_ascii_of_string.
    destruct x as [| p | p]; try discriminate Ex; reflexivity.
Qed.

(** X15. The formatted score keeps the number: without the separators
    it is the decimal numeral of the score, so it reads back as the
    score and two scores never share a format; from the right, every
    fourth character is a separator and no other is. *)
Theorem format_thousands_keeps_the_score x :
  remove_separators (format_thousands x) = NilZero.string_of_int (Z.to_int x)
  /\ read_thousands (format_thousands x) = Some x
  /\ (forall y, format_thousands x = format_thousands y -> x = y)
  /\ (forall i c,
         nth_error (rev (list_ascii_of_string (format_thousands (Z.abs x)))) i = Some c ->
         (c = ","%char <-> i mod 4 = 3)%nat).
Proof.
  assert (Hread : forall z, read_thousands (format_thousands z) = Some z).
  { intros z. unfold read_thousands. rewrite remove_separators_format.
    rewrite NilZero.isi.
    - simpl. now rewrite DecimalZ.of_to.
    - destruct z; simpl; try discriminate.
      intros [= E]. now apply Unsigned.to_uint_nonnil in E.
    - destruct z; simpl; try discriminate.
      intros [= E]. now apply Unsigned.to_uint_nonnil in E. }
  split; [apply remove_separators_format |]. split; [apply Hread |]. split.
  - intros y E. pose proof (Hread x) as Hx. rewrite E, Hread in Hx. congruence.
  - intros i c. unfold format_thousands.
    assert (Hnn : (Z.abs x <? 0) = false) by (apply Z.ltb_ge; lia).
    rewrite Hnn, list_ascii_of_string_of_list_ascii, rev_involutive.
    intros Hn.
    assert (Hd : Forall is_digit
                   (rev (list_ascii_of_string
                           (NilZero.string_of_uint (N.to_uint (Z.to_N (Z.abs (Z.abs x))))))))
      by apply Forall_rev, digits_of_N.
    pose proof (group_digits_places _ Hd 0%nat i c ltac:(lia) Hn) as Hp.
    now rewrite Nat.add_0_r in Hp.
Qed.

(** ** More on the seasonal leaderboard *)

(** X16. The seasonal leaderboard is empty, and line 265 warns, exactly
    when no row of [df] bears a selected name. *)
Theorem seasonal_empty_iff_no_match selected df :
  seasonal_leaderboard selected df = []
  <-> forall o, In o df -> ~ In (name o) selected.
Proof.
  pose proof (max_scores_sorted_names selected df) as Hperm.
  assert (H1 : seasonal_leaderboard selected df = [] <-> max_scores_sorted selected df = []).
  { unfold seasonal_leaderboard. split.
    - intros E. apply map_eq_nil in E.
      rewrite <- (insert_rank_rows (max_scores_sorted selected df)), E. reflexivity.
    - intros E. rewrite E. reflexivity. }
  rewrite H1. split.
  - intros E o Ho Hsel. rewrite E in Hperm. simpl in Hperm.
    apply Permutation_nil in Hperm.
    assert (Hin : In (name o) (filter (isin selected) (group_keys df))).
    { apply filter_In. split; [apply In_group_keys; eauto | now apply isin_In]. }
    rewrite Hperm in Hin. exact Hin.
  - intros H.
    assert (E : filter (isin selected) (group_keys df) = []).
    { apply filter_none. intros n Hn. apply In_group_keys in Hn.
      destruct Hn as (o & Ho & <-).
      destruct (isin selected (name o)) eqn:Ei; [| reflexivity].
      apply isin_In in Ei. exfalso. eapply H; eauto. }
    rewrite E in Hperm. apply Permutation_sym, Permutation_nil in Hperm.
    now apply map_eq_nil in Hperm.
Qed.

(** X17. Only the set of selected names counts: their order in the
    file and repeated lines change nothing. *)
Theorem seasonal_depends_on_selected_set selected1 selected2 df :
  (forall n, In n selected1 <-> In n selected2) ->
  seasonal_leaderboard selected1 df = seasonal_leaderboard selected2 df.
Proof.
  intros H. unfold seasonal_leaderboard, max_scores_sorted.
  assert (E : filter (fun o => isin selected1 (name o)) df
              = filter (fun o => isin selected2 (name o)) df).
  { apply filter_ext. intros o.
    destruct (isin selected1 (name o)) eqn:E1; destruct (isin selected2 (name o)) eqn:E2;
      try reflexivity.
    - apply isin_In, H, isin_In in E1. congruence.
    - apply isin_In, H, isin_In in E2. congruence. }
  now rewrite E.
Qed.

Lemma seasonal_depends_on_selected_set_witness :
  let df := [mkObs "X" 0 42; mkObs "Y" 1 50] in
  seasonal_leaderboard ["X"; "Y"; "X"]%string df = seasonal_leaderboard ["Y"; "X"]%string df.
Proof.
  intros df.
  apply (seasonal_depends_on_selected_set ["X"; "Y"; "X"]%string ["Y"; "X"]%string df).
  intros n. simpl. tauto.
Defined.

(** ** The order of the rows of [df] *)

Lemma filter_perm {A : Type} (f : A -> bool) l l' :
  Permutation l l' -> Permutation (filter f l) (filter f l').
Proof.
  induction 1 as [| x l l' Hp IH | x y l | l l' l'' H1 IH1 H2 IH2]; simpl.
  - constructor.
  - destruct (f x); [now constructor | assumption].
  - destruct (f x), (f y); try apply Permutation_refl. apply perm_swap.
  - eapply perm_trans; eauto.
Qed.

Lemma smax_perm l l' : Permutation l l' -> smax l = smax l'.
Proof.
  intros Hp. destruct (smax l) as [m |] eqn:E.
  - symmetry. apply smax_spec. apply smax_spec in E. destruct E as (Hin & Hub). split.
    + eapply Permutation_in; eauto.
    + intros x Hx. apply Hub. eapply Permutation_in; [apply Permutation_sym |]; eauto.
  - apply smax_None in E. subst. apply Permutation_nil in Hp. now subst.
Qed.

Lemma smin_perm l l' : Permutation l l' -> smin l = smin l'.
Proof.
  intros Hp. destruct (smin l) as [m |] eqn:E.
  - symmetry. apply smin_spec. apply smin_spec in E. destruct E as (Hin & Hub). split.
    + eapply Permutation_in; eauto.
    + intros x Hx. apply Hub. eapply Permutation_in; [apply Permutation_sym |]; eauto.
  - apply smin_None in E. subst. apply Permutation_nil in Hp. now subst.
Qed.

Lemma group_keys_perm df df' : Permutation df df' -> group_keys df = group_keys df'.
Proof.
  intros Hp.
  apply (sorted_ext _ _ String.leb_total String.leb_antisym string_leb_trans);
    try apply group_keys_sorted.
  intros n. rewrite !In_group_keys.
  split; intros (o & Ho & Hn); exists o; (split; [| assumption]).
  - eapply Permutation_in; [exact Hp | exact Ho].
  - eapply Permutation_in; [apply Permutation_sym; exact Hp | exact Ho].
Qed.

Lemma index_perm d d' :
  Permutation d d' ->
  unique_sorted Z.leb (map timestamp d) = unique_sorted Z.leb (map timestamp d').
Proof.
  intros Hp.
  apply (sorted_ext _ _ z_leb_total z_leb_antisym z_leb_trans);
    try apply (unique_sorted_sorted _ _ z_leb_total z_leb_antisym z_leb_trans).
  intros t. rewrite !In_index.
  split; intros (o & Ho & Hn); exists o; (split; [| assumption]).
  - eapply Permutation_in; [exact Hp | exact Ho].
  - eapply Permutation_in; [apply Permutation_sym; exact Hp | exact Ho].
Qed.

Lemma groupby_score_perm agg df df' :
  (forall l l', Permutation l l' -> agg l = agg l') ->
  Permutation df df' -> groupby_score agg df = groupby_score agg df'.
Proof.
  intros Hagg Hp. unfold groupby_score. rewrite (group_keys_perm df df' Hp).
  apply flat_map_ext. intros n.
  rewrite (Hagg (map score (group_rows n df)) (map score (group_rows n df'))); [reflexivity |].
  apply Permutation_map, filter_perm, Hp.
Qed.

Lemma window_rows_perm now tw fn df df' :
  Permutation df df' ->
  Permutation (window_rows now tw fn df) (window_rows now tw fn df').
Proof.
  intros Hp. unfold window_rows.
  assert (Ht : Permutation (time_filter now tw df) (time_filter now tw df')).
  { unfold time_filter. destruct tw as [d |]; [| assumption].
    destruct (d =? 0); [assumption | now apply filter_perm]. }
  unfold name_filter. destruct fn; [assumption | now apply filter_perm].
Qed.

Lemma df_filtered_perm now tw fn df df' :
  Permutation df df' ->
  Permutation (df_filtered now tw fn df) (df_filtered now tw fn df').
Proof.
  intros Hp. pose proof (window_rows_perm now tw fn df df' Hp) as Hw.
  unfold df_filtered.
  rewrite (filter_ext (fun o => isin (valid_names (window_rows now tw fn df)) (name o))
                      (fun o => isin (valid_names (window_rows now tw fn df')) (name o))).
  - now apply filter_perm.
  - intros o.
    assert (Hiff : In (name o) (valid_names (window_rows now tw fn df))
                   <-> In (name o) (valid_names (window_rows now tw fn df'))).
    { rewrite !In_valid_names. unfold group_rows.
      now rewrite (Permutation_length (filter_perm (fun x => String.eqb (name x) (name o))
                                                   _ _ Hw)). }
    rewrite <- !isin_In in Hiff.
    destruct (isin (valid_names (window_rows now tw fn df)) (name o));
      destruct (isin (valid_names (window_rows now tw fn df')) (name o));
      try reflexivity; intuition congruence.
Qed.

Lemma score_dtype_perm df df' : Permutation df df' -> score_dtype df = score_dtype df'.
Proof.
  intros Hp. unfold score_dtype.
  assert (E : forallb (fun o => in_int64 (score o)) df
              = forallb (fun o => in_int64 (score o)) df').
  { destruct (forallb (fun o => in_int64 (score o)) df) eqn:E1;
      destruct (forallb (fun o => in_int64 (score o)) df') eqn:E2; try reflexivity.
    - rewrite forallb_forall in E1. rewrite <- E2. symmetry. apply forallb_forall.
      intros o Ho. apply E1. eapply Permutation_in; [apply Permutation_sym; exact Hp | exact Ho].
    - rewrite forallb_forall in E2. rewrite <- E1. apply forallb_forall.
      intros o Ho. apply E2. eapply Permutation_in; [exact Hp | exact Ho]. }
  now rewrite E.
Qed.

Lemma wrapped_candidate_ext dt s s' w c :
  (forall o, In o s <-> In o s') -> wrapped_candidate dt s w c -> wrapped_candidate dt s' w c.
Proof.
  intros H (anchor & m & Ha & ((o & Ho & Hw & Hs) & Hub) & E).
  exists anchor, m. split; [now apply H |]. split; [| assumption]. split.
  - exists o. split; [now apply H | auto].
  - intros o' Ho'. apply Hub. now apply H.
Qed.

Lemma player_max_gain_perm h player df df' :
  Permutation df df' -> player_max_gain h player df = player_max_gain h player df'.
Proof.
  intros Hp.
  assert (Hext : forall o, In o (observation_series player df)
                           <-> In o (observation_series player df')).
  { intros o. rewrite !In_observation_series.
    split; intros (Ho & Hn); (split; [| assumption]).
    - eapply Permutation_in; [exact Hp | exact Ho].
    - eapply Permutation_in; [apply Permutation_sym; exact Hp | exact Ho]. }
  destruct (player_max_gain_spec h player df) as (Hnn & Hmax & Hub).
  destruct (player_max_gain_spec h player df') as (Hnn' & Hmax' & Hub').
  rewrite <- (score_dtype_perm df df' Hp) in Hmax', Hub'.
  apply Z.le_antisymm.
  - destruct (Z.le_gt_cases (player_max_gain h player df) 0) as [H0 | Hpos]; [lia |].
    apply Hub'. apply (wrapped_candidate_ext _ _ _ _ _ Hext). apply Hmax. lia.
  - destruct (Z.le_gt_cases (player_max_gain h player df') 0) as [H0 | Hpos]; [lia |].
    apply Hub. apply (wrapped_candidate_ext _ (observation_series player df'));
      [| apply Hmax'; lia].
    intros o. symmetry. apply Hext.
Qed.

Lemma pivot_cell_perm d d' p t : Permutation d d' -> pivot_cell d p t = pivot_cell d' p t.
Proof.
  intros Hp. unfold pivot_cell, cell_rows.
  apply smax_perm, Permutation_map, filter_perm, Hp.
Qed.

Lemma existsb_pointwise {A : Type} (f g : A -> bool) l :
  (forall x, f x = g x) -> existsb f l = existsb g l.
Proof.
  intros H. induction l as [| x l IH]; simpl; [reflexivity |]. now rewrite H, IH.
Qed.

Lemma pivot_has_nan_perm d d' : Permutation d d' -> pivot_has_nan d = pivot_has_nan d'.
Proof.
  intros Hp. unfold pivot_has_nan.
  rewrite (index_perm d d' Hp), (group_keys_perm d d' Hp).
  apply existsb_pointwise. intros p. apply existsb_pointwise. intros t.
  now rewrite (pivot_cell_perm d d' p t Hp).
Qed.

Lemma pivot_table_perm d d' : Permutation d d' -> pivot_table d = pivot_table d'.
Proof.
  intros Hp. unfold pivot_table.
  rewrite (index_perm d d' Hp), (group_keys_perm d d' Hp). f_equal.
  apply map_ext. intros p. f_equal. apply map_ext. intros t.
  unfold pivot_value, pivot_number.
  now rewrite (pivot_has_nan_perm d d' Hp), (pivot_cell_perm d d' p t Hp).
Qed.

(** X19. The order of the rows of [df] has no effect on any result:
    the gain tables, the progression, the rolling gains and the
    seasonal leaderboard of a reordered frame are the same. *)
Theorem row_order_is_irrelevant df df' :
  Permutation df df' ->
  (forall now tw fn, get_gain_leaderboard now tw fn df = get_gain_leaderboard now tw fn df')
  /\ df_long df = df_long df'
  /\ latest_points df = latest_points df'
  /\ (forall h, biggest_changes h df = biggest_changes h df')
  /\ (forall selected, seasonal_leaderboard selected df = seasonal_leaderboard selected df').
Proof.
  intros Hp.
  assert (Htop : forall k, top_names k df = top_names k df').
  { intros k. unfold top_names.
    now rewrite (groupby_score_perm smax df df' smax_perm Hp). }
  assert (Hlong : df_long df = df_long df').
  { unfold df_long, progression_pivot, filled_pivot.
    rewrite (pivot_table_perm (df_top20 df) (df_top20 df')); [reflexivity |].
    unfold df_top20. rewrite (Htop 20%nat). now apply filter_perm. }
  split; [| split; [| split; [| split]]].
  - intros now tw fn. pose proof (df_filtered_perm now tw fn df df' Hp) as Hf.
    unfold get_gain_leaderboard.
    destruct (df_filtered now tw fn df) as [| o r] eqn:E;
      destruct (df_filtered now tw fn df') as [| o' r'] eqn:E'.
    + reflexivity.
    + apply Permutation_nil in Hf. discriminate.
    + apply Permutation_sym, Permutation_nil in Hf. discriminate.
    + unfold groupby_series.
      rewrite (groupby_score_perm smax _ _ smax_perm Hf).
      rewrite (groupby_score_perm smin _ _ smin_perm Hf).
      rewrite (score_dtype_perm df df' Hp). reflexivity.
  - exact Hlong.
  - unfold latest_points. now rewrite Hlong, (Htop 5%nat).
  - intros h. unfold biggest_changes. rewrite (group_keys_perm df df' Hp).
    apply flat_map_ext. intros player.
    now rewrite (player_max_gain_perm h player df df' Hp).
  - intros selected. unfold seasonal_leaderboard, max_scores_sorted.
    rewrite (groupby_score_perm smax _ _ smax_perm
               (filter_perm (fun o => isin selected (name o)) df df' Hp)).
    reflexivity.
Qed.

Lemma row_order_is_irrelevant_witness :
  let df := [mkObs "A" 0 10; mkObs "B" 0 5; mkObs "A" 1 15] in
  let df' := [mkObs "B" 0 5; mkObs "A" 0 10; mkObs "A" 1 15] in
  (forall now tw fn, get_gain_leaderboard now tw fn df = get_gain_leaderboard now tw fn df')
  /\ df_long df = df_long df'
  /\ latest_points df = latest_points df'
  /\ (forall h, biggest_changes h df = biggest_changes h df')
  /\ (forall selected, seasonal_leaderboard selected df = seasonal_leaderboard selected df').
Proof.
  intros df df'. apply (row_order_is_irrelevant df df'). apply perm_swap.
Defined.
